(** * Fuzzy traffic-light controller: a shallow embedding

    The controller of [Controller_Model/fuzzy_traffic_controller.py] builds a
    Mamdani inference system with scikit-fuzzy and evaluates it on two crisp
    inputs.  Python floats are idealised as rationals ([Q]): every definition
    below performs the same operations, in the same order, as the Python code
    it embeds, on exact numbers.  A float has one representation per value;
    running sums are therefore kept in lowest terms with [Qred], which is the
    identity up to [==] ([Qred_correct]).  The operating system is not the
    program's: the state records the calls made to it ([os.makedirs],
    [plt.savefig]) and carries what it answers to them, so that every theorem
    holds whatever a call is answered.

    Layout:
    - [Np]      the numpy array primitives the pipeline relies on;
    - [Fuzz]    the scikit-fuzzy numeric routines (membership generation,
                interpolation, centroid defuzzification);
    - [Ctrl]    the scikit-fuzzy control layer (terms, rules, simulation);
    - [Helpers] [Codes/Utils/helpers.py];
    - [Traffic] the [TrafficLightControl] class itself;
    - [Program] the console program [main];
    - the vocabulary of the specification, then the lemmas and theorems. *)

From Stdlib Require Import ZArith QArith Qminmax Lqa Lia List String Bool.
From Stdlib Require Import Sorted Ascii DecimalString.
Import ListNotations.
Open Scope string_scope.
Open Scope list_scope.
Open Scope Q_scope.

(** ** Python exceptions as values *)

(** The text of an exception message, kept as the pieces an f-string puts
    together: literal text, and numbers left as the numbers they are
    formatted from. *)
Inductive piece : Type :=
| Lit (s : string)
| Num (q : Q).

(** [OSError] stands for the class and its subclasses
    ([FileExistsError], [FileNotFoundError], [PermissionError], ...). *)
Inductive exn : Type :=
| ValueError (msg : list piece)
| AssertionError (msg : string)
| IndexError (msg : string)
| KeyError (msg : string)
| TypeError (msg : string)
| OSError (msg : string).

Inductive result (A : Type) : Type :=
| Ok (a : A)
| Raise (e : exn).
Arguments Ok {A} a.
Arguments Raise {A} e.

Definition bind {A B : Type} (m : result A) (k : A -> result B) : result B :=
  match m with
  | Ok a => k a
  | Raise e => Raise e
  end.

Notation "x <- m ;; k" := (bind m (fun x => k))
  (at level 61, m at next level, right associativity).
Notation "m ;;; k" := (bind m (fun _ => k))
  (at level 61, right associativity).

Definition Qlt_bool (x y : Q) : bool := negb (Qle_bool y x).

(** ** numpy *)

Module Np.

(** [np.arange(start, stop, 1)] on integers. *)
Fixpoint arange_from (start : Z) (n : nat) : list Q :=
  match n with
  | O => []
  | S k => inject_Z start :: arange_from (start + 1) k
  end.

Definition arange (start stop : Z) : list Q :=
  arange_from start (Z.to_nat (stop - start)).

(** [a.min()] and [a.max()] of a non-empty array (0 stands for the error
    numpy raises on an empty one; no caller passes one). *)
Definition amin (a : list Q) : Q :=
  match a with
  | [] => 0
  | h :: t => fold_left Qmin t h
  end.

Definition amax (a : list Q) : Q :=
  match a with
  | [] => 0
  | h :: t => fold_left Qmax t h
  end.

(** [np.linspace(lo, hi, num)]: [lo + i * (hi - lo) / (num - 1)]. *)
Definition linspace (lo hi : Q) (num : nat) : list Q :=
  map (fun i : nat => lo + inject_Z (Z.of_nat i) * ((hi - lo) / inject_Z (Z.of_nat num - 1)))
      (seq 0 num).

(** [np.interp(x, xp, fp, left, right)] at one point: piecewise-linear
    interpolation through the points [(xp[i], fp[i])], [left] below the
    first abscissa and [right] above the last. *)
Fixpoint interp_from (x0 y0 : Q) (xp fp : list Q) (right x : Q) : Q :=
  match xp, fp with
  | x1 :: xp', y1 :: fp' =>
      if Qlt_bool x x1
      then (y1 - y0) / (x1 - x0) * (x - x0) + y0
      else interp_from x1 y1 xp' fp' right x
  | _, _ => if Qeq_bool x x0 then y0 else right
  end.

Definition interp (x : Q) (xp fp : list Q) (left right : Q) : Q :=
  match xp, fp with
  | x0 :: xp', y0 :: fp' =>
      if Qlt_bool x x0 then left else interp_from x0 y0 xp' fp' right x
  | _, _ => left
  end.

(** [np.unique]: sorted, without duplicates. *)
Fixpoint insert_unique (v : Q) (l : list Q) : list Q :=
  match l with
  | [] => [v]
  | h :: t =>
      match v ?= h with
      | Lt => v :: l
      | Eq => l
      | Gt => h :: insert_unique v t
      end
  end.

Definition unique (a : list Q) : list Q := fold_right insert_unique [] a.

(** [np.union1d(a, b) = np.unique(np.concatenate((a, b)))]. *)
Definition union1d (a b : list Q) : list Q := unique (a ++ b).

(** [a.sum()], the running sum kept in lowest terms. *)
Definition sum (a : list Q) : Q := fold_left (fun s v => Qred (s + v)) a 0.

(** [np.fmax], [np.fmin], [np.minimum], [np.maximum] on scalars are
    [Qmax] and [Qmin]; on arrays they act pointwise. *)
Definition minimum_scalar (c : Q) (a : list Q) : list Q := map (Qmin c) a.

Fixpoint maximum (a b : list Q) : list Q :=
  match a, b with
  | x :: a', y :: b' => Qmax x y :: maximum a' b'
  | _, _ => []
  end.

Definition zeros_like (a : list Q) : list Q := map (fun _ => 0) a.

(** [np.finfo(float).eps] = 2^-52. *)
Definition eps : Q := 1 # (2 ^ 52).

End Np.

(** ** scikit-fuzzy numeric routines *)

Module Fuzz.

(** [skfuzzy.membership.trimf(x, abc)] at one abscissa: the array starts at
    zero, the left slope is written where [a < x < b] (when [a != b]), the
    right slope where [b < x < c] (when [b != c]), and 1 where [x == b]. *)
Definition trimf_at (a b c x : Q) : Q :=
  let y0 := 0 in
  let y1 :=
    if negb (Qeq_bool a b) && (Qlt_bool a x && Qlt_bool x b)
    then (x - a) / (b - a) else y0 in
  let y2 :=
    if negb (Qeq_bool b c) && (Qlt_bool b x && Qlt_bool x c)
    then (c - x) / (c - b) else y1 in
  if Qeq_bool x b then 1 else y2.

(** The assertion [a <= b and b <= c] at the head of [trimf]. *)
Definition abc_ok (abc : Q * Q * Q) : bool :=
  let '(a, b, c) := abc in Qle_bool a b && Qle_bool b c.

Definition trimf (x : list Q) (abc : Q * Q * Q) : list Q :=
  let '(a, b, c) := abc in map (trimf_at a b c) x.

(** [skfuzzy.interp_membership(x, xmf, xx)] with [zero_outside_x=True]. *)
Definition interp_membership (x xmf : list Q) (xx : Q) : Q :=
  Np.interp xx x xmf 0 0.

(** [skfuzzy.interp_universe(x, xmf, y)] (the control layer calls its
    twin [_interp_universe_fast]): the abscissas at which the sampled curve
    crosses level [y]; a crossing lies between two consecutive samples on
    which the test [xmf >= y] ([xmf > y] when [y == 0]) differs, at
    [x[i] + (y - xmf[i]) * (x[i+1] - x[i]) / (xmf[i+1] - xmf[i])]. *)
Definition above (y m : Q) : bool :=
  if Qeq_bool y 0 then Qlt_bool y m else Qle_bool y m.

Fixpoint interp_universe_from (x0 m0 : Q) (x xmf : list Q) (y : Q) : list Q :=
  match x, xmf with
  | x1 :: x', m1 :: xmf' =>
      let rest := interp_universe_from x1 m1 x' xmf' y in
      if xorb (above y m0) (above y m1)
      then (x0 + (y - m0) * (x1 - x0) / (m1 - m0)) :: rest
      else rest
  | _, _ => []
  end.

Definition interp_universe (x xmf : list Q) (y : Q) : list Q :=
  match x, xmf with
  | x0 :: x', m0 :: xmf' => Np.unique (interp_universe_from x0 m0 x' xmf' y)
  | _, _ => []
  end.

(** One iteration of the loop of [skfuzzy.defuzzify.centroid]: the
    first moment and the area of the trapezoid between two consecutive
    samples. *)
Definition segment (x1 y1 x2 y2 : Q) : option (Q * Q) :=
  if (Qeq_bool y1 0 && Qeq_bool y2 0) || Qeq_bool x1 x2 then None
  else if Qeq_bool y1 y2 then
    Some ((1 # 2) * (x1 + x2), (x2 - x1) * y1)
  else if Qeq_bool y1 0 && negb (Qeq_bool y2 0) then
    Some ((2 # 3) * (x2 - x1) + x1, (1 # 2) * (x2 - x1) * y2)
  else if Qeq_bool y2 0 && negb (Qeq_bool y1 0) then
    Some ((1 # 3) * (x2 - x1) + x1, (1 # 2) * (x2 - x1) * y1)
  else
    Some (((2 # 3) * (x2 - x1) * (y2 + (1 # 2) * y1)) / (y1 + y2) + x1,
          (1 # 2) * (x2 - x1) * (y1 + y2)).

(** The loop itself: the running pair [(sum_moment_area, sum_area)], kept
    in lowest terms. *)
Fixpoint centroid_loop (x1 y1 : Q) (x mfx : list Q) (acc : Q * Q) : Q * Q :=
  match x, mfx with
  | x2 :: x', y2 :: mfx' =>
      let acc' :=
        match segment x1 y1 x2 y2 with
        | Some (moment, area) =>
            (Qred (fst acc + moment * area), Qred (snd acc + area))
        | None => acc
        end in
      centroid_loop x2 y2 x' mfx' acc'
  | _, _ => acc
  end.

(** [skfuzzy.defuzzify.centroid(x, mfx)]. *)
Definition centroid (x mfx : list Q) : Q :=
  match x, mfx with
  | [x0], y0 :: _ => x0 * y0 / Qmax y0 Np.eps
  | x0 :: x', y0 :: mfx' =>
      let '(sum_moment_area, sum_area) := centroid_loop x0 y0 x' mfx' (0, 0) in
      sum_moment_area / Qmax sum_area Np.eps
  | _, _ => 0
  end.

(** [skfuzzy.defuzz(x, mfx, 'centroid')]: both assertions, then the
    centroid. *)
Definition defuzz (x mfx : list Q) : result Q :=
  if negb (Nat.eqb (List.length x) (List.length mfx)) then
    Raise (AssertionError "Length of x and fuzzy membership function must be identical.")
  else if Qeq_bool (Np.sum mfx) 0 then
    Raise (AssertionError "Total area is zero in defuzzification!")
  else Ok (centroid x mfx).

End Fuzz.

(** ** scikit-fuzzy control layer *)

Module Ctrl.

(** *** Association lists (Python's [OrderedDict]) *)

Section Assoc.
Context {K V : Type} (eqb : K -> K -> bool).

Fixpoint get (k : K) (d : list (K * V)) : option V :=
  match d with
  | [] => None
  | (k', v) :: d' => if eqb k k' then Some v else get k d'
  end.

(** [d[k] = v]: replaces in place, or appends a new key. *)
Fixpoint set (k : K) (v : V) (d : list (K * V)) : list (K * V) :=
  match d with
  | [] => [(k, v)]
  | (k', v') :: d' =>
      if eqb k k' then (k, v) :: d' else (k', v') :: set k v d'
  end.
End Assoc.

(** *** Fuzzy variables and terms *)

(** [Antecedent] and [Consequent] share the fields of [FuzzyVariable];
    [terms] maps a term label to the sampled membership array [Term.mf]. *)
Record FuzzyVariable : Type := mkVar {
  label : string;
  universe : list Q;
  terms : list (string * list Q)
}.

Definition Antecedent (universe : list Q) (label : string) : FuzzyVariable :=
  mkVar label universe [].

(** A [Consequent] defuzzifies by centroid and accumulates with [np.fmax]
    (the defaults, which the controller keeps). *)
Definition Consequent (universe : list Q) (label : string) : FuzzyVariable :=
  mkVar label universe [].

(** [var[name] = mf]. *)
Definition setitem (var : FuzzyVariable) (name : string) (mf : list Q) : FuzzyVariable :=
  mkVar (label var) (universe var) (set String.eqb name mf (terms var)).

(** [FuzzyVariable.automf(names=names)]: [number = len(names)] triangles of
    equal width centred on [np.linspace(lo, hi, number)]; the previous terms
    are cleared. *)
Definition automf_abcs (universe : list Q) (number : nat) : list (Q * Q * Q) :=
  let limits := (Np.amin universe, Np.amax universe) in
  let universe_range := snd limits - fst limits in
  let widths := repeat (universe_range / ((inject_Z (Z.of_nat number) - 1) / 2)) number in
  let centers := Np.linspace (fst limits) (snd limits) number in
  map (fun cw : Q * Q => let (c, w) := cw in (c - w / 2, c, c + w / 2))
      (combine centers widths).

Definition automf (var : FuzzyVariable) (names : list string) : FuzzyVariable :=
  let number := List.length names in
  let abcs := automf_abcs (universe var) number in
  fold_left
    (fun v (na : string * (Q * Q * Q)) =>
       setitem v (fst na) (Fuzz.trimf (universe var) (snd na)))
    (combine names abcs)
    (mkVar (label var) (universe var) []).

(** A [Term] object is identified by its parent variable and its label. *)
Definition Term : Type := (string * string)%type.

Definition Term_eqb (s t : Term) : bool :=
  String.eqb (fst s) (fst t) && String.eqb (snd s) (snd t).

(** [var[name]]: the [Term], or a [ValueError] for an unknown label. *)
Definition getitem (var : FuzzyVariable) (name : string) : result Term :=
  match get String.eqb name (terms var) with
  | Some _ => Ok (label var, name)
  | None => Raise (ValueError [Lit "Membership function does not exist for this variable."])
  end.

(** Antecedent expressions: [a | b], [a & b] and [~a] build
    [TermAggregate] nodes of kind 'or', 'and' and 'not'. *)
Inductive TermPrimitive : Type :=
| TermRef (t : Term)
| TermOr (a b : TermPrimitive)
| TermAnd (a b : TermPrimitive)
| TermNot (a : TermPrimitive).

(** [Rule(antecedent, consequent)]: the consequent is wrapped in a
    [WeightedTerm] of weight 1; [and_func = np.fmin], [or_func = np.fmax]. *)
Record Rule : Type := mkRule {
  antecedent : TermPrimitive;
  consequent : Term;
  weight : Q
}.

Definition mk_rule (a : TermPrimitive) (c : Term) : Rule := mkRule a c 1.

(** *** One inference run *)

(** [Term.membership_value[sim]] of every term; absent means [None]. *)
Definition store : Type := list (Term * Q).

(** [CrispValueCalculator(antecedent, sim).fuzz(value)]. *)
Definition fuzz (var : FuzzyVariable) (value : Q) (mv : store) : result store :=
  match terms var with
  | [] => Raise (ValueError [Lit "Set Term membership function(s) first"])
  | ts =>
      Ok (fold_left
            (fun (m : store) (t : string * list Q) =>
               set Term_eqb (label var, fst t)
                   (Fuzz.interp_membership (universe var) (snd t) value) m)
            ts mv)
  end.

(** [antecedent.membership_value[sim]]: terms are read from the store,
    aggregates combine their operands. *)
Fixpoint membership_value (mv : store) (a : TermPrimitive) : result Q :=
  match a with
  | TermRef t =>
      match get Term_eqb t mv with
      | Some v => Ok v
      | None => Raise (TypeError "membership value is None")
      end
  | TermOr a b =>
      x <- membership_value mv a ;; y <- membership_value mv b ;; Ok (Qmax x y)
  | TermAnd a b =>
      x <- membership_value mv a ;; y <- membership_value mv b ;; Ok (Qmin x y)
  | TermNot a =>
      x <- membership_value mv a ;; Ok (1 - x)
  end.

(** [ControlSystemSimulation.compute_rule(rule)]: aggregation of the
    antecedent, activation of the consequent, accumulation into the
    consequent term's membership value. *)
Definition aggregate_firing (mv : store) (r : Rule) : result Q :=
  membership_value mv (antecedent r).

Definition compute_rule (r : Rule) (mv : store) : result store :=
  firing <- aggregate_firing mv r ;;
  let activation := firing * weight r in
  match get Term_eqb (consequent r) mv with
  | None => Ok (set Term_eqb (consequent r) activation mv)
  | Some old => Ok (set Term_eqb (consequent r) (Qmax activation old) mv)
  end.

Fixpoint compute_rules (rs : list Rule) (mv : store) : result store :=
  match rs with
  | [] => Ok mv
  | r :: rs' => mv' <- compute_rule r mv ;; compute_rules rs' mv'
  end.

(** [CrispValueCalculator(consequent, sim).find_memberships()]: the
    universe is upsampled with the abscissas where each term reaches its
    cut; every term is clipped at its cut and the clipped curves are
    combined by pointwise maximum. *)
Definition cut_of (var : FuzzyVariable) (mv : store) (name : string) : option Q :=
  get Term_eqb (label var, name) mv.

Definition new_values (var : FuzzyVariable) (mv : store) : list Q :=
  flat_map
    (fun t : string * list Q =>
       match cut_of var mv (fst t) with
       | None => []
       | Some cut => Fuzz.interp_universe (universe var) (snd t) cut
       end)
    (terms var).

Definition new_universe (var : FuzzyVariable) (mv : store) : list Q :=
  Np.union1d (universe var) (new_values var mv).

Definition term_mfs (var : FuzzyVariable) (mv : store) (xs : list Q)
  : list (string * list Q) :=
  flat_map
    (fun t : string * list Q =>
       match cut_of var mv (fst t) with
       | None => []
       | Some cut =>
           let upsampled_mf := map (Fuzz.interp_membership (universe var) (snd t)) xs in
           [(fst t, Np.minimum_scalar cut upsampled_mf)]
       end)
    (terms var).

Definition output_mf (xs : list Q) (cut_mfs : list (string * list Q)) : list Q :=
  fold_left (fun out (t : string * list Q) => Np.maximum out (snd t))
            cut_mfs (Np.zeros_like xs).

Definition find_memberships (var : FuzzyVariable) (mv : store)
  : list Q * list Q * list (string * list Q) :=
  let xs := new_universe var mv in
  let cut_mfs := term_mfs var mv xs in
  (xs, output_mf xs cut_mfs, cut_mfs).

(** [CrispValueCalculator(consequent, sim).defuzz()]: the assertion
    failure of an all-zero curve is re-raised as a [ValueError]. *)
Definition crisp_defuzz (var : FuzzyVariable) (mv : store) : result Q :=
  let '(ups_universe, out, cut_mfs) := find_memberships var mv in
  match cut_mfs with
  | [] => Raise (ValueError [Lit "No terms have memberships."])
  | _ =>
      match Fuzz.defuzz ups_universe out with
      | Ok v => Ok v
      | Raise (AssertionError _) =>
          Raise (ValueError [Lit "Crisp output cannot be calculated, likely because the system is too sparse."])
      | Raise e => Raise e
      end
  end.

(** *** The simulation session *)

Record ControlSystem : Type := mkSystem {
  antecedents : list FuzzyVariable;
  consequents : list FuzzyVariable;
  rules : list Rule
}.

(** The session's unique id is computed from the current input
    assignment (a hash of it, taken here as the assignment itself).  All the
    per-simulation data of terms, rules and variables is stored under that
    id, so a run on inputs not seen since the last flush starts from an empty
    term store, and the outputs of earlier runs are kept under their ids. *)
Definition unique_id : Type := list (string * Q).

Definition Q_eqb (x y : Q) : bool :=
  Z.eqb (Qnum x) (Qnum y) && Pos.eqb (Qden x) (Qden y).

Fixpoint id_eqb (a b : unique_id) : bool :=
  match a, b with
  | [], [] => true
  | (k, v) :: a', (k', v') :: b' => String.eqb k k' && Q_eqb v v' && id_eqb a' b'
  | _, _ => false
  end.

Record ControlSystemSimulation : Type := mkSim {
  ctrl : ControlSystem;
  input : list (string * Q);
  output : list (string * Q);
  clip_to_bounds : bool;
  cache : bool;
  calculated : list unique_id;
  consequent_output : list (unique_id * list (string * Q));
  run : nat;
  flush_after_run : nat
}.

Definition ControlSystemSimulation_init (system : ControlSystem) : ControlSystemSimulation :=
  mkSim system [] [] true true [] [] 0 1000.

Definition with_input (sim : ControlSystemSimulation) (i : list (string * Q)) :=
  mkSim (ctrl sim) i (output sim) (clip_to_bounds sim) (cache sim)
        (calculated sim) (consequent_output sim) (run sim) (flush_after_run sim).

(** [sim.input[key] = value]: the value is clipped to the universe, or
    refused when [clip_to_bounds] is off. *)
Definition input_setitem (sim : ControlSystemSimulation) (key : string) (value : Q)
  : result ControlSystemSimulation :=
  match filter (fun v => String.eqb (label v) key) (antecedents (ctrl sim)) with
  | [] => Raise (ValueError [Lit "Unexpected input"])
  | var :: _ =>
      v1 <- (if Qlt_bool (Np.amax (universe var)) value
             then if clip_to_bounds sim
                  then Ok (Qmin (Np.amax (universe var)) value)
                  else Raise (IndexError "Input value out of bounds.")
             else Ok value) ;;
      v2 <- (if Qlt_bool value (Np.amin (universe var))
             then if clip_to_bounds sim
                  then Ok (Qmax (Np.amin (universe var)) v1)
                  else Raise (IndexError "Input value is out of bounds.")
             else Ok v1) ;;
      Ok (with_input sim (set String.eqb key v2 (input sim)))
  end.

(** Fuzzification of every antecedent; an antecedent without an input
    value is an error. *)
Fixpoint fuzz_all (vars : list FuzzyVariable) (i : list (string * Q)) (mv : store)
  : result store :=
  match vars with
  | [] => Ok mv
  | var :: vars' =>
      match get String.eqb (label var) i with
      | None => Raise (ValueError [Lit "All antecedents must have input values!"])
      | Some value => mv' <- fuzz var value mv ;; fuzz_all vars' i mv'
      end
  end.

Fixpoint defuzz_all (vars : list FuzzyVariable) (mv : store) : result (list (string * Q)) :=
  match vars with
  | [] => Ok []
  | var :: vars' =>
      v <- crisp_defuzz var mv ;;
      rest <- defuzz_all vars' mv ;;
      Ok ((label var, v) :: rest)
  end.

(** The inference proper: the outputs as a function of the inputs. *)
Definition infer (system : ControlSystem) (i : list (string * Q))
  : result (list (string * Q)) :=
  mv <- fuzz_all (antecedents system) i [] ;;
  mv' <- compute_rules (rules system) mv ;;
  defuzz_all (consequents system) mv'.

(** [_reset_simulation()]: the data stored from prior runs is cleared,
    the current inputs of the antecedents included; the published outputs
    stay. *)
Definition reset_simulation (sim : ControlSystemSimulation) : ControlSystemSimulation :=
  mkSim (ctrl sim) [] (output sim) (clip_to_bounds sim) (cache sim)
        [] [] 0 (flush_after_run sim).

Definition merge_output (new old : list (string * Q)) : list (string * Q) :=
  fold_left (fun o (kv : string * Q) => set String.eqb (fst kv) (snd kv) o) new old.

Definition with_output (sim : ControlSystemSimulation) (o : list (string * Q)) :=
  mkSim (ctrl sim) (input sim) o (clip_to_bounds sim) (cache sim)
        (calculated sim) (consequent_output sim) (run sim) (flush_after_run sim).

(** The bookkeeping after a fresh run: the outputs are published and
    stored under the unique id, the run is noted (or, without cache, the
    stored data is dropped at once), the run counter advances, and the
    stored data is flushed every [flush_after_run] runs. *)
Definition record_run (sim : ControlSystemSimulation) (out : list (string * Q))
  : ControlSystemSimulation :=
  let uid : unique_id := input sim in
  let sim1 :=
    mkSim (ctrl sim) (input sim) (merge_output out (output sim))
          (clip_to_bounds sim) (cache sim)
          (if cache sim then calculated sim ++ [uid] else calculated sim)
          (set id_eqb uid out (consequent_output sim))
          (run sim) (flush_after_run sim) in
  let sim2 := if cache sim then sim1 else reset_simulation sim1 in
  let sim3 :=
    mkSim (ctrl sim2) (input sim2) (output sim2) (clip_to_bounds sim2)
          (cache sim2) (calculated sim2) (consequent_output sim2)
          (S (run sim2)) (flush_after_run sim2) in
  if Nat.eqb (Nat.modulo (run sim3) (flush_after_run sim3)) 0
  then reset_simulation sim3 else sim3.

(** [ControlSystemSimulation.compute()]: a run already made under the
    same unique id is served from the stored outputs; otherwise the
    inference runs and is recorded.  A failing run leaves the session as it
    was. *)
Definition compute (sim : ControlSystemSimulation) : result unit * ControlSystemSimulation :=
  let uid : unique_id := input sim in
  if cache sim && existsb (id_eqb uid) (calculated sim) then
    match get id_eqb uid (consequent_output sim) with
    | Some out => (Ok tt, with_output sim (merge_output out (output sim)))
    | None => (Raise (TypeError "no stored output"), sim)
    end
  else
    match infer (ctrl sim) (input sim) with
    | Raise e => (Raise e, sim)
    | Ok out => (Ok tt, record_run sim out)
    end.

(** [sim.output[key]]. *)
Definition output_getitem (sim : ControlSystemSimulation) (key : string) : result Q :=
  match get String.eqb key (output sim) with
  | Some v => Ok v
  | None => Raise (KeyError key)
  end.

End Ctrl.

(** ** [Codes/Utils/helpers.py] *)

Module Helpers.

(** The message [f"{name} must be between 0 and 100. Got {value}."]. *)
Definition range_message (name : string) (value : piece) : list piece :=
  [Lit name; Lit " must be between 0 and 100. Got "; value; Lit "."].

(** [validate_input_range(value, name)]. *)
Definition validate_input_range (value : Q) (name : string) : result unit :=
  if negb (Qle_bool 0 value && Qle_bool value 100)
  then Raise (ValueError (range_message name (Num value)))
  else Ok tt.

End Helpers.

(** ** [Controller_Model/fuzzy_traffic_controller.py] *)

Module Traffic.
Import Ctrl.

(** *** [_setup_fuzzy_system] *)

Definition waiting_cars : FuzzyVariable :=
  automf (Antecedent (Np.arange 0 101) "waiting_cars")
         ["minimal"; "light"; "average"; "heavy"; "standstill"]%string.

Definition incoming_cars : FuzzyVariable :=
  automf (Antecedent (Np.arange 0 101) "incoming_cars")
         ["minimal"; "light"; "average"; "heavy"; "excess"]%string.

Definition short_abc : Q * Q * Q := (0, 50, 75).
Definition medium_abc : Q * Q * Q := (50, 87, 125).
Definition long_abc : Q * Q * Q := (100, 150, 160).

Definition wait_time : FuzzyVariable :=
  let wt := Consequent (Np.arange 0 161) "wait_time" in
  let wt := setitem wt "short" (Fuzz.trimf (universe wt) short_abc) in
  let wt := setitem wt "medium" (Fuzz.trimf (universe wt) medium_abc) in
  setitem wt "long" (Fuzz.trimf (universe wt) long_abc).

(** The rule list, one line per [ctrl.Rule] of the source: the
    [waiting_cars] term, the [incoming_cars] term it is OR-ed with, and the
    [wait_time] term of the consequent. *)
Definition rule_table : list (string * string * string) :=
  [ ("minimal", "minimal", "short");
    ("minimal", "light", "short");
    ("minimal", "average", "medium");
    ("minimal", "heavy", "long");
    ("minimal", "excess", "long");

    ("light", "minimal", "short");
    ("light", "light", "short");
    ("light", "average", "medium");
    ("light", "heavy", "medium");
    ("light", "excess", "long");

    ("average", "minimal", "short");
    ("average", "light", "medium");
    ("average", "average", "medium");
    ("average", "heavy", "long");
    ("average", "excess", "long");

    ("heavy", "minimal", "medium");
    ("heavy", "light", "medium");
    ("heavy", "average", "long");
    ("heavy", "heavy", "long");
    ("heavy", "excess", "long");

    ("standstill", "minimal", "medium");
    ("standstill", "light", "long");
    ("standstill", "average", "long");
    ("standstill", "heavy", "long");
    ("standstill", "excess", "long") ]%string.

(** [ctrl.Rule(self.waiting_cars[w] | self.incoming_cars[i], self.wait_time[o])]. *)
Definition make_rule (wio : string * string * string) : result Rule :=
  let '(w, i, o) := wio in
  tw <- getitem waiting_cars w ;;
  ti <- getitem incoming_cars i ;;
  tout <- getitem wait_time o ;;
  Ok (mk_rule (TermOr (TermRef tw) (TermRef ti)) tout).

Fixpoint make_rules (t : list (string * string * string)) : result (list Rule) :=
  match t with
  | [] => Ok []
  | wio :: t' => r <- make_rule wio ;; rs <- make_rules t' ;; Ok (r :: rs)
  end.

(** The rules once every term lookup has succeeded. *)
Definition rules : list Rule :=
  map (fun wio : string * string * string =>
         let '(w, i, o) := wio in
         mk_rule (TermOr (TermRef ("waiting_cars", w)) (TermRef ("incoming_cars", i)))
                 ("wait_time", o))%string
      rule_table.

(** [ctrl.ControlSystem(rules)]: the variables the rules refer to. *)
Definition system : ControlSystem :=
  mkSystem [waiting_cars; incoming_cars] [wait_time] rules.

Record TrafficLightControl : Type := mkControl {
  simulation : ControlSystemSimulation
}.

(** [TrafficLightControl()]. *)
Definition setup_fuzzy_system : result TrafficLightControl :=
  rs <- make_rules rule_table ;;
  Ok (mkControl
        (ControlSystemSimulation_init
           (mkSystem [waiting_cars; incoming_cars] [wait_time] rs))).

Definition controller : TrafficLightControl :=
  mkControl (ControlSystemSimulation_init system).

(** *** [compute_wait_time] *)

(** What the plotting branch asks of the operating system. *)
Inductive os_call : Type :=
| Makedirs (path : string) (exist_ok : bool)
| Savefig (path : string).

(** The file system, as far as the method deals with it: the calls made so
    far (latest first), and what the system answers to a call after given
    earlier ones, [Ok tt] or the exception the call raises.  The answers are
    the system's own: whether a directory can be created or a file written
    (an existing file is replaced) is not decided by the program. *)
Record FileSystem : Type := mkFs {
  respond : list os_call -> os_call -> result unit;
  calls : list os_call
}.

Definition world : Type := (TrafficLightControl * FileSystem)%type.

(** Statements of the method run in a state-and-exception monad: an
    exception stops the method and keeps the state reached so far. *)
Definition M (A : Type) : Type := world -> result A * world.

Definition ret {A : Type} (a : A) : M A := fun w => (Ok a, w).

Definition mbind {A B : Type} (m : M A) (k : A -> M B) : M B :=
  fun w =>
    match m w with
    | (Ok a, w') => k a w'
    | (Raise e, w') => (Raise e, w')
    end.

(** A check that reads no state. *)
Definition pure_check {A : Type} (r : result A) : M A := fun w => (r, w).

Definition set_input (key : string) (value : Q) : M unit :=
  fun w =>
    match input_setitem (simulation (fst w)) key value with
    | Ok sim' => (Ok tt, (mkControl sim', snd w))
    | Raise e => (Raise e, w)
    end.

Definition run_compute : M unit :=
  fun w =>
    let (r, sim') := compute (simulation (fst w)) in
    (r, (mkControl sim', snd w)).

Definition read_output (key : string) : M Q :=
  fun w => (output_getitem (simulation (fst w)) key, w).

(** A call to the operating system: it is recorded, and returns or raises
    as the system answers. *)
Definition system_call (c : os_call) : M unit :=
  fun w =>
    (respond (snd w) (calls (snd w)) c,
     (fst w, mkFs (respond (snd w)) (c :: calls (snd w)))).

(** [os.makedirs(d, exist_ok=True)] and [plt.savefig(path)] of the figure
    that [view] has drawn. *)
Definition makedirs (d : string) : M unit := system_call (Makedirs d true).

Definition savefig (path : string) : M unit := system_call (Savefig path).

(** [os.path.join(a, b)] (POSIX): [b] alone when it is absolute, otherwise
    [a], a separator unless [a] is empty or ends with one, and [b]. *)
Definition starts_with_slash (s : string) : bool :=
  match s with
  | String c _ => Ascii.eqb c "/"%char
  | EmptyString => false
  end.

Fixpoint ends_with_slash (s : string) : bool :=
  match s with
  | EmptyString => false
  | String c EmptyString => Ascii.eqb c "/"%char
  | String _ s' => ends_with_slash s'
  end.

Definition path_join (a b : string) : string :=
  if starts_with_slash b then b
  else if String.eqb a "" || ends_with_slash a then (a ++ b)%string
       else (a ++ "/" ++ b)%string.

Definition compute_wait_time (incoming waiting : Q)
           (plot_output : bool) (filename_prefix : string) : M Q :=
  mbind (pure_check (Helpers.validate_input_range incoming "Incoming Cars")) (fun _ =>
  mbind (pure_check (Helpers.validate_input_range waiting "Waiting Cars")) (fun _ =>
  mbind (set_input "waiting_cars" waiting) (fun _ =>
  mbind (set_input "incoming_cars" incoming) (fun _ =>
  mbind run_compute (fun _ =>
  mbind (if plot_output
         then
           let output_dir := "Results"%string in
           mbind (makedirs output_dir) (fun _ =>
           let plot_path := path_join output_dir (filename_prefix ++ "_wait_time.png") in
           savefig plot_path)
         else ret tt) (fun _ =>
  read_output "wait_time")))))).

(** The method with its default arguments [plot_output=False],
    [filename_prefix="output"]. *)
Definition compute_wait_time_default (incoming waiting : Q) : M Q :=
  compute_wait_time incoming waiting false "output".

(** A file system that accepts every call, before any call. *)
Definition accepting_fs : FileSystem := mkFs (fun _ _ => Ok tt) [].

(** A file system without a directory for the figure: [Results] can be
    created, saving is answered [FileNotFoundError] (what an empty working
    directory answers for the prefix 'a/b', which asks for [Results/a]). *)
Definition no_directory_fs : FileSystem :=
  mkFs (fun _ c => match c with
                   | Makedirs _ _ => Ok tt
                   | Savefig _ => Raise (OSError "No such file or directory")
                   end) [].

(** The wait time a fresh controller returns, when it returns one. *)
Definition wait_time_of (incoming waiting : Q) : result Q :=
  fst (compute_wait_time_default incoming waiting (controller, accepting_fs)).

End Traffic.

(** ** [main] *)

Module Program.
Import Ctrl Traffic.

(** What [float(...)] returns.  The floats that are no rational (nan, inf,
    -inf) are kept apart: [float] accepts their spellings, and the range
    check of [validate_input_range] rejects every one of them (a comparison
    with nan is false, and so are [inf <= 100] and [0 <= -inf]). *)
Inductive pyfloat : Type :=
| Finite (q : Q)
| Nan
| PosInf
| NegInf.

(** [str(x)] of a float that is not finite. *)
Definition not_finite_text (x : pyfloat) : string :=
  match x with
  | PosInf => "inf"
  | NegInf => "-inf"
  | _ => "nan"
  end.

(** The lines [main] prints.  A line formatted from numbers is kept as the
    numbers it is formatted from. *)
Inductive line : Type :=
| Text (s : string)
| ComputedWaitTime (result : Q)
| TestCase (n : nat) (incoming waiting result : Q).

(** A console program: it returns, prints a line and goes on, or shows a
    prompt and goes on with the line it reads. *)
Inductive console (A : Type) : Type :=
| Return (a : A)
| Print (l : line) (k : console A)
| Input (prompt : string) (k : string -> console A).
Arguments Return {A} a.
Arguments Print {A} l k.
Arguments Input {A} prompt k.

(** How a run of [main] ends: normally or with the exception that left it,
    and the file system it leaves. *)
Definition outcome : Type := (result unit * FileSystem)%type.

(** A method call inside [main]: an exception it raises is not caught. *)
Definition call {A : Type} (m : M A) (w : world)
           (k : A -> world -> console outcome) : console outcome :=
  match m w with
  | (Ok a, w') => k a w'
  | (Raise e, w') => Return (Raise e, snd w')
  end.

Definition raise {A : Type} (e : exn) : M A := fun w => (Raise e, w).

(** [compute_wait_time] on what [float] returns: a value that is not
    finite fails the range check it reaches. *)
Definition compute_wait_time_float (incoming waiting : pyfloat)
           (plot_output : bool) (filename_prefix : string) : M Q :=
  match incoming, waiting with
  | Finite i, Finite w => compute_wait_time i w plot_output filename_prefix
  | Finite i, _ =>
      mbind (pure_check (Helpers.validate_input_range i "Incoming Cars")) (fun _ =>
      raise (ValueError (Helpers.range_message "Waiting Cars"
                           (Lit (not_finite_text waiting)))))
  | _, _ => raise (ValueError (Helpers.range_message "Incoming Cars"
                                 (Lit (not_finite_text incoming))))
  end.

(** The newline character of the Python literals. *)
Definition nl : string := String (Ascii.ascii_of_nat 10) EmptyString.

(** [str(n)] of a natural number. *)
Definition str (n : nat) : string := NilEmpty.string_of_uint (Nat.to_uint n).

Section Main.

(** [float] applied to a line read from the console, and the list
    [predefined_traffic_inputs] of [Codes/Dataset/traffic_dataset.py], a list
    of (incoming, waiting) pairs of numbers. *)
Variable float : string -> result pyfloat.
Variable predefined_traffic_inputs : list (Q * Q).

(** The loop [for i, (incoming, waiting) in enumerate(...)], from index
    [i] on. *)
Fixpoint test_cases (i : nat) (data : list (Q * Q)) (w : world) : console outcome :=
  match data with
  | [] => Return (Ok tt, snd w)
  | (incoming, waiting) :: data' =>
      call (compute_wait_time incoming waiting true ("case_" ++ str (S i))) w
           (fun result w' =>
              Print (TestCase (S i) incoming waiting result)
                    (test_cases (S i) data' w'))
  end.

(** [main()], started on the file system [fs]. *)
Definition main (fs : FileSystem) : console outcome :=
  match setup_fuzzy_system with
  | Raise e => Return (Raise e, fs)
  | Ok controller =>
      let w := (controller, fs) in
      Print (Text (nl ++ "Traffic Controller System Using Fuzzy Logic")) (
      Print (Text "1. Enter custom input") (
      Print (Text "2. Use predefined test data") (
      Input "Select an option (1/2): " (fun choice =>
      if String.eqb choice "1" then
        Input "Enter number of incoming cars (0-100): " (fun a =>
        match float a with
        | Raise e => Return (Raise e, fs)
        | Ok incoming =>
            Input "Enter number of waiting cars (0-100): " (fun b =>
            match float b with
            | Raise e => Return (Raise e, fs)
            | Ok waiting =>
                call (compute_wait_time_float incoming waiting true "custom_input") w
                     (fun result w' =>
                        Print (ComputedWaitTime result) (Return (Ok tt, snd w')))
            end)
        end)
      else if String.eqb choice "2" then
        Print (Text (nl ++ "Running predefined test cases:" ++ nl))
              (test_cases 0 predefined_traffic_inputs w)
      else
        Print (Text (nl ++ "Invalid choice. Please select 1 or 2."))
              (Return (Ok tt, fs))))))
  end.

End Main.

(** What shows on the console. *)
Inductive event : Type :=
| Out (l : line)
| Prompt (p : string)
| Read (answer : string).

(** A run on the lines [answers] typed at the console: the transcript and
    the outcome.  There is no outcome when the input ends where the program
    reads: Python's [input] raises [EOFError] there, after the prompt. *)
Fixpoint run {A : Type} (c : console A) (answers : list string)
  : list event * option A :=
  match c with
  | Return a => ([], Some a)
  | Print l k => let (t, r) := run k answers in (Out l :: t, r)
  | Input p k =>
      match answers with
      | [] => ([Prompt p], None)
      | a :: answers' =>
          let (t, r) := run (k a) answers' in (Prompt p :: Read a :: t, r)
      end
  end.

End Program.


(** * Specification vocabulary

    The notions the theorems are stated with: what a rule names, the degree
    of a term at a crisp value, the curve the rules aggregate, the centroid
    of a sampled curve, the states of a session. *)

Import Ctrl Traffic.

(** The (variable, term) pairs an antecedent expression names. *)
Fixpoint term_refs (a : TermPrimitive) : list Term :=
  match a with
  | TermRef t => [t]
  | TermOr a b | TermAnd a b => term_refs a ++ term_refs b
  | TermNot a => term_refs a
  end.

(** A rule covers the pair ([w], [i]) when its antecedent names both
    [waiting_cars[w]] and [incoming_cars[i]]. *)
Definition covers (w i : string) (r : Rule) : bool :=
  existsb (Term_eqb ("waiting_cars"%string, w)) (term_refs (antecedent r))
  && existsb (Term_eqb ("incoming_cars"%string, i)) (term_refs (antecedent r)).

(** An antecedent read as a condition on a pair of terms, with the
    connectives as the engine combines them: [waiting_cars[n]] holds of the
    pair when its waiting term is [n], [incoming_cars[n]] when its incoming
    term is [n], and [|], [&], [~] are or, and, not. *)
Fixpoint holds_at (w i : string) (a : TermPrimitive) : bool :=
  match a with
  | TermRef t =>
      (String.eqb (fst t) "waiting_cars" && String.eqb (snd t) w)
      || (String.eqb (fst t) "incoming_cars" && String.eqb (snd t) i)
  | TermOr a b => holds_at w i a || holds_at w i b
  | TermAnd a b => holds_at w i a && holds_at w i b
  | TermNot a => negb (holds_at w i a)
  end.

(** A rule covers the pair ([w], [i]) under the OR semantics when its
    antecedent holds of the pair. *)
Definition covers_or (w i : string) (r : Rule) : bool :=
  holds_at w i (antecedent r).

(** The rule [waiting_cars[w] | incoming_cars[i] -> wait_time[o]]. *)
Definition or_rule (w i o : string) : Rule :=
  mk_rule (TermOr (TermRef ("waiting_cars", w)) (TermRef ("incoming_cars", i)))
          ("wait_time", o)%string.

(** Pointwise sum of sample arrays. *)
Fixpoint ladd (a b : list Q) : list Q :=
  match a, b with
  | x :: a', y :: b' => (x + y) :: ladd a' b'
  | _, _ => []
  end.

(** The degree of membership of the crisp value [x] in term [name] of
    [var]: what fuzzification stores for that term. *)
Definition degree (var : FuzzyVariable) (name : string) (x : Q) : Q :=
  match get String.eqb name (terms var) with
  | Some mf => Fuzz.interp_membership (universe var) mf x
  | None => 0
  end.

Definition unit_samples (var : FuzzyVariable) : bool :=
  forallb (fun t : string * list Q =>
             forallb (fun y => Qle_bool 0 y && Qle_bool y 1) (snd t))
          (terms var).

(** The sum of the degrees of all terms of a variable. *)
Definition degrees_total (var : FuzzyVariable) (x : Q) : Q :=
  fold_right (fun (t : string * list Q) acc =>
                Fuzz.interp_membership (universe var) (snd t) x + acc)
             0 (terms var).

Definition lsum (n : nat) (ls : list (list Q)) : list Q :=
  fold_right ladd (repeat 0 n) ls.

(** The check that the sampled terms of a variable add up to 1 at every
    point of its universe. *)
Definition partition_of_unity (var : FuzzyVariable) : bool :=
  forallb (fun t : string * list Q =>
             Nat.eqb (List.length (snd t)) (List.length (universe var)))
          (terms var)
  && forallb (fun y => Qeq_bool y 1)
             (lsum (List.length (universe var)) (map snd (terms var))).

(** No segment of the grid [x0 :: xp] has [p] strictly inside. *)
Fixpoint no_straddle (p x0 : Q) (xp : list Q) : bool :=
  match xp with
  | [] => true
  | x1 :: xp' => negb (Qlt_bool x0 p && Qlt_bool p x1) && no_straddle p x1 xp'
  end.

(** Every sample whose abscissa lies in [a, b] equals [c]. *)
Fixpoint const_on (c a b : Q) (xs ys : list Q) : bool :=
  match xs, ys with
  | x :: xs', y :: ys' =>
      implb (Qle_bool a x && Qle_bool x b) (Qeq_bool y c) && const_on c a b xs' ys'
  | _, _ => true
  end.

(** The sampled array of a term, by name. *)
Definition mf_of (var : FuzzyVariable) (name : string) : list Q :=
  match get String.eqb name (terms var) with
  | Some mf => mf
  | None => []
  end.

(** Two terms whose samples add up to 1 on the grid points of [a, b]. *)
Definition complementary_on (var : FuzzyVariable) (n1 n2 : string) (a b : Q) : bool :=
  match universe var, ladd (mf_of var n1) (mf_of var n2) with
  | x0 :: xp, y0 :: fp =>
      Nat.eqb (List.length (mf_of var n1)) (List.length (universe var))
      && Nat.eqb (List.length (mf_of var n2)) (List.length (universe var))
      && no_straddle a x0 xp && no_straddle b x0 xp
      && const_on 1 a b (x0 :: xp) (y0 :: fp)
      && Qle_bool x0 a && Qle_bool b (List.last xp x0)
  | _, _ => false
  end.

(** The peaks [automf] places its triangles on. *)
Definition peaks (var : FuzzyVariable) : list Q :=
  Np.linspace (Np.amin (universe var)) (Np.amax (universe var))
              (List.length (terms var)).

Fixpoint consecutive {A : Type} (l : list A) : list (A * A) :=
  match l with
  | a :: (b :: _) as t => (a, b) :: consecutive t
  | _ => []
  end.

(** Each pair of consecutive terms, every term with its peak. *)
Definition consecutive_terms (var : FuzzyVariable)
  : list ((string * Q) * (string * Q)) :=
  consecutive (combine (map fst (terms var)) (peaks var)).

(** One step of the loop of [fuzz]: the degree of one term is stored. *)
Definition fuzz_step (var : FuzzyVariable) (value : Q)
           (m : store) (t : string * list Q) : store :=
  set Term_eqb (label var, fst t)
      (Fuzz.interp_membership (universe var) (snd t) value) m.

(** The degree an input term has at the current crisp inputs. *)
Definition input_degree (incoming waiting : Q) (t : Term) : Q :=
  if String.eqb (fst t) "waiting_cars" then degree waiting_cars (snd t) waiting
  else if String.eqb (fst t) "incoming_cars" then degree incoming_cars (snd t) incoming
  else 0.

(** The store after fuzzification of both inputs. *)
Definition fuzzified (incoming waiting : Q) (mv : store) : Prop :=
  (forall n, In n (map fst (terms waiting_cars)) ->
             get Term_eqb ("waiting_cars", n) mv = Some (degree waiting_cars n waiting)) /\
  (forall n, In n (map fst (terms incoming_cars)) ->
             get Term_eqb ("incoming_cars", n) mv = Some (degree incoming_cars n incoming)) /\
  (forall n, get Term_eqb ("wait_time", n) mv = None).

(** The maximum of the degrees of a list of (variable, term) pairs. *)
Definition max_degree (deg : Term -> Q) (ts : list Term) : Q :=
  match ts with
  | [] => 0
  | t :: ts' => fold_left Qmax (map deg ts') (deg t)
  end.

(** The firing strength of a rule at the current crisp inputs, as the
    OR-combination of the degrees its antecedent names. *)
Definition firing_strength (incoming waiting : Q) (r : Rule) : Q :=
  max_degree (input_degree incoming waiting) (term_refs (antecedent r)).

(** Rule [r] concludes on term [t]. *)
Definition targets (t : Term) (r : Rule) : bool := Term_eqb (consequent r) t.

(** No consequent term occurs in an antecedent. *)
Definition separated (rs : list Rule) : Prop :=
  forall r r', In r rs -> In r' rs ->
               ~ In (consequent r) (term_refs (antecedent r')).

(** With [F r] the firing strength of rule [r]: what the store holds for
    term [t] after the rules [rs] is bounded, from above, by exactly what
    bounds the old value and the activations of the rules targeting [t]. *)
Definition accumulates (F : Rule -> Q) (rs : list Rule) (mv mv' : store) (t : Term)
  : Prop :=
  if existsb (targets t) rs then
    exists v, get Term_eqb t mv' = Some v /\
              forall b, v <= b <->
                        (forall old, get Term_eqb t mv = Some old -> old <= b) /\
                        (forall r, In r rs -> consequent r = t -> F r * weight r <= b)
  else get Term_eqb t mv' = get Term_eqb t mv.

(** The aggregated degree at abscissa [x]: every term that has a cut is
    clipped at it, and the clipped degrees are combined by maximum. *)
Definition agg_step (var : FuzzyVariable) (mv : store) (x : Q)
           (acc : Q) (t : string * list Q) : Q :=
  match cut_of var mv (fst t) with
  | None => acc
  | Some cut => Qmax acc (Qmin cut (Fuzz.interp_membership (universe var) (snd t) x))
  end.

Definition aggregated (var : FuzzyVariable) (mv : store) (x : Q) : Q :=
  fold_left (agg_step var mv x) (terms var) 0.

(** The crisp value [crisp_defuzz] returns from a store. *)
Definition crisp_value (var : FuzzyVariable) (mv : store) : Q :=
  Fuzz.centroid (new_universe var mv)
                (map (aggregated var mv) (new_universe var mv)).

(** The crisp wait time as a function of the inputs alone. *)
Definition crisp (incoming waiting : Q) : result Q :=
  match infer system [("waiting_cars", waiting); ("incoming_cars", incoming)] with
  | Ok out =>
      match get String.eqb "wait_time" out with
      | Some v => Ok v
      | None => Raise (KeyError "wait_time")
      end
  | Raise e => Raise e
  end.

(** What every session of the controller satisfies: it runs the
    controller's system, clips, has either no input yet or both inputs, and
    every stored run holds the outputs the inference gives for its inputs. *)
Definition session_ok (sim : ControlSystemSimulation) : Prop :=
  ctrl sim = system /\
  clip_to_bounds sim = true /\
  (input sim = [] \/
   exists w i, input sim = [("waiting_cars", w); ("incoming_cars", i)]) /\
  forall uid, existsb (id_eqb uid) (calculated sim) = true ->
              exists out, get id_eqb uid (consequent_output sim) = Some out /\
                          infer system uid = Ok out.

(** The states an engine goes through: any sequence of calls, with any
    arguments, from a given state. *)
Inductive reachable_from (st0 : world) : world -> Prop :=
| reach_here : reachable_from st0 st0
| reach_call (st : world) (incoming waiting : Q) (plot_output : bool) (prefix : string) :
    reachable_from st0 st ->
    reachable_from st0 (snd (compute_wait_time incoming waiting plot_output prefix st)).

(** Area and first moment of the trapezoid under a straight segment. *)
Definition trapezoid_area (x1 y1 x2 y2 : Q) : Q :=
  (x2 - x1) * (y1 + y2) / 2.

Definition trapezoid_moment (x1 y1 x2 y2 : Q) : Q :=
  (x2 - x1) * (x1 * (2 * y1 + y2) + x2 * (y1 + 2 * y2)) / 6.

(** Area and first moment of the piecewise-linear curve through the
    points [(x1, y1), (xs[0], ys[0]), ...]. *)
Fixpoint total_area (x1 y1 : Q) (xs ys : list Q) : Q :=
  match xs, ys with
  | x2 :: xs', y2 :: ys' => trapezoid_area x1 y1 x2 y2 + total_area x2 y2 xs' ys'
  | _, _ => 0
  end.

Fixpoint total_moment (x1 y1 : Q) (xs ys : list Q) : Q :=
  match xs, ys with
  | x2 :: xs', y2 :: ys' => trapezoid_moment x1 y1 x2 y2 + total_moment x2 y2 xs' ys'
  | _, _ => 0
  end.

(** The centroid of that curve: first moment over area, the area guarded
    from below by the machine epsilon as in the library. *)
Definition exact_centroid (xs ys : list Q) : Q :=
  match xs, ys with
  | x0 :: xs', y0 :: ys' =>
      total_moment x0 y0 xs' ys' / Qmax (total_area x0 y0 xs' ys') Np.eps
  | _, _ => 0
  end.

Definition max_list (l : list Q) : Q :=
  match l with
  | [] => 0
  | h :: t => fold_left Qmax t h
  end.

(** The output term of rule [r], clipped at the rule's firing strength. *)
Definition rule_clipped (incoming waiting x : Q) (r : Rule) : Q :=
  Qmin (firing_strength incoming waiting r)
       (degree wait_time (snd (consequent r)) x).

(** The pointwise maximum, over the rules, of the clipped output terms. *)
Definition aggregated_by_rules (incoming waiting x : Q) : Q :=
  max_list (map (rule_clipped incoming waiting x) rules).

(** The level an output term is clipped at: the largest firing strength
    among the rules that conclude on it. *)
Definition term_cut (incoming waiting : Q) (name : string) : Q :=
  max_list (map (firing_strength incoming waiting)
                (filter (targets ("wait_time", name)) rules)).

(** The centroid as the claim computes it: sample-weighted mean over the
    sample points. *)
Fixpoint lmul (a b : list Q) : list Q :=
  match a, b with
  | x :: a', y :: b' => (x * y) :: lmul a' b'
  | _, _ => []
  end.

Definition sample_centroid (xs ds : list Q) : Q :=
  Np.sum (lmul xs ds) / Np.sum ds.

(** The peaks of the input terms. *)
Definition grid : list Q := [0; 25; 50; 75; 100].

(** On the peaks the wait time takes two values: the centroid of all
    three output terms, or of 'medium' and 'long' alone once 'short' is cut
    to zero (waiting at 'heavy' or above and incoming at 'average' or
    above). *)
Definition peak_output (iw : Q * Q) : Q :=
  if Qle_bool 50 (fst iw) && Qle_bool 75 (snd iw)
  then 1325043 # 12151
  else 2063176 # 24207.

(** Two stores hold the same cuts for the terms of [var], up to the
    representation of the rationals. *)
Definition same_cuts (var : FuzzyVariable) (mv1 mv2 : store) : Prop :=
  forall name, In name (map fst (terms var)) ->
               exists c1 c2, cut_of var mv1 name = Some c1 /\
                             cut_of var mv2 name = Some c2 /\ c1 == c2.

Import Program.

(** The range the validator accepts. *)
Definition in_range (x : Q) : bool := Qle_bool 0 x && Qle_bool x 100.

(** The entries of a data set up to the first one with a count out of
    range. *)
Fixpoint valid_prefix (data : list (Q * Q)) : list (Q * Q) :=
  match data with
  | [] => []
  | (incoming, waiting) :: data' =>
      if in_range incoming && in_range waiting
      then (incoming, waiting) :: valid_prefix data'
      else []
  end.

(** The lines of the test cases numbered from [i + 1] on. *)
Fixpoint test_case_lines (i : nat) (data : list (Q * Q)) (results : list Q)
  : list event :=
  match data, results with
  | (incoming, waiting) :: data', v :: results' =>
      Out (TestCase (S i) incoming waiting v) :: test_case_lines (S i) data' results'
  | _, _ => []
  end.


(** What [float] returned passes the range check. *)
Definition accepted (x : pyfloat) : bool :=
  match x with
  | Finite q => in_range q
  | _ => false
  end.

(** The path of the plot for a prefix, and the file system after the two
    calls of a plotting branch that went through. *)
Definition plot_path (prefix : string) : string :=
  path_join "Results" (prefix ++ "_wait_time.png").

Definition with_call (c : os_call) (fs : FileSystem) : FileSystem :=
  mkFs (respond fs) (c :: calls fs).

Definition with_plot (prefix : string) (fs : FileSystem) : FileSystem :=
  with_call (Savefig (plot_path prefix)) (with_call (Makedirs "Results" true) fs).

(** The plotting branch on the file system [fs]: how it ends, and the file
    system it leaves.  [Results] is asked for first; the figure is saved only
    if that went through. *)
Definition plot_outcome (prefix : string) (fs : FileSystem) : result unit * FileSystem :=
  match respond fs (calls fs) (Makedirs "Results" true) with
  | Raise e => (Raise e, with_call (Makedirs "Results" true) fs)
  | Ok _ => (respond fs (Makedirs "Results" true :: calls fs) (Savefig (plot_path prefix)),
             with_plot prefix fs)
  end.

(** What a call returns that has computed [v], after a plotting branch
    that ended as [r]: the value, or the exception of the branch. *)
Definition after_plot (v : Q) (r : result unit) : result Q :=
  match r with
  | Ok _ => Ok v
  | Raise e => Raise e
  end.

(** A call that computes the value [v] and leaves the session [sim]: what
    it returns, and the state it leaves. *)
Definition call_result (v : Q) (sim : ControlSystemSimulation)
           (plot_output : bool) (prefix : string) (fs : FileSystem) : result Q * world :=
  if plot_output
  then (after_plot v (fst (plot_outcome prefix fs)),
        (mkControl sim, snd (plot_outcome prefix fs)))
  else (Ok v, (mkControl sim, fs)).

(** The file system answers [Ok] to every call. *)
Definition accepts_all (fs : FileSystem) : Prop :=
  forall h c, respond fs h c = Ok tt.

Definition case_prefix (n : nat) : string := ("case_" ++ str n)%string.

(** The file system after the plots of the cases [i + 1 .. i + n]. *)
Fixpoint with_case_plots (i n : nat) (fs : FileSystem) : FileSystem :=
  match n with
  | O => fs
  | S n' => with_case_plots (S i) n' (with_plot (case_prefix (S i)) fs)
  end.

(** What [main] prints before it reads the choice. *)
Definition banner : list event :=
  [ Out (Text (nl ++ "Traffic Controller System Using Fuzzy Logic"));
    Out (Text "1. Enter custom input");
    Out (Text "2. Use predefined test data");
    Prompt "Select an option (1/2): " ].

(** ** The membership functions as formulas *)

(** The triangular membership function with feet [a] and [c] and peak
    [b] ([a < b < c]): 0 up to [a], rising to 1 at [b], falling to 0 at [c],
    0 from there on. *)
Definition triangle (a b c x : Q) : Q :=
  Qmax 0 (Qmin ((x - a) / (b - a)) ((c - x) / (c - b))).

(** The triangle of every term.  [automf] centres the five terms of an
    input on 0, 25, 50, 75 and 100, each with feet 25 to the left and to the
    right of its peak; the output terms are given by their three points. *)
Definition input_triangle (peak : Q) : Q * Q * Q := (peak - 25, peak, peak + 25).

Definition triangle_of (t : Term) : option (Q * Q * Q) :=
  let (var, name) := t in
  if String.eqb var "waiting_cars" then
    option_map input_triangle
      (get String.eqb name
           [("minimal", 0); ("light", 25); ("average", 50); ("heavy", 75);
            ("standstill", 100)])
  else if String.eqb var "incoming_cars" then
    option_map input_triangle
      (get String.eqb name
           [("minimal", 0); ("light", 25); ("average", 50); ("heavy", 75);
            ("excess", 100)])
  else if String.eqb var "wait_time" then
    get String.eqb name
        [("short", (0, 50, 75)); ("medium", (50, 87, 125)); ("long", (100, 150, 160))]
  else None.

(** The degree of membership of [x] in a term, by its formula. *)
Definition membership (t : Term) (x : Q) : Q :=
  match triangle_of t with
  | Some (a, b, c) => triangle a b c x
  | None => 0
  end.

(** The crisp input a term of an input variable is evaluated at. *)
Definition crisp_input (incoming waiting : Q) (t : Term) : Q :=
  if String.eqb (fst t) "waiting_cars" then waiting else incoming.

(** The strength of a rule by the formulas: the maximum of the memberships
    of the crisp inputs in the terms its antecedent names. *)
Definition or_strength (incoming waiting : Q) (r : Rule) : Q :=
  max_list (map (fun t => membership t (crisp_input incoming waiting t))
                (term_refs (antecedent r))).

(** The level an output term is clipped at, by the formulas: the largest
    strength among the rules that conclude on it. *)
Definition level (incoming waiting : Q) (name : string) : Q :=
  max_list (map (or_strength incoming waiting)
                (filter (targets ("wait_time", name)) rules)).

(** The aggregated output degree at [x], by the formulas: the maximum
    over the rules of the output triangle clipped at the rule's strength. *)
Definition clipped_curve (incoming waiting x : Q) : Q :=
  max_list (map (fun r => Qmin (or_strength incoming waiting r)
                               (membership (consequent r) x))
                rules).

(** The abscissas where the triangle [(a, b, c)] is at height [h]: one
    on the rising side, one on the falling side. *)
Definition rising_at (abc : Q * Q * Q) (h : Q) : Q :=
  let '(a, b, c) := abc in a + h * (b - a).

Definition falling_at (abc : Q * Q * Q) (h : Q) : Q :=
  let '(a, b, c) := abc in c - h * (c - b).

(** [f] is affine on every segment of the grid [x0 :: xs], which is
    increasing. *)
Fixpoint affine_on_grid (f : Q -> Q) (x0 : Q) (xs : list Q) : Prop :=
  match xs with
  | [] => True
  | x1 :: xs' =>
      x0 < x1 /\
      (forall x, x0 <= x <= x1 ->
                 f x == (f x1 - f x0) / (x1 - x0) * (x - x0) + f x0) /\
      affine_on_grid f x1 xs'
  end.

(** Two sample arrays agree entry by entry. *)
Fixpoint samples_match (l l' : list Q) : bool :=
  match l, l' with
  | [], [] => true
  | y :: t, y' :: t' => Qeq_bool y y' && samples_match t t'
  | _, _ => false
  end.

(** The check that term [name] of [var] is sampled from the triangle
    [(a, b, c)], whose three points do not fall inside a segment of the
    universe. *)
Definition triangle_term (var : FuzzyVariable) (name : string) (abc : Q * Q * Q) : bool :=
  let '(a, b, c) := abc in
  Qlt_bool a b && Qlt_bool b c
  && match universe var with
     | x0 :: xs => no_straddle a x0 xs && no_straddle b x0 xs && no_straddle c x0 xs
     | [] => false
     end
  && samples_match (mf_of var name) (map (triangle a b c) (universe var)).

(** The variables of the system with their terms. *)
Definition variables : list FuzzyVariable := [waiting_cars; incoming_cars; wait_time].

Definition triangles_ok : bool :=
  forallb (fun var =>
             forallb (fun t : string * list Q =>
                        match triangle_of (label var, fst t) with
                        | Some abc => triangle_term var (fst t) abc
                        | None => false
                        end)
                     (terms var))
          variables.

(** The crossings of level [h] that [interp_universe] finds for the
    samples of [f] on the grid [l]. *)
Definition crossings_on (f : Q -> Q) (h : Q) (l : list Q) : list Q :=
  match l with
  | x0 :: xs => Fuzz.interp_universe_from x0 (f x0) xs (map f xs) h
  | [] => []
  end.

Fixpoint increasing (l : list Q) : bool :=
  match l with
  | a :: (b :: _) as t => Qlt_bool a b && increasing t
  | _ => true
  end.

(** A grid cut at the three points of a triangle: [l1] up to [a], [l2]
    between [a] and [b], [l3] between [b] and [c], [l4] from [c] on. *)
Definition pieces_ok (a b c : Q) (l1 l2 l3 l4 : list Q) : bool :=
  forallb (fun x => Qle_bool x a) l1
  && increasing (a :: l2 ++ [b])
  && forallb (fun x => Qle_bool a x && Qle_bool x b) l2
  && increasing (b :: l3 ++ [c])
  && forallb (fun x => Qle_bool b x && Qle_bool x c) l3
  && forallb (fun x => Qle_bool c x) l4.

(** The universe of [wait_time] cut at the three points of each output
    triangle. *)
Definition output_pieces (name : string)
  : option (Q * Q * Q * (list Q * list Q * list Q * list Q)) :=
  get String.eqb name
      [("short", ((0, 50, 75), ([], Np.arange 1 50, Np.arange 51 75, Np.arange 76 161)));
       ("medium", ((50, 87, 125),
                   (Np.arange 0 50, Np.arange 51 87, Np.arange 88 125, Np.arange 126 161)));
       ("long", ((100, 150, 160),
                 (Np.arange 0 100, Np.arange 101 150, Np.arange 151 160, [])))].

(** * Verification *)

(** ** Comparisons on rationals *)

Lemma Qlt_bool_true (x y : Q) : Qlt_bool x y = true <-> x < y.
Proof.
  unfold Qlt_bool. rewrite negb_true_iff. split; intro H.
  - apply Qnot_le_lt. intro Hle. apply Qle_bool_iff in Hle. congruence.
  - destruct (Qle_bool y x) eqn:E; [|reflexivity].
    apply Qle_bool_iff in E. exfalso. apply (Qlt_not_le _ _ H E).
Qed.

Lemma Qlt_bool_false (x y : Q) : Qlt_bool x y = false <-> y <= x.
Proof.
  unfold Qlt_bool. rewrite negb_false_iff. apply Qle_bool_iff.
Qed.

Lemma Qle_bool_false (x y : Q) : Qle_bool x y = false <-> y < x.
Proof.
  rewrite <- Qlt_bool_true. unfold Qlt_bool.
  destruct (Qle_bool x y); simpl; intuition congruence.
Qed.

Lemma Qeq_bool_false (x y : Q) : Qeq_bool x y = false <-> ~ x == y.
Proof.
  split; intro H.
  - intro E. apply Qeq_bool_iff in E. congruence.
  - destruct (Qeq_bool x y) eqn:E; [|reflexivity].
    apply Qeq_bool_iff in E. contradiction.
Qed.

Lemma Q_eqb_spec (x y : Q) : BoolSpec (x = y) (x <> y) (Q_eqb x y).
Proof.
  unfold Q_eqb. destruct x as [a b], y as [c d]; simpl.
  destruct (Z.eqb_spec a c), (Pos.eqb_spec b d); simpl; constructor; congruence.
Qed.

(** ** Association lists *)

Section AssocFacts.
Context {K V : Type} (eqb : K -> K -> bool).
Context (eqb_spec : forall a b, BoolSpec (a = b) (a <> b) (eqb a b)).

Lemma get_set_same (k : K) (v : V) (d : list (K * V)) :
  get eqb k (set eqb k v d) = Some v.
Proof.
  induction d as [|[k' v'] d IH]; simpl.
  - destruct (eqb_spec k k); congruence.
  - destruct (eqb_spec k k') as [->|Hne]; simpl.
    + destruct (eqb_spec k' k'); congruence.
    + destruct (eqb_spec k k'); [contradiction|assumption].
Qed.

Lemma get_set_other (k k' : K) (v : V) (d : list (K * V)) :
  k <> k' -> get eqb k' (set eqb k v d) = get eqb k' d.
Proof.
  intro Hne. induction d as [|[k0 v0] d IH]; simpl.
  - destruct (eqb_spec k' k); congruence.
  - destruct (eqb_spec k k0) as [->|Hk]; simpl.
    + destruct (eqb_spec k' k0); congruence.
    + destruct (eqb_spec k' k0); [reflexivity|assumption].
Qed.

Lemma get_In (k : K) (v : V) (d : list (K * V)) :
  get eqb k d = Some v -> In (k, v) d.
Proof.
  induction d as [|[k' v'] d IH]; simpl; [discriminate|].
  destruct (eqb_spec k k') as [->|Hne]; intro H.
  - left. congruence.
  - right. auto.
Qed.

Lemma In_get (k : K) (v : V) (d : list (K * V)) :
  NoDup (map fst d) -> In (k, v) d -> get eqb k d = Some v.
Proof.
  induction d as [|[k' v'] d IH]; simpl; [tauto|].
  intros Hnd [Heq|Hin].
  - inversion Heq; subst. destruct (eqb_spec k k); congruence.
  - inversion Hnd as [|? ? Hnot Hnd']; subst.
    destruct (eqb_spec k k') as [->|Hne]; [|auto].
    exfalso. apply Hnot. apply (in_map fst) in Hin. exact Hin.
Qed.

Lemma get_None_notin (k : K) (d : list (K * V)) :
  get eqb k d = None -> ~ In k (map fst d).
Proof.
  induction d as [|[k' v'] d IH]; simpl; [tauto|].
  destruct (eqb_spec k k') as [->|Hne]; [discriminate|].
  intros H [Heq|Hin]; [congruence|]. exact (IH H Hin).
Qed.
End AssocFacts.

Lemma string_eqb_spec (a b : string) : BoolSpec (a = b) (a <> b) (String.eqb a b).
Proof. destruct (String.eqb_spec a b); constructor; assumption. Qed.

Lemma Term_eqb_spec (a b : Term) : BoolSpec (a = b) (a <> b) (Term_eqb a b).
Proof.
  destruct a as [a1 a2], b as [b1 b2]. unfold Term_eqb; simpl.
  destruct (String.eqb_spec a1 b1), (String.eqb_spec a2 b2); simpl;
    constructor; congruence.
Qed.

Lemma id_eqb_spec (a b : unique_id) : BoolSpec (a = b) (a <> b) (id_eqb a b).
Proof.
  revert b. induction a as [|[k v] a IH]; intros [|[k' v'] b]; simpl;
    try (constructor; congruence).
  destruct (String.eqb_spec k k'); simpl; [|constructor; congruence].
  destruct (Q_eqb_spec v v'); simpl; [|constructor; congruence].
  destruct (IH b); constructor; congruence.
Qed.

(** ** The rule base *)

Lemma waiting_names :
  map fst (terms waiting_cars)
  = ["minimal"; "light"; "average"; "heavy"; "standstill"]%string.
Proof. reflexivity. Qed.

Lemma incoming_names :
  map fst (terms incoming_cars)
  = ["minimal"; "light"; "average"; "heavy"; "excess"]%string.
Proof. reflexivity. Qed.

Lemma wait_time_names :
  map fst (terms wait_time) = ["short"; "medium"; "long"]%string.
Proof. reflexivity. Qed.

Lemma make_rules_ok : make_rules rule_table = Ok rules.
Proof. vm_compute. reflexivity. Qed.

Lemma setup_fuzzy_system_ok : setup_fuzzy_system = Ok controller.
Proof.
  unfold setup_fuzzy_system. rewrite make_rules_ok. reflexivity.
Qed.

Lemma filter_unique {A : Type} (p : A -> bool) (l : list A) (a b : A) :
  List.length (filter p l) = 1%nat ->
  In a l -> In b l -> p a = true -> p b = true -> a = b.
Proof.
  induction l as [|h t IH]; simpl; [tauto|].
  intros Hlen Ha Hb Hpa Hpb.
  assert (Hnone : forall c, List.length (filter p t) = 0%nat ->
                            In c t -> p c = true -> False).
  { intros c H0 Hin Hpc.
    assert (Hc : In c (filter p t)) by (apply filter_In; auto).
    destruct (filter p t); [contradiction|discriminate]. }
  destruct (p h) eqn:Hh; simpl in Hlen.
  - injection Hlen as Hlen.
    destruct Ha as [<-|Ha], Hb as [<-|Hb]; try reflexivity;
      exfalso; eauto.
  - destruct Ha as [<-|Ha]; [congruence|].
    destruct Hb as [<-|Hb]; [congruence|]. auto.
Qed.

(** Each of the 5 x 5 pairs of a [waiting_cars] term and an
    [incoming_cars] term is named by the antecedent of exactly one rule of the
    rule base. *)
Lemma named_once (w i : string) :
  In w (map fst (terms waiting_cars)) ->
  In i (map fst (terms incoming_cars)) ->
  List.length (filter (covers w i) rules) = 1%nat /\
  List.length (filter (covers_or w i) rules) = 9%nat.
Proof.
  rewrite waiting_names, incoming_names. intros Hw Hi.
  simpl in Hw, Hi.
  repeat (destruct Hw as [<-|Hw]; [|]); try contradiction;
    repeat (destruct Hi as [<-|Hi]; [|]); try contradiction;
    split; vm_compute; reflexivity.
Qed.

(** C2, as stated, fails: under the OR semantics the pair ('minimal',
    'minimal') is covered by nine rules, not one, and two of them conclude on
    different output terms. *)
Lemma or_coverage_overlaps :
  List.length (filter (covers_or "minimal" "minimal") rules) = 9%nat /\
  exists r r',
    In r rules /\ In r' rules /\
    covers_or "minimal" "minimal" r = true /\
    covers_or "minimal" "minimal" r' = true /\
    consequent r <> consequent r'.
Proof.
  split; [vm_compute; reflexivity|].
  exists (or_rule "minimal" "minimal" "short"), (or_rule "minimal" "heavy" "long").
  split; [unfold rules, rule_table; simpl; tauto|].
  split; [unfold rules, rule_table; simpl; tauto|].
  split; [reflexivity|]. split; [reflexivity|].
  intro H. discriminate H.
Qed.

(** The rule base has 25 rules, all OR-combinations of one term of each
    input with weight 1. *)
Lemma rules_shape (r : Rule) :
  In r rules ->
  exists w i o : string,
    In (w, i, o) rule_table /\
    r = mk_rule (TermOr (TermRef ("waiting_cars", w)) (TermRef ("incoming_cars", i)))
                ("wait_time", o)%string.
Proof.
  unfold rules. intro H. apply in_map_iff in H.
  destruct H as [[[w i] o] [Heq Hin]].
  exists w, i, o. split; [exact Hin|]. symmetry. exact Heq.
Qed.

(** ** Input validation *)

Lemma validate_input_range_ok (value : Q) (name : string) :
  0 <= value <= 100 -> Helpers.validate_input_range value name = Ok tt.
Proof.
  intros [H0 H1]. unfold Helpers.validate_input_range.
  apply Qle_bool_iff in H0, H1. rewrite H0, H1. reflexivity.
Qed.

Lemma validate_input_range_raises (value : Q) (name : string) :
  ~ (0 <= value <= 100) ->
  Helpers.validate_input_range value name
  = Raise (ValueError (Helpers.range_message name (Num value))).
Proof.
  intro H. unfold Helpers.validate_input_range.
  destruct (Qle_bool 0 value) eqn:E0; [|reflexivity].
  destruct (Qle_bool value 100) eqn:E1; [|reflexivity].
  exfalso. apply H. split; apply Qle_bool_iff; assumption.
Qed.

Lemma validate_input_range_cases (value : Q) (name : string) :
  (0 <= value <= 100 /\ Helpers.validate_input_range value name = Ok tt) \/
  (~ (0 <= value <= 100) /\
   Helpers.validate_input_range value name
   = Raise (ValueError (Helpers.range_message name (Num value)))).
Proof.
  destruct (Qlt_le_dec value 0) as [Hlt|H0].
  { right. assert (Hn : ~ (0 <= value <= 100)).
    { intros [H _]. exact (Qlt_not_le _ _ Hlt H). }
    split; [exact Hn|]. apply validate_input_range_raises; exact Hn. }
  destruct (Qlt_le_dec 100 value) as [Hgt|H1].
  { right. assert (Hn : ~ (0 <= value <= 100)).
    { intros [_ H]. exact (Qlt_not_le _ _ Hgt H). }
    split; [exact Hn|]. apply validate_input_range_raises; exact Hn. }
  left. split; [split; assumption|].
  apply validate_input_range_ok; split; assumption.
Qed.

Lemma invalid_call_unchanged
      (st : world) (incoming waiting : Q) (plot_output : bool) (prefix : string) :
  ~ (0 <= incoming <= 100) \/ ~ (0 <= waiting <= 100) ->
  exists msg : list piece,
    compute_wait_time incoming waiting plot_output prefix st
    = (Raise (ValueError msg), st).
Proof.
  intro H. unfold compute_wait_time, mbind, pure_check.
  destruct (validate_input_range_cases incoming "Incoming Cars")
    as [[Hin Ei]|[Hin Ei]]; rewrite Ei.
  - destruct H as [H|H]; [contradiction|].
    rewrite (validate_input_range_raises waiting "Waiting Cars" H).
    eexists. reflexivity.
  - eexists. reflexivity.
Qed.

(** C7.  With an input outside [0, 100], [compute_wait_time] raises the
    range error ([ValueError]) of the validator, with the message that names
    the first offending input and its value, and leaves the whole state as it
    found it: no input is assigned to the simulation, no output is stored, the
    operating system is not called. *)
Theorem out_of_range_raises_unchanged
        (st : world) (incoming waiting : Q) (plot_output : bool) (prefix : string) :
  ~ (0 <= incoming <= 100) \/ ~ (0 <= waiting <= 100) ->
  exists msg : list piece,
    compute_wait_time incoming waiting plot_output prefix st
    = (Raise (ValueError msg), st) /\
    msg = (if Qle_bool 0 incoming && Qle_bool incoming 100
           then [Lit "Waiting Cars"; Lit " must be between 0 and 100. Got ";
                 Num waiting; Lit "."]
           else [Lit "Incoming Cars"; Lit " must be between 0 and 100. Got ";
                 Num incoming; Lit "."]).
Proof.
  intro H. unfold compute_wait_time, mbind, pure_check.
  unfold Helpers.validate_input_range at 1.
  destruct (Qle_bool 0 incoming && Qle_bool incoming 100) eqn:E; cbn [negb].
  - destruct H as [H|H].
    + exfalso. apply H. apply andb_true_iff in E. destruct E as [E0 E1].
      split; apply Qle_bool_iff; assumption.
    + rewrite (validate_input_range_raises waiting "Waiting Cars" H).
      eexists. split; reflexivity.
  - eexists. split; reflexivity.
Qed.

Lemma out_of_range_raises_unchanged_witness :
  exists msg : list piece,
    compute_wait_time 150 20 true "case_1" (controller, accepting_fs)
    = (Raise (ValueError msg), (controller, accepting_fs)) /\
    msg = (if Qle_bool 0 150 && Qle_bool 150 100
           then [Lit "Waiting Cars"; Lit " must be between 0 and 100. Got ";
                 Num 20; Lit "."]
           else [Lit "Incoming Cars"; Lit " must be between 0 and 100. Got ";
                 Num 150; Lit "."]).
Proof.
  apply (out_of_range_raises_unchanged (controller, accepting_fs) 150 20 true "case_1").
  left. intros [_ H]. unfold Qle in H. simpl in H. lia.
Defined.

(** ** Piecewise-linear interpolation *)

Lemma affine_between (lo hi x0 x1 y0 y1 x : Q) :
  x0 <= x -> x < x1 ->
  lo <= y0 <= hi -> lo <= y1 <= hi ->
  lo <= (y1 - y0) / (x1 - x0) * (x - x0) + y0 <= hi.
Proof.
  intros Hx0 Hx1 [Hl0 Hh0] [Hl1 Hh1].
  assert (Hd : 0 < x1 - x0) by lra.
  set (t := (x - x0) / (x1 - x0)).
  assert (Ht : 0 <= t <= 1).
  { unfold t. split.
    - apply Qle_shift_div_l; [exact Hd|lra].
    - apply Qle_shift_div_r; [exact Hd|lra]. }
  assert (E : (y1 - y0) / (x1 - x0) * (x - x0) + y0 == (y1 - y0) * t + y0).
  { unfold t, Qdiv. ring. }
  rewrite E. destruct Ht as [Ht0 Ht1]. split; nra.
Qed.

Lemma interp_from_bounds (lo hi right : Q) (xp fp : list Q) :
  lo <= right <= hi ->
  Forall (fun y => lo <= y <= hi) fp ->
  forall x0 y0 x, x0 <= x -> lo <= y0 <= hi ->
  lo <= Np.interp_from x0 y0 xp fp right x <= hi.
Proof.
  intros Hr. revert fp. induction xp as [|x1 xp IH]; intros fp Hfp x0 y0 x Hx Hy0.
  - simpl. destruct (Qeq_bool x x0); assumption.
  - destruct fp as [|y1 fp]; simpl.
    + destruct (Qeq_bool x x0); assumption.
    + inversion Hfp as [|? ? Hy1 Hfp']; subst.
      destruct (Qlt_bool x x1) eqn:E.
      * apply Qlt_bool_true in E. apply affine_between; assumption.
      * apply Qlt_bool_false in E. apply IH; assumption.
Qed.

(** A degree interpolated from samples in [0, 1] lies in [0, 1]. *)
Lemma interp_membership_bounds (xs mf : list Q) (x : Q) :
  Forall (fun y => 0 <= y <= 1) mf ->
  0 <= Fuzz.interp_membership xs mf x <= 1.
Proof.
  intro H. unfold Fuzz.interp_membership, Np.interp.
  destruct xs as [|x0 xs]; [lra|].
  destruct mf as [|y0 mf]; [lra|].
  inversion H; subst.
  destruct (Qlt_bool x x0) eqn:E; [lra|].
  apply Qlt_bool_false in E.
  apply interp_from_bounds; try assumption; lra.
Qed.

Lemma Qlt_bool_compat (x x' y y' : Q) :
  x == x' -> y == y' -> Qlt_bool x y = Qlt_bool x' y'.
Proof.
  intros Hx Hy. destruct (Qlt_bool x' y') eqn:E.
  - apply Qlt_bool_true. apply Qlt_bool_true in E. rewrite Hx, Hy. exact E.
  - apply Qlt_bool_false. apply Qlt_bool_false in E. rewrite Hx, Hy. exact E.
Qed.

Lemma Qeq_bool_compat (x x' y y' : Q) :
  x == x' -> y == y' -> Qeq_bool x y = Qeq_bool x' y'.
Proof.
  intros Hx Hy. destruct (Qeq_bool x' y') eqn:E.
  - apply Qeq_bool_iff. apply Qeq_bool_iff in E. rewrite Hx, Hy. exact E.
  - apply Qeq_bool_false. apply Qeq_bool_false in E. rewrite Hx, Hy. exact E.
Qed.

Lemma Qle_bool_compat (x x' y y' : Q) :
  x == x' -> y == y' -> Qle_bool x y = Qle_bool x' y'.
Proof.
  intros Hx Hy. destruct (Qle_bool x' y') eqn:E.
  - apply Qle_bool_iff. apply Qle_bool_iff in E. rewrite Hx, Hy. exact E.
  - apply Qle_bool_false. apply Qle_bool_false in E. rewrite Hx, Hy. exact E.
Qed.

(** Interpolation respects [==] on the abscissa and on the samples. *)
Lemma interp_from_compat (xp : list Q) :
  forall fp gp x0 y0 z0 right x x',
    x == x' -> y0 == z0 -> Forall2 Qeq fp gp ->
    Np.interp_from x0 y0 xp fp right x == Np.interp_from x0 z0 xp gp right x'.
Proof.
  induction xp as [|x1 xp IH]; intros fp gp x0 y0 z0 right x x' Hx Hy Hf.
  - simpl. rewrite (Qeq_bool_compat x x' x0 x0 Hx (Qeq_refl _)).
    destruct (Qeq_bool x' x0); [exact Hy|reflexivity].
  - inversion Hf as [|y1 z1 fp' gp' Hy1 Hf']; subst; simpl.
    + rewrite (Qeq_bool_compat x x' x0 x0 Hx (Qeq_refl _)).
      destruct (Qeq_bool x' x0); [exact Hy|reflexivity].
    + rewrite (Qlt_bool_compat x x' x1 x1 Hx (Qeq_refl _)).
      destruct (Qlt_bool x' x1).
      * rewrite Hx, Hy, Hy1. reflexivity.
      * apply IH; assumption.
Qed.

Lemma interp_membership_compat (xs mf mf' : list Q) (x x' : Q) :
  x == x' -> Forall2 Qeq mf mf' ->
  Fuzz.interp_membership xs mf x == Fuzz.interp_membership xs mf' x'.
Proof.
  intros Hx Hf. unfold Fuzz.interp_membership, Np.interp.
  destruct xs as [|x0 xs]; [reflexivity|].
  inversion Hf as [|y0 z0 fp gp Hy Hf']; subst; [reflexivity|].
  rewrite (Qlt_bool_compat x x' x0 x0 Hx (Qeq_refl _)).
  destruct (Qlt_bool x' x0); [reflexivity|].
  apply interp_from_compat; assumption.
Qed.

Lemma Forall2_Qeq_refl (l : list Q) : Forall2 Qeq l l.
Proof. induction l; constructor; [reflexivity|assumption]. Qed.

(** Interpolation is additive in the samples. *)
Lemma interp_from_add (xp : list Q) :
  forall fp gp x0 y0 z0 x,
    List.length fp = List.length xp -> List.length gp = List.length xp ->
    Np.interp_from x0 y0 xp fp 0 x + Np.interp_from x0 z0 xp gp 0 x
    == Np.interp_from x0 (y0 + z0) xp (ladd fp gp) 0 x.
Proof.
  induction xp as [|x1 xp IH]; intros fp gp x0 y0 z0 x Hf Hg.
  - destruct fp; [|discriminate]. destruct gp; [|discriminate]. simpl.
    destruct (Qeq_bool x x0); ring.
  - destruct fp as [|y1 fp]; [discriminate|].
    destruct gp as [|z1 gp]; [discriminate|]. simpl.
    destruct (Qlt_bool x x1).
    + unfold Qdiv. ring.
    + apply IH; simpl in *; congruence.
Qed.

Lemma interp_membership_add (xs fp gp : list Q) (x : Q) :
  List.length fp = List.length xs -> List.length gp = List.length xs ->
  Fuzz.interp_membership xs fp x + Fuzz.interp_membership xs gp x
  == Fuzz.interp_membership xs (ladd fp gp) x.
Proof.
  intros Hf Hg. unfold Fuzz.interp_membership, Np.interp.
  destruct xs as [|x0 xs].
  - destruct fp; [|discriminate]. destruct gp; [|discriminate]. ring.
  - destruct fp as [|y0 fp]; [discriminate|].
    destruct gp as [|z0 gp]; [discriminate|]. simpl.
    destruct (Qlt_bool x x0); [ring|].
    apply interp_from_add; simpl in *; congruence.
Qed.

Lemma last_cons_default (a : Q) (l : list Q) (d d' : Q) :
  List.last (a :: l) d = List.last (a :: l) d'.
Proof.
  revert a. induction l as [|b l IH]; intro a; [reflexivity|].
  change (List.last (b :: l) d = List.last (b :: l) d'). apply IH.
Qed.

(** Interpolating constant samples gives the constant, inside the range. *)
Lemma interp_from_const (c : Q) (xp : list Q) :
  forall fp x0 y0 x,
    y0 == c -> Forall (fun y => y == c) fp ->
    List.length fp = List.length xp ->
    x0 <= x -> x <= List.last xp x0 ->
    Np.interp_from x0 y0 xp fp 0 x == c.
Proof.
  induction xp as [|x1 xp IH]; intros fp x0 y0 x Hy Hf Hlen Hlo Hhi.
  - simpl in *. assert (E : x == x0) by lra.
    apply Qeq_bool_iff in E. rewrite E. exact Hy.
  - destruct fp as [|y1 fp]; [discriminate|]. simpl.
    inversion Hf as [|? ? Hy1 Hf']; subst.
    destruct (Qlt_bool x x1) eqn:E.
    + rewrite Hy, Hy1. unfold Qdiv. ring.
    + apply Qlt_bool_false in E. apply IH; try assumption.
      * simpl in Hlen. congruence.
      * destruct xp as [|x2 xp]; [simpl in *; lra|].
        change (x <= List.last (x2 :: xp) x0) in Hhi.
        rewrite (last_cons_default x2 xp x1 x0). exact Hhi.
Qed.

(** ** Membership degrees *)

Lemma interp_membership_range (lo hi : Q) (xs mf : list Q) (x : Q) :
  lo <= 0 <= hi ->
  Forall (fun y => lo <= y <= hi) mf ->
  lo <= Fuzz.interp_membership xs mf x <= hi.
Proof.
  intros H0 H. unfold Fuzz.interp_membership, Np.interp.
  destruct xs as [|x0 xs]; [exact H0|].
  destruct mf as [|y0 mf]; [exact H0|].
  inversion H; subst.
  destruct (Qlt_bool x x0) eqn:E; [exact H0|].
  apply Qlt_bool_false in E.
  apply interp_from_bounds; assumption.
Qed.

Lemma degree_bounds (var : FuzzyVariable) (name : string) (x : Q) :
  unit_samples var = true -> 0 <= degree var name x <= 1.
Proof.
  intro H. unfold degree.
  destruct (get String.eqb name (terms var)) as [mf|] eqn:E; [|lra].
  apply (get_In _ string_eqb_spec) in E.
  unfold unit_samples in H. rewrite forallb_forall in H.
  specialize (H _ E). simpl in H. rewrite forallb_forall in H.
  apply interp_membership_bounds. apply Forall_forall.
  intros y Hy. specialize (H y Hy). apply andb_true_iff in H.
  destruct H as [H0 H1]. apply Qle_bool_iff in H0, H1. split; assumption.
Qed.

Lemma waiting_unit_samples : unit_samples waiting_cars = true.
Proof. vm_compute. reflexivity. Qed.

Lemma incoming_unit_samples : unit_samples incoming_cars = true.
Proof. vm_compute. reflexivity. Qed.

Lemma wait_time_unit_samples : unit_samples wait_time = true.
Proof. vm_compute. reflexivity. Qed.

Lemma ladd_length (a b : list Q) (n : nat) :
  List.length a = n -> List.length b = n -> List.length (ladd a b) = n.
Proof.
  revert b n. induction a as [|x a IH]; intros [|y b] n Ha Hb; simpl in *;
    try congruence.
  destruct n; [discriminate|]. f_equal. apply IH; congruence.
Qed.

Lemma lsum_length (n : nat) (ls : list (list Q)) :
  Forall (fun l => List.length l = n) ls -> List.length (lsum n ls) = n.
Proof.
  induction 1 as [|l ls Hl _ IH]; simpl.
  - apply repeat_length.
  - apply ladd_length; assumption.
Qed.

Lemma interp_membership_zeros (xs : list Q) (n : nat) (x : Q) :
  Fuzz.interp_membership xs (repeat 0 n) x == 0.
Proof.
  assert (H : 0 <= Fuzz.interp_membership xs (repeat 0 n) x <= 0).
  { apply interp_membership_range; [lra|].
    apply Forall_forall. intros y Hy. apply repeat_spec in Hy. subst. lra. }
  lra.
Qed.

Lemma sum_interp_lsum (xs : list Q) (ts : list (string * list Q)) (x : Q) :
  Forall (fun t : string * list Q => List.length (snd t) = List.length xs) ts ->
  fold_right (fun (t : string * list Q) acc =>
                Fuzz.interp_membership xs (snd t) x + acc) 0 ts
  == Fuzz.interp_membership xs (lsum (List.length xs) (map snd ts)) x.
Proof.
  induction 1 as [|t ts Ht Hts IH]; simpl.
  - symmetry. apply interp_membership_zeros.
  - rewrite IH. apply interp_membership_add; [exact Ht|].
    apply lsum_length. apply Forall_forall. intros l Hl.
    apply in_map_iff in Hl. destruct Hl as [t' [<- Hin]].
    rewrite Forall_forall in Hts. apply Hts. exact Hin.
Qed.

Lemma partition_total (var : FuzzyVariable) (x0 : Q) (xp : list Q) (x : Q) :
  partition_of_unity var = true ->
  universe var = x0 :: xp ->
  x0 <= x <= List.last xp x0 ->
  degrees_total var x == 1.
Proof.
  intros H Hu [Hlo Hhi]. unfold partition_of_unity in H.
  apply andb_true_iff in H. destruct H as [Hlen Hone].
  unfold degrees_total. rewrite sum_interp_lsum.
  2:{ apply Forall_forall. intros t Ht. rewrite forallb_forall in Hlen.
      apply Nat.eqb_eq. apply Hlen. exact Ht. }
  assert (Hl : List.length (lsum (List.length (universe var)) (map snd (terms var)))
               = List.length (universe var)).
  { apply lsum_length. apply Forall_forall. intros l Hl.
    apply in_map_iff in Hl. destruct Hl as [t [<- Hin]].
    rewrite forallb_forall in Hlen. apply Nat.eqb_eq. apply Hlen. exact Hin. }
  rewrite forallb_forall in Hone.
  destruct (lsum (List.length (universe var)) (map snd (terms var)))
    as [|y0 fp] eqn:E.
  { rewrite Hu in Hl. discriminate. }
  rewrite Hu. unfold Fuzz.interp_membership, Np.interp.
  assert (Hx : Qlt_bool x x0 = false) by (apply Qlt_bool_false; exact Hlo).
  rewrite Hx. apply interp_from_const.
  - apply Qeq_bool_iff. apply Hone. left. reflexivity.
  - apply Forall_forall. intros y Hy. apply Qeq_bool_iff. apply Hone.
    right. exact Hy.
  - rewrite Hu in Hl. simpl in Hl. congruence.
  - exact Hlo.
  - exact Hhi.
Qed.

Lemma positive_summand {A : Type} (f : A -> Q) (l : list A) :
  0 < fold_right (fun a acc => f a + acc) 0 l ->
  exists a, In a l /\ 0 < f a.
Proof.
  induction l as [|a l IH]; simpl; intro H.
  - lra.
  - destruct (Qlt_le_dec 0 (f a)) as [Hpos|Hle].
    + exists a. split; [left; reflexivity|exact Hpos].
    + destruct IH as [b [Hin Hb]]; [lra|].
      exists b. split; [right; exact Hin|exact Hb].
Qed.

(** Total coverage: where the terms add up to 1, some term has a positive
    degree. *)
Lemma coverage (var : FuzzyVariable) (x0 : Q) (xp : list Q) (x : Q) :
  partition_of_unity var = true ->
  NoDup (map fst (terms var)) ->
  universe var = x0 :: xp ->
  x0 <= x <= List.last xp x0 ->
  exists name, In name (map fst (terms var)) /\ 0 < degree var name x.
Proof.
  intros Hp Hnd Hu Hx.
  pose proof (partition_total var x0 xp x Hp Hu Hx) as Htot.
  unfold degrees_total in Htot.
  destruct (positive_summand
              (fun t : string * list Q =>
                 Fuzz.interp_membership (universe var) (snd t) x)
              (terms var)) as [[name mf] [Hin Hpos]].
  { rewrite Htot. reflexivity. }
  exists name. split.
  - apply (in_map fst) in Hin. exact Hin.
  - unfold degree. rewrite (In_get _ string_eqb_spec name mf _ Hnd Hin).
    exact Hpos.
Qed.

Lemma waiting_partition : partition_of_unity waiting_cars = true.
Proof. vm_compute. reflexivity. Qed.

Lemma incoming_partition : partition_of_unity incoming_cars = true.
Proof. vm_compute. reflexivity. Qed.

Lemma waiting_universe : universe waiting_cars = Np.arange 0 101.
Proof. reflexivity. Qed.

Lemma incoming_universe : universe incoming_cars = Np.arange 0 101.
Proof. reflexivity. Qed.

Lemma wait_time_universe : universe wait_time = Np.arange 0 161.
Proof. reflexivity. Qed.

Lemma waiting_names_nodup : NoDup (map fst (terms waiting_cars)).
Proof.
  rewrite waiting_names.
  repeat constructor; simpl; intuition discriminate.
Qed.

Lemma incoming_names_nodup : NoDup (map fst (terms incoming_cars)).
Proof.
  rewrite incoming_names.
  repeat constructor; simpl; intuition discriminate.
Qed.

Lemma wait_time_names_nodup : NoDup (map fst (terms wait_time)).
Proof.
  rewrite wait_time_names.
  repeat constructor; simpl; intuition discriminate.
Qed.

Lemma arange_0_101 :
  exists xp, Np.arange 0 101 = 0 :: xp /\ List.last xp 0 = 100.
Proof. eexists. split; [reflexivity|]. vm_compute. reflexivity. Qed.

Lemma waiting_coverage (x : Q) :
  0 <= x <= 100 ->
  exists name, In name (map fst (terms waiting_cars)) /\
               0 < degree waiting_cars name x.
Proof.
  intro Hx. destruct arange_0_101 as [xp [Hu Hl]].
  apply (coverage waiting_cars 0 xp x waiting_partition waiting_names_nodup).
  - rewrite waiting_universe. exact Hu.
  - rewrite Hl. exact Hx.
Qed.

Lemma incoming_coverage (x : Q) :
  0 <= x <= 100 ->
  exists name, In name (map fst (terms incoming_cars)) /\
               0 < degree incoming_cars name x.
Proof.
  intro Hx. destruct arange_0_101 as [xp [Hu Hl]].
  apply (coverage incoming_cars 0 xp x incoming_partition incoming_names_nodup).
  - rewrite incoming_universe. exact Hu.
  - rewrite Hl. exact Hx.
Qed.

(** *** Samples that are constant on a sub-range *)

Lemma interp_from_const_on (c a b : Q) (xp : list Q) :
  forall fp x0 y0 x,
    List.length fp = List.length xp ->
    no_straddle a x0 xp = true -> no_straddle b x0 xp = true ->
    const_on c a b (x0 :: xp) (y0 :: fp) = true ->
    x0 <= x -> a <= x <= b -> b <= List.last xp x0 ->
    Np.interp_from x0 y0 xp fp 0 x == c.
Proof.
  induction xp as [|x1 xp IH]; intros fp x0 y0 x Hlen Hsa Hsb Hc Hx0 [Ha Hb] Hlast.
  - simpl in *. assert (E : x == x0) by lra.
    rewrite (proj2 (Qeq_bool_iff x x0) E).
    apply andb_true_iff in Hc. destruct Hc as [Hc _].
    assert (Hin : Qle_bool a x0 && Qle_bool x0 b = true).
    { apply andb_true_iff. split; apply Qle_bool_iff; lra. }
    rewrite Hin in Hc. simpl in Hc. apply Qeq_bool_iff. exact Hc.
  - destruct fp as [|y1 fp]; [discriminate|].
    simpl in Hsa, Hsb. apply andb_true_iff in Hsa, Hsb.
    destruct Hsa as [Hsa Hsa'], Hsb as [Hsb Hsb'].
    change (const_on c a b (x0 :: x1 :: xp) (y0 :: y1 :: fp))
      with (implb (Qle_bool a x0 && Qle_bool x0 b) (Qeq_bool y0 c)
            && const_on c a b (x1 :: xp) (y1 :: fp)) in Hc.
    apply andb_true_iff in Hc. destruct Hc as [Hc0 Hc'].
    simpl. destruct (Qlt_bool x x1) eqn:E.
    + apply Qlt_bool_true in E.
      assert (Hax0 : a <= x0).
      { destruct (Qlt_le_dec x0 a) as [Hlt|Hle]; [|exact Hle].
        exfalso. apply negb_true_iff in Hsa. apply andb_false_iff in Hsa.
        destruct Hsa as [Hsa|Hsa]; apply Qlt_bool_false in Hsa; lra. }
      assert (Hy0 : y0 == c).
      { assert (Hin : Qle_bool a x0 && Qle_bool x0 b = true).
        { apply andb_true_iff. split; apply Qle_bool_iff; lra. }
        rewrite Hin in Hc0. apply Qeq_bool_iff. exact Hc0. }
      destruct (Qlt_le_dec b x1) as [Hbx1|Hx1b].
      * assert (Hbx0 : b <= x0).
        { destruct (Qlt_le_dec x0 b) as [Hlt|Hle]; [|exact Hle].
          exfalso. apply negb_true_iff in Hsb. apply andb_false_iff in Hsb.
          destruct Hsb as [Hsb|Hsb]; apply Qlt_bool_false in Hsb; lra. }
        assert (Ex : x - x0 == 0) by lra.
        rewrite Ex, Hy0. ring.
      * assert (Hy1 : y1 == c).
        { simpl in Hc'. apply andb_true_iff in Hc'. destruct Hc' as [Hc1 _].
          assert (Hin : Qle_bool a x1 && Qle_bool x1 b = true).
          { apply andb_true_iff. split; apply Qle_bool_iff; lra. }
          rewrite Hin in Hc1. apply Qeq_bool_iff. exact Hc1. }
        rewrite Hy0, Hy1. unfold Qdiv. ring.
    + apply Qlt_bool_false in E. apply IH; try assumption.
      * simpl in Hlen. congruence.
      * split; assumption.
      * destruct xp as [|x2 xp]; [simpl in *; lra|].
        change (b <= List.last (x2 :: xp) x0) in Hlast.
        rewrite (last_cons_default x2 xp x1 x0). exact Hlast.
Qed.

Lemma degree_mf_of (var : FuzzyVariable) (name : string) (x : Q) :
  In name (map fst (terms var)) ->
  degree var name x = Fuzz.interp_membership (universe var) (mf_of var name) x.
Proof.
  intro H. unfold degree, mf_of.
  destruct (get String.eqb name (terms var)) eqn:E; [reflexivity|].
  exfalso. exact (get_None_notin _ string_eqb_spec _ _ E H).
Qed.

Lemma complementary_degrees (var : FuzzyVariable) (n1 n2 : string) (a b x : Q) :
  complementary_on var n1 n2 a b = true ->
  In n1 (map fst (terms var)) -> In n2 (map fst (terms var)) ->
  a <= x <= b ->
  degree var n1 x + degree var n2 x == 1.
Proof.
  intros H H1 H2 [Ha Hb]. unfold complementary_on in H.
  rewrite (degree_mf_of var n1 x H1), (degree_mf_of var n2 x H2).
  destruct (universe var) as [|x0 xp] eqn:Hu; [discriminate|].
  destruct (ladd (mf_of var n1) (mf_of var n2)) as [|y0 fp] eqn:Hl; [discriminate|].
  apply andb_true_iff in H. destruct H as [H Hlast].
  apply andb_true_iff in H. destruct H as [H Hfirst].
  apply andb_true_iff in H. destruct H as [H Hconst].
  apply andb_true_iff in H. destruct H as [H Hsb].
  apply andb_true_iff in H. destruct H as [H Hsa].
  apply andb_true_iff in H. destruct H as [Hn1 Hn2].
  apply Nat.eqb_eq in Hn1, Hn2.
  apply Qle_bool_iff in Hfirst, Hlast.
  rewrite interp_membership_add by (rewrite ?Hu; assumption).
  rewrite Hl. unfold Fuzz.interp_membership, Np.interp.
  assert (Hx : Qlt_bool x x0 = false) by (apply Qlt_bool_false; lra).
  rewrite Hx. apply (interp_from_const_on 1 a b); try assumption.
  - assert (Hlen : List.length (y0 :: fp) = List.length (x0 :: xp)).
    { rewrite <- Hl. apply ladd_length; assumption. }
    simpl in Hlen. congruence.
  - lra.
  - split; assumption.
Qed.

(** ** Automatically generated term sets *)

(** C6.  For the five generated terms of [waiting_cars] and of
    [incoming_cars]: between the peaks of two consecutive terms there is a
    point where their degrees coincide, at every such crossover both degrees
    are exactly 1/2, and every point of [0, 100] has a term of positive
    degree. *)
Theorem automf_crossover_and_coverage (var : FuzzyVariable) :
  In var [waiting_cars; incoming_cars] ->
  (forall n1 p1 n2 p2,
      In ((n1, p1), (n2, p2)) (consecutive_terms var) ->
      (exists x, p1 <= x <= p2 /\ degree var n1 x == degree var n2 x) /\
      (forall x, p1 <= x <= p2 ->
                 degree var n1 x == degree var n2 x ->
                 degree var n1 x == 1 # 2 /\ degree var n2 x == 1 # 2)) /\
  (forall x, 0 <= x <= 100 ->
             exists name, In name (map fst (terms var)) /\ 0 < degree var name x).
Proof.
  intros [<-|[<-|[]]].
  - split; [|exact waiting_coverage].
    intros n1 p1 n2 p2 Hin.
    assert (Hc : complementary_on waiting_cars n1 n2 p1 p2 = true
                 /\ In n1 (map fst (terms waiting_cars))
                 /\ In n2 (map fst (terms waiting_cars))
                 /\ degree waiting_cars n1 ((p1 + p2) / 2)
                    == degree waiting_cars n2 ((p1 + p2) / 2)
                 /\ p1 <= (p1 + p2) / 2 <= p2).
    { vm_compute in Hin.
      repeat (destruct Hin as [Hin|Hin];
              [injection Hin as <- <- <- <-;
               split; [vm_compute; reflexivity|];
               rewrite waiting_names; simpl;
               split; [tauto|]; split; [tauto|];
               split; [vm_compute; reflexivity|];
               split; vm_compute; discriminate|]).
      contradiction. }
    destruct Hc as [Hc [H1 [H2 [Hmid Hrange]]]]. split.
    + exists ((p1 + p2) / 2). split; assumption.
    + intros x Hx Heq.
      pose proof (complementary_degrees waiting_cars n1 n2 p1 p2 x Hc H1 H2 Hx).
      split; lra.
  - split; [|exact incoming_coverage].
    intros n1 p1 n2 p2 Hin.
    assert (Hc : complementary_on incoming_cars n1 n2 p1 p2 = true
                 /\ In n1 (map fst (terms incoming_cars))
                 /\ In n2 (map fst (terms incoming_cars))
                 /\ degree incoming_cars n1 ((p1 + p2) / 2)
                    == degree incoming_cars n2 ((p1 + p2) / 2)
                 /\ p1 <= (p1 + p2) / 2 <= p2).
    { vm_compute in Hin.
      repeat (destruct Hin as [Hin|Hin];
              [injection Hin as <- <- <- <-;
               split; [vm_compute; reflexivity|];
               rewrite incoming_names; simpl;
               split; [tauto|]; split; [tauto|];
               split; [vm_compute; reflexivity|];
               split; vm_compute; discriminate|]).
      contradiction. }
    destruct Hc as [Hc [H1 [H2 [Hmid Hrange]]]]. split.
    + exists ((p1 + p2) / 2). split; assumption.
    + intros x Hx Heq.
      pose proof (complementary_degrees incoming_cars n1 n2 p1 p2 x Hc H1 H2 Hx).
      split; lra.
Qed.

Lemma automf_crossover_and_coverage_witness :
  (forall n1 p1 n2 p2,
      In ((n1, p1), (n2, p2)) (consecutive_terms waiting_cars) ->
      (exists x, p1 <= x <= p2 /\
                 degree waiting_cars n1 x == degree waiting_cars n2 x) /\
      (forall x, p1 <= x <= p2 ->
                 degree waiting_cars n1 x == degree waiting_cars n2 x ->
                 degree waiting_cars n1 x == 1 # 2 /\
                 degree waiting_cars n2 x == 1 # 2)) /\
  (forall x, 0 <= x <= 100 ->
             exists name, In name (map fst (terms waiting_cars)) /\
                          0 < degree waiting_cars name x).
Proof.
  apply (automf_crossover_and_coverage waiting_cars). simpl. tauto.
Defined.

(** The crossover points themselves: 12.5, 37.5, 62.5 and 87.5. *)
Example crossover_minimal_light :
  degree waiting_cars "minimal" (25 # 2) == 1 # 2 /\
  degree waiting_cars "light" (25 # 2) == 1 # 2.
Proof. split; vm_compute; reflexivity. Qed.

(** ** Fuzzification *)

Section FuzzFacts.
Variable var : FuzzyVariable.
Variable value : Q.

Lemma fuzz_fold_other (ts : list (string * list Q)) :
  forall (mv : store) (t : Term),
    (forall n, In n (map fst ts) -> t <> (label var, n)) ->
    get Term_eqb t (fold_left (fuzz_step var value) ts mv) = get Term_eqb t mv.
Proof.
  induction ts as [|[n mf] ts IH]; intros mv t Hne; simpl; [reflexivity|].
  rewrite IH.
  - unfold fuzz_step. simpl. apply (get_set_other _ Term_eqb_spec).
    intro E. apply (Hne n); [left; reflexivity|]. symmetry. exact E.
  - intros n' Hn'. apply Hne. right. exact Hn'.
Qed.

Lemma fuzz_fold_in (ts : list (string * list Q)) :
  forall (mv : store) (name : string) (mf : list Q),
    NoDup (map fst ts) -> In (name, mf) ts ->
    get Term_eqb (label var, name) (fold_left (fuzz_step var value) ts mv)
    = Some (Fuzz.interp_membership (universe var) mf value).
Proof.
  induction ts as [|[n m] ts IH]; intros mv name mf Hnd Hin; simpl; [contradiction|].
  inversion Hnd as [|? ? Hnot Hnd']; subst.
  destruct Hin as [Heq|Hin].
  - inversion Heq; subst. rewrite fuzz_fold_other.
    + unfold fuzz_step. simpl. apply (get_set_same _ Term_eqb_spec).
    + intros n' Hn' E. inversion E; subst. contradiction.
  - apply IH; assumption.
Qed.

Lemma fuzz_ok (mv : store) :
  terms var <> [] ->
  fuzz var value mv = Ok (fold_left (fuzz_step var value) (terms var) mv).
Proof.
  unfold fuzz. destruct (terms var); [congruence|reflexivity].
Qed.

Lemma fuzz_get_in (mv mv' : store) (name : string) :
  NoDup (map fst (terms var)) ->
  In name (map fst (terms var)) ->
  fuzz var value mv = Ok mv' ->
  get Term_eqb (label var, name) mv' = Some (degree var name value).
Proof.
  intros Hnd Hin Hf.
  assert (Hne : terms var <> []) by (destruct (terms var); [contradiction|discriminate]).
  rewrite (fuzz_ok mv Hne) in Hf. inversion Hf; subst.
  apply in_map_iff in Hin. destruct Hin as [[n mf] [Hn Hin]]. simpl in Hn. subst n.
  rewrite (fuzz_fold_in _ mv name mf Hnd Hin).
  unfold degree. rewrite (In_get _ string_eqb_spec name mf _ Hnd Hin).
  reflexivity.
Qed.

Lemma fuzz_get_other (mv mv' : store) (t : Term) :
  fst t <> label var ->
  fuzz var value mv = Ok mv' ->
  get Term_eqb t mv' = get Term_eqb t mv.
Proof.
  intros Hne Hf. unfold fuzz in Hf.
  destruct (terms var) as [|t0 ts] eqn:E; [discriminate|].
  inversion Hf; subst. apply (fuzz_fold_other (t0 :: ts)).
  intros n _ Ht. apply Hne. rewrite Ht. reflexivity.
Qed.
End FuzzFacts.

Lemma waiting_label : label waiting_cars = "waiting_cars".
Proof. reflexivity. Qed.

Lemma incoming_label : label incoming_cars = "incoming_cars".
Proof. reflexivity. Qed.

Lemma wait_time_label : label wait_time = "wait_time".
Proof. reflexivity. Qed.

Lemma names_nonempty (var : FuzzyVariable) (n : string) (ns : list string) :
  map fst (terms var) = n :: ns -> terms var <> [].
Proof. destruct (terms var); [discriminate|congruence]. Qed.

Lemma fuzz_all_ok (i : list (string * Q)) (incoming waiting : Q) :
  get String.eqb "waiting_cars" i = Some waiting ->
  get String.eqb "incoming_cars" i = Some incoming ->
  exists mv, fuzz_all (antecedents system) i [] = Ok mv /\
             fuzzified incoming waiting mv.
Proof.
  intros Hw Hi.
  destruct (fuzz waiting_cars waiting []) as [mv1|e] eqn:E1.
  2:{ rewrite (fuzz_ok waiting_cars waiting []
                       (names_nonempty _ _ _ waiting_names)) in E1.
      discriminate. }
  destruct (fuzz incoming_cars incoming mv1) as [mv2|e] eqn:E2.
  2:{ rewrite (fuzz_ok incoming_cars incoming mv1
                       (names_nonempty _ _ _ incoming_names)) in E2.
      discriminate. }
  exists mv2. split.
  - change (antecedents system) with [waiting_cars; incoming_cars].
    cbn [fuzz_all].
    change (label waiting_cars) with "waiting_cars".
    change (label incoming_cars) with "incoming_cars".
    rewrite Hw, E1. cbn [bind]. rewrite Hi, E2. reflexivity.
  - split; [|split].
    + intros n Hn.
      rewrite (fuzz_get_other incoming_cars incoming mv1 mv2 ("waiting_cars", n)).
      * exact (fuzz_get_in waiting_cars waiting [] mv1 n waiting_names_nodup Hn E1).
      * change (label incoming_cars) with "incoming_cars". discriminate.
      * exact E2.
    + intros n Hn.
      exact (fuzz_get_in incoming_cars incoming mv1 mv2 n incoming_names_nodup Hn E2).
    + intro n.
      rewrite (fuzz_get_other incoming_cars incoming mv1 mv2 ("wait_time", n)).
      * rewrite (fuzz_get_other waiting_cars waiting [] mv1 ("wait_time", n)).
        -- reflexivity.
        -- change (label waiting_cars) with "waiting_cars". discriminate.
        -- exact E1.
      * change (label incoming_cars) with "incoming_cars". discriminate.
      * exact E2.
Qed.

(** ** Rule firing *)

Lemma membership_value_frame (mv mv' : store) (a : TermPrimitive) :
  (forall t, In t (term_refs a) -> get Term_eqb t mv' = get Term_eqb t mv) ->
  membership_value mv' a = membership_value mv a.
Proof.
  induction a as [t|a IHa b IHb|a IHa b IHb|a IHa]; simpl; intro H.
  - rewrite H; [reflexivity|left; reflexivity].
  - rewrite IHa, IHb; [reflexivity| |];
      intros t Ht; apply H; apply in_or_app; tauto.
  - rewrite IHa, IHb; [reflexivity| |];
      intros t Ht; apply H; apply in_or_app; tauto.
  - rewrite IHa; [reflexivity|exact H].
Qed.

Lemma In_rule_table_names (w i o : string) :
  In (w, i, o) rule_table ->
  In w (map fst (terms waiting_cars)) /\
  In i (map fst (terms incoming_cars)) /\
  In o (map fst (terms wait_time)).
Proof.
  rewrite waiting_names, incoming_names, wait_time_names.
  unfold rule_table. intro H.
  repeat (destruct H as [H|H];
          [injection H as <- <- <-; simpl; tauto|]).
  contradiction.
Qed.

Lemma rule_firing (incoming waiting : Q) (mv : store) (r : Rule) :
  fuzzified incoming waiting mv -> In r rules ->
  aggregate_firing mv r = Ok (firing_strength incoming waiting r).
Proof.
  intros [Hw [Hi _]] Hr.
  destruct (rules_shape r Hr) as [w [i [o [Hin ->]]]].
  destruct (In_rule_table_names w i o Hin) as [Hwn [Hin' _]].
  unfold aggregate_firing, firing_strength, mk_rule. simpl.
  rewrite (Hw w Hwn), (Hi i Hin'). reflexivity.
Qed.

Lemma firing_strength_bounds (incoming waiting : Q) (r : Rule) :
  In r rules -> 0 <= firing_strength incoming waiting r <= 1.
Proof.
  intro Hr. destruct (rules_shape r Hr) as [w [i [o [Hin ->]]]].
  unfold firing_strength, mk_rule, input_degree. simpl.
  pose proof (degree_bounds waiting_cars w waiting waiting_unit_samples) as [A1 A2].
  pose proof (degree_bounds incoming_cars i incoming incoming_unit_samples) as [B1 B2].
  split.
  - apply Qle_trans with (degree waiting_cars w waiting); [exact A1|apply Q.le_max_l].
  - apply Q.max_lub; assumption.
Qed.


(** ** One rule per pair of terms *)

Lemma covers_or_rule (w i w' i' o : string) :
  covers_or w i (or_rule w' i' o) = String.eqb w' w || String.eqb i' i.
Proof.
  unfold covers_or, or_rule, mk_rule. cbn [antecedent holds_at fst snd].
  change (String.eqb "waiting_cars" "waiting_cars") with true.
  change (String.eqb "incoming_cars" "incoming_cars") with true.
  change (String.eqb "waiting_cars" "incoming_cars") with false.
  change (String.eqb "incoming_cars" "waiting_cars") with false.
  cbn [andb orb]. rewrite !orb_false_r. reflexivity.
Qed.

Lemma covers_rule (w i w' i' o : string) :
  covers w i (or_rule w' i' o) = String.eqb w w' && String.eqb i i'.
Proof.
  unfold covers, or_rule, mk_rule, Term_eqb.
  cbn [antecedent term_refs app existsb fst snd].
  change (String.eqb "waiting_cars" "waiting_cars") with true.
  change (String.eqb "incoming_cars" "incoming_cars") with true.
  change (String.eqb "waiting_cars" "incoming_cars") with false.
  change (String.eqb "incoming_cars" "waiting_cars") with false.
  cbn [andb orb]. rewrite !orb_false_r. reflexivity.
Qed.

(** C2, as amended.  The rule base has 25 rules; each of the 5 x 5 pairs
    of a [waiting_cars] term and an [incoming_cars] term is the pair of
    operands of exactly one of them, a rule [waiting_cars[w] |
    incoming_cars[i]] on an output term of [wait_time], so that two rules
    with the same pair of operands are the same rule and have the same
    consequent.  Under the OR semantics the pair is covered by the nine
    rules that name its waiting term or its incoming term. *)
Theorem rule_base_one_rule_per_pair (w i : string) :
  In w (map fst (terms waiting_cars)) ->
  In i (map fst (terms incoming_cars)) ->
  List.length rules = 25%nat /\
  (exists o,
      In o (map fst (terms wait_time)) /\
      In (or_rule w i o) rules /\
      forall r, In r rules -> covers w i r = true -> r = or_rule w i o) /\
  (forall r r' : Rule,
      In r rules -> In r' rules ->
      covers w i r = true -> covers w i r' = true ->
      consequent r = consequent r') /\
  List.length (filter (covers_or w i) rules) = 9%nat /\
  (forall r, In r rules ->
             (covers_or w i r = true <->
              (exists i' o, r = or_rule w i' o) \/ (exists w' o, r = or_rule w' i o))).
Proof.
  intros Hw Hi.
  destruct (named_once w i Hw Hi) as [Hone Hnine].
  assert (Hex : exists o, In o (map fst (terms wait_time)) /\ In (or_rule w i o) rules).
  { destruct (filter (covers w i) rules) as [|r [|r' t]] eqn:E; try discriminate Hone.
    assert (Hr : In r (filter (covers w i) rules)) by (rewrite E; left; reflexivity).
    apply filter_In in Hr. destruct Hr as [Hr Hc].
    destruct (rules_shape r Hr) as [w' [i' [o [Hin ->]]]].
    fold (or_rule w' i' o) in Hc, Hr. rewrite covers_rule in Hc.
    apply andb_true_iff in Hc. destruct Hc as [Ew Ei].
    apply String.eqb_eq in Ew, Ei. subst w' i'.
    exists o. split; [|exact Hr].
    exact (proj2 (proj2 (In_rule_table_names w i o Hin))). }
  destruct Hex as [o [Ho Hin]].
  assert (Huniq : forall r, In r rules -> covers w i r = true -> r = or_rule w i o).
  { intros r Hr Hc.
    apply (filter_unique (covers w i) rules r (or_rule w i o) Hone Hr Hin Hc).
    rewrite covers_rule, !String.eqb_refl. reflexivity. }
  split; [reflexivity|].
  split; [exists o; split; [exact Ho|split; [exact Hin|exact Huniq]]|].
  split.
  { intros r r' Hr Hr' Hc Hc'.
    rewrite (Huniq r Hr Hc), (Huniq r' Hr' Hc'). reflexivity. }
  split; [exact Hnine|].
  intros r Hr. destruct (rules_shape r Hr) as [w' [i' [o' [_ ->]]]].
  fold (or_rule w' i' o'). rewrite covers_or_rule. split.
  - intro H. apply orb_true_iff in H. destruct H as [H|H]; apply String.eqb_eq in H; subst.
    + left. exists i', o'. reflexivity.
    + right. exists w', o'. reflexivity.
  - intros [[i2 [o2 H]]|[w2 [o2 H]]]; inversion H; subst;
      rewrite String.eqb_refl; [reflexivity|apply orb_true_r].
Qed.

Lemma rule_base_one_rule_per_pair_witness :
  List.length rules = 25%nat /\
  (exists o,
      In o (map fst (terms wait_time)) /\
      In (or_rule "heavy" "light" o) rules /\
      forall r, In r rules -> covers "heavy" "light" r = true ->
                r = or_rule "heavy" "light" o) /\
  (forall r r' : Rule,
      In r rules -> In r' rules ->
      covers "heavy" "light" r = true -> covers "heavy" "light" r' = true ->
      consequent r = consequent r') /\
  List.length (filter (covers_or "heavy" "light") rules) = 9%nat /\
  (forall r, In r rules ->
             (covers_or "heavy" "light" r = true <->
              (exists i' o, r = or_rule "heavy" i' o) \/
              (exists w' o, r = or_rule w' "light" o))).
Proof.
  apply (rule_base_one_rule_per_pair "heavy" "light").
  - rewrite waiting_names. simpl. tauto.
  - rewrite incoming_names. simpl. tauto.
Defined.

(** ** Accumulation of the rule activations *)

Section Accumulation.
(** [F r] is the firing strength of rule [r] in the fuzzified store. *)
Variable F : Rule -> Q.

Lemma compute_rule_spec (r : Rule) (mv : store) :
  aggregate_firing mv r = Ok (F r) ->
  exists mv1,
    compute_rule r mv = Ok mv1 /\
    (forall t, t <> consequent r -> get Term_eqb t mv1 = get Term_eqb t mv) /\
    exists v, get Term_eqb (consequent r) mv1 = Some v /\
              forall b, v <= b <->
                        (forall old, get Term_eqb (consequent r) mv = Some old -> old <= b) /\
                        F r * weight r <= b.
Proof.
  intro Hf. unfold compute_rule. rewrite Hf. cbn [bind].
  destruct (get Term_eqb (consequent r) mv) as [old|] eqn:E.
  - eexists. split; [reflexivity|]. split.
    + intros t Hne. apply (get_set_other _ Term_eqb_spec). congruence.
    + eexists. split; [apply (get_set_same _ Term_eqb_spec)|].
      intro b. rewrite Q.max_lub_iff. split.
      * intros [H1 H2]. split; [|exact H1]. intros o Ho. inversion Ho; subst. exact H2.
      * intros [H1 H2]. split; [exact H2|]. apply H1. reflexivity.
  - eexists. split; [reflexivity|]. split.
    + intros t Hne. apply (get_set_other _ Term_eqb_spec). congruence.
    + eexists. split; [apply (get_set_same _ Term_eqb_spec)|].
      intro b. split.
      * intro H. split; [intros o Ho; discriminate|exact H].
      * intros [_ H]. exact H.
Qed.

Lemma compute_rules_spec (rs : list Rule) :
  forall mv,
    separated rs ->
    (forall r, In r rs -> aggregate_firing mv r = Ok (F r)) ->
    exists mv', compute_rules rs mv = Ok mv' /\
                forall t, accumulates F rs mv mv' t.
Proof.
  induction rs as [|r rs IH]; intros mv Hsep Hfire.
  - exists mv. split; [reflexivity|]. intro t. unfold accumulates. reflexivity.
  - destruct (compute_rule_spec r mv (Hfire r (or_introl eq_refl)))
      as [mv1 [Hc [Hother [v1 [Hget1 Hv1]]]]].
    destruct (IH mv1) as [mv' [Hrs Hacc]].
    { intros a b Ha Hb. apply Hsep; right; assumption. }
    { intros r' Hr'. unfold aggregate_firing.
      rewrite (membership_value_frame mv mv1).
      - apply Hfire. right. exact Hr'.
      - intros t Ht. apply Hother. intro E. subst t.
        exact (Hsep r r' (or_introl eq_refl) (or_intror Hr') Ht). }
    exists mv'. split.
    { cbn [compute_rules]. rewrite Hc. cbn [bind]. exact Hrs. }
    intro t. specialize (Hacc t). unfold accumulates in *.
    cbn [existsb]. unfold targets at 1.
    destruct (Term_eqb_spec (consequent r) t) as [Heq|Hne]; cbn [orb].
    + subst t. destruct (existsb (targets (consequent r)) rs) eqn:Ex.
      * destruct Hacc as [v [Hget Hv]]. exists v. split; [exact Hget|].
        intro b. rewrite Hv. split.
        -- intros [H1 H2]. specialize (H1 v1 Hget1). apply Hv1 in H1.
           destruct H1 as [H1 H3]. split; [exact H1|].
           intros r' [<-|Hr'] Hc'; [exact H3|]. apply H2; assumption.
        -- intros [H1 H2]. split.
           ++ intros old Hold. rewrite Hget1 in Hold. inversion Hold; subst.
              apply Hv1. split; [exact H1|]. apply H2; [left|]; reflexivity.
           ++ intros r' Hr' Hc'. apply H2; [right; exact Hr'|exact Hc'].
      * exists v1. split; [rewrite Hacc; exact Hget1|].
        intro b. rewrite Hv1. split.
        -- intros [H1 H2]. split; [exact H1|].
           intros r' [<-|Hr'] Hc'; [exact H2|].
           exfalso. assert (Ht : existsb (targets (consequent r)) rs = true).
           { apply existsb_exists. exists r'. split; [exact Hr'|].
             unfold targets. rewrite Hc'.
             destruct (Term_eqb_spec (consequent r) (consequent r)); congruence. }
           congruence.
        -- intros [H1 H2]. split; [exact H1|]. apply H2; [left|]; reflexivity.
    + destruct (existsb (targets t) rs) eqn:Ex.
      * destruct Hacc as [v [Hget Hv]]. exists v. split; [exact Hget|].
        intro b. rewrite Hv. rewrite (Hother t) by congruence. split.
        -- intros [H1 H2]. split; [exact H1|].
           intros r' [<-|Hr'] Hc'; [contradiction|]. apply H2; assumption.
        -- intros [H1 H2]. split; [exact H1|].
           intros r' Hr' Hc'. apply H2; [right; exact Hr'|exact Hc'].
      * rewrite Hacc. apply Hother. congruence.
Qed.
End Accumulation.

Lemma rules_separated : separated rules.
Proof.
  intros r r' Hr Hr' Hin.
  destruct (rules_shape r Hr) as [w [i [o [_ ->]]]].
  destruct (rules_shape r' Hr') as [w' [i' [o' [_ ->]]]].
  simpl in Hin. destruct Hin as [H|[H|[]]]; discriminate.
Qed.

(** The rules run on the fuzzified store: every output term ends with an
    accumulated cut. *)
Lemma compute_rules_ok (incoming waiting : Q) (mv : store) :
  fuzzified incoming waiting mv ->
  exists mv', compute_rules rules mv = Ok mv' /\
              forall t, accumulates (firing_strength incoming waiting) rules mv mv' t.
Proof.
  intro Hfz. apply compute_rules_spec.
  - exact rules_separated.
  - intros r Hr. exact (rule_firing incoming waiting mv r Hfz Hr).
Qed.

(** ** The aggregated output curve *)

Lemma maximum_map (g h : Q -> Q) (xs : list Q) :
  Np.maximum (map g xs) (map h xs) = map (fun x => Qmax (g x) (h x)) xs.
Proof. induction xs as [|x xs IH]; simpl; [reflexivity|]. rewrite IH. reflexivity. Qed.

Lemma output_mf_fold (var : FuzzyVariable) (mv : store) (xs : list Q)
      (ts : list (string * list Q)) :
  forall g : Q -> Q,
    fold_left (fun out (t : string * list Q) => Np.maximum out (snd t))
              (flat_map
                 (fun t : string * list Q =>
                    match cut_of var mv (fst t) with
                    | None => []
                    | Some cut =>
                        [(fst t,
                          Np.minimum_scalar cut
                            (map (Fuzz.interp_membership (universe var) (snd t)) xs))]
                    end) ts)
              (map g xs)
    = map (fun x => fold_left (agg_step var mv x) ts (g x)) xs.
Proof.
  induction ts as [|t ts IH]; intro g; simpl; [reflexivity|].
  unfold agg_step at 2. destruct (cut_of var mv (fst t)) as [cut|]; simpl.
  - unfold Np.minimum_scalar. rewrite map_map, maximum_map. apply IH.
  - apply IH.
Qed.

Lemma output_mf_aggregated (var : FuzzyVariable) (mv : store) (xs : list Q) :
  output_mf xs (term_mfs var mv xs) = map (aggregated var mv) xs.
Proof.
  unfold output_mf, term_mfs, Np.zeros_like, aggregated.
  apply (output_mf_fold var mv xs (terms var) (fun _ => 0)).
Qed.

Lemma fold_agg_le (var : FuzzyVariable) (mv : store) (x : Q)
      (ts : list (string * list Q)) :
  forall acc b,
    fold_left (agg_step var mv x) ts acc <= b <->
    acc <= b /\
    forall t cut, In t ts -> cut_of var mv (fst t) = Some cut ->
                  Qmin cut (Fuzz.interp_membership (universe var) (snd t) x) <= b.
Proof.
  induction ts as [|t ts IH]; intros acc b; simpl.
  - split; [intro H; split; [exact H|intros ? ? []]|tauto].
  - rewrite IH. unfold agg_step at 1.
    destruct (cut_of var mv (fst t)) as [cut|] eqn:E.
    + rewrite Q.max_lub_iff. split.
      * intros [[H1 H2] H3]. split; [exact H1|].
        intros t' cut' [<-|Hin] Hc; [|eauto].
        rewrite E in Hc. inversion Hc; subst. exact H2.
      * intros [H1 H2]. split; [split; [exact H1|]|]; eauto.
    + split.
      * intros [H1 H2]. split; [exact H1|].
        intros t' cut' [<-|Hin] Hc; [congruence|eauto].
      * intros [H1 H2]. split; [exact H1|]. eauto.
Qed.

Lemma aggregated_nonneg (var : FuzzyVariable) (mv : store) (x : Q) :
  0 <= aggregated var mv x.
Proof.
  assert (H : aggregated var mv x <= aggregated var mv x) by apply Qle_refl.
  unfold aggregated at 1 in H. apply fold_agg_le in H. tauto.
Qed.

Lemma aggregated_ge (var : FuzzyVariable) (mv : store) (x : Q)
      (name : string) (cut : Q) :
  NoDup (map fst (terms var)) ->
  In name (map fst (terms var)) ->
  cut_of var mv name = Some cut ->
  Qmin cut (degree var name x) <= aggregated var mv x.
Proof.
  intros Hnd Hin Hcut.
  assert (H : aggregated var mv x <= aggregated var mv x) by apply Qle_refl.
  unfold aggregated at 1 in H. apply fold_agg_le in H. destruct H as [_ H].
  apply in_map_iff in Hin. destruct Hin as [[n mf] [Hn Hin]]. simpl in Hn. subst n.
  unfold degree. rewrite (In_get _ string_eqb_spec name mf _ Hnd Hin).
  apply (H (name, mf) cut Hin Hcut).
Qed.

(** ** [np.unique] and [np.union1d] keep every value *)

Lemma insert_unique_has (v : Q) (l : list Q) :
  exists v', In v' (Np.insert_unique v l) /\ v' == v.
Proof.
  induction l as [|h t IH]; simpl.
  - exists v. split; [left; reflexivity|reflexivity].
  - destruct (v ?= h) eqn:E.
    + exists h. split; [left; reflexivity|].
      symmetry. apply Qeq_alt. exact E.
    + exists v. split; [left; reflexivity|reflexivity].
    + destruct IH as [v' [Hin Heq]]. exists v'. split; [right; exact Hin|exact Heq].
Qed.

Lemma insert_unique_keeps (v u : Q) (l : list Q) :
  In u l -> In u (Np.insert_unique v l).
Proof.
  induction l as [|h t IH]; simpl; [tauto|].
  intro H. destruct (v ?= h); simpl; tauto.
Qed.

Lemma unique_has (l : list Q) (v : Q) :
  In v l -> exists v', In v' (Np.unique l) /\ v' == v.
Proof.
  induction l as [|h t IH]; simpl; [tauto|].
  intros [<-|Hin].
  - apply insert_unique_has.
  - destruct (IH Hin) as [v' [Hin' Heq]].
    exists v'. split; [apply insert_unique_keeps; exact Hin'|exact Heq].
Qed.

Lemma union1d_has (a b : list Q) (v : Q) :
  In v a -> exists v', In v' (Np.union1d a b) /\ v' == v.
Proof.
  intro H. apply unique_has. apply in_or_app. left. exact H.
Qed.

(** ** Sums *)

Lemma sum_fold_ge (l : list Q) :
  forall acc, Forall (fun y => 0 <= y) l ->
              acc <= fold_left (fun s v => Qred (s + v)) l acc.
Proof.
  induction l as [|y l IH]; intros acc H; simpl; [apply Qle_refl|].
  inversion H as [|? ? Hy Hl]; subst.
  apply Qle_trans with (Qred (acc + y)); [|apply IH; exact Hl].
  pose proof (Qred_correct (acc + y)) as E. lra.
Qed.

Lemma sum_fold_pos (l : list Q) (v : Q) :
  forall acc, 0 <= acc -> Forall (fun y => 0 <= y) l -> In v l -> 0 < v ->
              0 < fold_left (fun s v => Qred (s + v)) l acc.
Proof.
  induction l as [|y l IH]; intros acc Hacc H Hin Hv; simpl; [contradiction|].
  inversion H as [|? ? Hy Hl]; subst.
  destruct Hin as [<-|Hin].
  - apply Qlt_le_trans with (Qred (acc + y)); [|apply sum_fold_ge; exact Hl].
    pose proof (Qred_correct (acc + y)) as E. lra.
  - apply (IH (Qred (acc + y))); try assumption.
    pose proof (Qred_correct (acc + y)) as E. lra.
Qed.

Lemma sum_pos (l : list Q) (v : Q) :
  Forall (fun y => 0 <= y) l -> In v l -> 0 < v -> 0 < Np.sum l.
Proof.
  intros H Hin Hv. unfold Np.sum.
  apply (sum_fold_pos l v 0); [apply Qle_refl|assumption..].
Qed.


(** ** Defuzzification succeeds when a term is cut above zero *)

Lemma degree_compat (var : FuzzyVariable) (name : string) (x x' : Q) :
  x == x' -> degree var name x == degree var name x'.
Proof.
  intro H. unfold degree.
  destruct (get String.eqb name (terms var)); [|reflexivity].
  apply interp_membership_compat; [exact H|apply Forall2_Qeq_refl].
Qed.

Lemma term_mfs_nonempty (var : FuzzyVariable) (mv : store) (xs : list Q)
      (name : string) (cut : Q) :
  In name (map fst (terms var)) ->
  cut_of var mv name = Some cut ->
  term_mfs var mv xs <> [].
Proof.
  intros Hin Hcut. unfold term_mfs.
  induction (terms var) as [|t ts IH]; simpl in *; [contradiction|].
  destruct Hin as [Heq|Hin].
  - rewrite Heq, Hcut. discriminate.
  - destruct (cut_of var mv (fst t)); [discriminate|]. simpl. apply IH. exact Hin.
Qed.

Lemma crisp_defuzz_ok (var : FuzzyVariable) (mv : store)
      (name : string) (cut x : Q) :
  NoDup (map fst (terms var)) ->
  In name (map fst (terms var)) ->
  cut_of var mv name = Some cut -> 0 < cut ->
  In x (universe var) -> 0 < degree var name x ->
  crisp_defuzz var mv = Ok (crisp_value var mv).
Proof.
  intros Hnd Hin Hcut Hpos Hx Hdeg.
  unfold crisp_defuzz, find_memberships.
  rewrite output_mf_aggregated.
  pose proof (term_mfs_nonempty var mv (new_universe var mv) name cut Hin Hcut) as Hne.
  destruct (term_mfs var mv (new_universe var mv)) as [|c cs]; [congruence|].
  unfold Fuzz.defuzz. rewrite length_map, Nat.eqb_refl. cbn [negb].
  destruct (union1d_has (universe var) (new_values var mv) x Hx) as [x' [Hx' Heq]].
  fold (new_universe var mv) in Hx'.
  assert (Hagg : 0 < aggregated var mv x').
  { apply Qlt_le_trans with (Qmin cut (degree var name x')).
    - apply Q.min_glb_lt; [exact Hpos|].
      rewrite (degree_compat var name x' x Heq). exact Hdeg.
    - apply aggregated_ge; assumption. }
  assert (Hsum : 0 < Np.sum (map (aggregated var mv) (new_universe var mv))).
  { apply (sum_pos _ (aggregated var mv x')).
    - apply Forall_forall. intros y Hy. apply in_map_iff in Hy.
      destruct Hy as [z [<- _]]. apply aggregated_nonneg.
    - apply in_map. exact Hx'.
    - exact Hagg. }
  assert (E : Qeq_bool (Np.sum (map (aggregated var mv) (new_universe var mv))) 0 = false).
  { apply Qeq_bool_false. intro E. rewrite E in Hsum. exact (Qlt_irrefl _ Hsum). }
  rewrite E. reflexivity.
Qed.


(** ** The inference on valid inputs *)

Lemma weight_one (r : Rule) : In r rules -> weight r = 1.
Proof.
  intro Hr. destruct (rules_shape r Hr) as [w [i [o [_ ->]]]]. reflexivity.
Qed.

(** Every [waiting_cars] term is OR-ed into some rule for 'long'. *)
Lemma long_rule_for (n : string) :
  In n (map fst (terms waiting_cars)) ->
  exists i, In (n, i, "long") rule_table.
Proof.
  rewrite waiting_names. simpl.
  intros [<-|[<-|[<-|[<-|[<-|[]]]]]].
  - exists "heavy". unfold rule_table. simpl. tauto.
  - exists "excess". unfold rule_table. simpl. tauto.
  - exists "heavy". unfold rule_table. simpl. tauto.
  - exists "average". unfold rule_table. simpl. tauto.
  - exists "light". unfold rule_table. simpl. tauto.
Qed.

Lemma In_rules_of_table (w i o : string) :
  In (w, i, o) rule_table ->
  In (mk_rule (TermOr (TermRef ("waiting_cars", w)) (TermRef ("incoming_cars", i)))
              ("wait_time", o)) rules.
Proof.
  intro H. unfold rules. apply in_map_iff. exists (w, i, o). split; [reflexivity|exact H].
Qed.

Lemma long_cut_positive (incoming waiting : Q) (mv mv' : store) :
  0 <= waiting <= 100 ->
  fuzzified incoming waiting mv ->
  (forall t, accumulates (firing_strength incoming waiting) rules mv mv' t) ->
  exists cut, cut_of wait_time mv' "long" = Some cut /\ 0 < cut.
Proof.
  intros Hw Hfz Hacc.
  specialize (Hacc ("wait_time", "long")). unfold accumulates in Hacc.
  assert (Ex : existsb (targets ("wait_time", "long")) rules = true)
    by (vm_compute; reflexivity).
  rewrite Ex in Hacc. destruct Hacc as [v [Hget Hv]].
  exists v. split; [exact Hget|].
  destruct (waiting_coverage waiting Hw) as [n [Hn Hdeg]].
  destruct (long_rule_for n Hn) as [i Hin].
  pose proof (In_rules_of_table n i "long" Hin) as Hr.
  destruct (Qlt_le_dec 0 v) as [Hpos|Hle]; [exact Hpos|exfalso].
  apply Hv in Hle. destruct Hle as [_ Hle].
  specialize (Hle _ Hr eq_refl).
  unfold firing_strength, mk_rule, input_degree in Hle. simpl in Hle.
  pose proof (Q.le_max_l (degree waiting_cars n waiting) (degree incoming_cars i incoming)).
  lra.
Qed.

Lemma In_150_universe : In 150 (universe wait_time).
Proof.
  rewrite wait_time_universe.
  assert (H : existsb (Q_eqb 150) (Np.arange 0 161) = true) by (vm_compute; reflexivity).
  apply existsb_exists in H. destruct H as [x [Hin Hx]].
  destruct (Q_eqb_spec 150 x); [subst; exact Hin|discriminate].
Qed.

Lemma long_degree_150 : 0 < degree wait_time "long" 150.
Proof. vm_compute. reflexivity. Qed.

Lemma infer_valid (i : list (string * Q)) (incoming waiting : Q) :
  get String.eqb "waiting_cars" i = Some waiting ->
  get String.eqb "incoming_cars" i = Some incoming ->
  0 <= waiting <= 100 ->
  exists mv mv',
    fuzz_all (antecedents system) i [] = Ok mv /\
    fuzzified incoming waiting mv /\
    compute_rules rules mv = Ok mv' /\
    (forall t, accumulates (firing_strength incoming waiting) rules mv mv' t) /\
    infer system i = Ok [("wait_time", crisp_value wait_time mv')].
Proof.
  intros Hw Hi Hvalid.
  destruct (fuzz_all_ok i incoming waiting Hw Hi) as [mv [Hf Hfz]].
  destruct (compute_rules_ok incoming waiting mv Hfz) as [mv' [Hc Hacc]].
  exists mv, mv'. repeat (split; [assumption|]).
  destruct (long_cut_positive incoming waiting mv mv' Hvalid Hfz Hacc)
    as [cut [Hcut Hpos]].
  unfold infer. rewrite Hf. cbn [bind].
  change (Ctrl.rules system) with rules. rewrite Hc. cbn [bind].
  change (consequents system) with [wait_time]. cbn [defuzz_all].
  rewrite (crisp_defuzz_ok wait_time mv' "long" cut 150 wait_time_names_nodup).
  - reflexivity.
  - rewrite wait_time_names. simpl. tauto.
  - exact Hcut.
  - exact Hpos.
  - exact In_150_universe.
  - exact long_degree_150.
Qed.

(** ** The simulation session *)

Lemma filter_waiting :
  filter (fun v => String.eqb (label v) "waiting_cars") (antecedents system)
  = [waiting_cars].
Proof. reflexivity. Qed.

Lemma filter_incoming :
  filter (fun v => String.eqb (label v) "incoming_cars") (antecedents system)
  = [incoming_cars].
Proof. reflexivity. Qed.

Lemma input_bounds :
  Np.amin (Np.arange 0 101) = 0 /\ Np.amax (Np.arange 0 101) = 100.
Proof. split; vm_compute; reflexivity. Qed.

Lemma input_setitem_valid (sim : ControlSystemSimulation) (var : FuzzyVariable)
      (key : string) (value : Q) :
  filter (fun v => String.eqb (label v) key) (antecedents (ctrl sim)) = [var] ->
  universe var = Np.arange 0 101 ->
  0 <= value <= 100 ->
  input_setitem sim key value
  = Ok (with_input sim (set String.eqb key value (input sim))).
Proof.
  intros Hf Hu [H0 H1]. unfold input_setitem. rewrite Hf, Hu.
  destruct input_bounds as [-> ->].
  assert (E1 : Qlt_bool 100 value = false) by (apply Qlt_bool_false; exact H1).
  assert (E2 : Qlt_bool value 0 = false) by (apply Qlt_bool_false; exact H0).
  rewrite E1, E2. reflexivity.
Qed.

Lemma set_both_inputs (i0 : list (string * Q)) (incoming waiting : Q) :
  i0 = [] \/ (exists w i, i0 = [("waiting_cars", w); ("incoming_cars", i)]) ->
  set String.eqb "incoming_cars" incoming (set String.eqb "waiting_cars" waiting i0)
  = [("waiting_cars", waiting); ("incoming_cars", incoming)].
Proof.
  intros [->|[w [i ->]]]; reflexivity.
Qed.

Lemma crisp_of_infer (incoming waiting v : Q) :
  infer system [("waiting_cars", waiting); ("incoming_cars", incoming)]
  = Ok [("wait_time", v)] ->
  crisp incoming waiting = Ok v.
Proof.
  intro H. unfold crisp. rewrite H. reflexivity.
Qed.

Lemma inference_valid (incoming waiting : Q) :
  0 <= waiting <= 100 ->
  exists v, infer system [("waiting_cars", waiting); ("incoming_cars", incoming)]
            = Ok [("wait_time", v)] /\
            crisp incoming waiting = Ok v.
Proof.
  intro Hw.
  destruct (infer_valid [("waiting_cars", waiting); ("incoming_cars", incoming)]
                        incoming waiting eq_refl eq_refl Hw)
    as [mv [mv' [_ [_ [_ [_ Hinf]]]]]].
  exists (crisp_value wait_time mv').
  split; [exact Hinf|apply crisp_of_infer; exact Hinf].
Qed.

Lemma merged_wait_time (v : Q) (o : list (string * Q)) :
  get String.eqb "wait_time" (merge_output [("wait_time", v)] o) = Some v.
Proof.
  unfold merge_output. cbn [fold_left fst snd].
  apply (get_set_same _ string_eqb_spec).
Qed.

Lemma record_run_ok (sim : ControlSystemSimulation) (v w i : Q) :
  session_ok sim ->
  input sim = [("waiting_cars", w); ("incoming_cars", i)] ->
  infer system (input sim) = Ok [("wait_time", v)] ->
  session_ok (record_run sim [("wait_time", v)]) /\
  output_getitem (record_run sim [("wait_time", v)]) "wait_time" = Ok v.
Proof.
  intros [Hctrl [Hclip [Hinp Hcache]]] Hin Hinf. unfold record_run.
  split.
  - destruct (cache sim) eqn:Ec;
      match goal with
      | |- session_ok (if ?c then _ else _) => destruct c
      end;
      unfold session_ok, reset_simulation;
      cbn [ctrl clip_to_bounds input calculated consequent_output];
      (split; [exact Hctrl|split; [exact Hclip|split; [first [left; reflexivity|right; eauto]|]]]);
      try (intros uid H; discriminate H).
    intros uid H. rewrite existsb_app in H. cbn [existsb] in H.
    rewrite orb_false_r in H. apply orb_true_iff in H.
    destruct (id_eqb_spec uid (input sim)) as [Heq|Hne].
    + subst uid. exists [("wait_time", v)]. split; [|exact Hinf].
      apply (get_set_same _ id_eqb_spec).
    + destruct H as [H|H]; [|discriminate H].
      destruct (Hcache uid H) as [out [Hget Ho]].
      exists out. split; [|exact Ho].
      rewrite (get_set_other _ id_eqb_spec); [exact Hget|]. congruence.
  - match goal with
    | |- output_getitem (if ?c then _ else _) _ = _ => destruct c
    end; destruct (cache sim); unfold output_getitem, reset_simulation;
      cbn [output]; rewrite merged_wait_time; reflexivity.
Qed.

Lemma compute_spec (sim : ControlSystemSimulation) (incoming waiting v : Q) :
  session_ok sim ->
  input sim = [("waiting_cars", waiting); ("incoming_cars", incoming)] ->
  infer system (input sim) = Ok [("wait_time", v)] ->
  exists sim',
    compute sim = (Ok tt, sim') /\ session_ok sim' /\
    output_getitem sim' "wait_time" = Ok v.
Proof.
  intros Hok Hin Hinf. unfold compute.
  destruct (cache sim && existsb (id_eqb (input sim)) (calculated sim)) eqn:Ehit.
  - destruct Hok as [Hctrl [Hclip [Hinp Hcache]]].
    apply andb_true_iff in Ehit. destruct Ehit as [_ Ehit].
    destruct (Hcache _ Ehit) as [out [Hget Hout']].
    rewrite Hget. rewrite Hinf in Hout'. inversion Hout'; subst out.
    eexists. split; [reflexivity|]. split.
    + repeat split; assumption.
    + unfold output_getitem, with_output. cbn [output].
      rewrite merged_wait_time. reflexivity.
  - assert (Hinf' : infer (ctrl sim) (input sim) = Ok [("wait_time", v)]).
    { destruct Hok as [Hctrl _]. rewrite Hctrl. exact Hinf. }
    rewrite Hinf'. eexists. split; [reflexivity|].
    exact (record_run_ok sim v waiting incoming Hok Hin Hinf).
Qed.

(** ** [compute_wait_time] on valid inputs *)

(** The method, step by step, when no step raises. *)
Lemma compute_wait_time_steps (st : world) (incoming waiting v : Q)
      (plot_output : bool) (prefix : string)
      (sim1 sim2 sim3 : ControlSystemSimulation) :
  Helpers.validate_input_range incoming "Incoming Cars" = Ok tt ->
  Helpers.validate_input_range waiting "Waiting Cars" = Ok tt ->
  input_setitem (simulation (fst st)) "waiting_cars" waiting = Ok sim1 ->
  input_setitem sim1 "incoming_cars" incoming = Ok sim2 ->
  compute sim2 = (Ok tt, sim3) ->
  output_getitem sim3 "wait_time" = Ok v ->
  compute_wait_time incoming waiting plot_output prefix st
  = call_result v sim3 plot_output prefix (snd st).
Proof.
  intros H1 H2 H3 H4 H5 H6.
  unfold compute_wait_time, mbind, pure_check, set_input, run_compute.
  rewrite H1, H2, H3. cbn [fst snd simulation]. rewrite H4.
  cbn [fst snd simulation]. rewrite H5.
  unfold call_result, after_plot. destruct plot_output.
  - unfold makedirs, savefig, system_call, read_output, plot_outcome.
    cbn [fst snd simulation respond calls].
    fold (plot_path prefix).
    destruct (respond (snd st) (calls (snd st)) (Makedirs "Results" true)) as [[]|e].
    + cbn [fst snd respond calls].
      destruct (respond (snd st) (Makedirs "Results" true :: calls (snd st))
                        (Savefig (plot_path prefix))) as [[]|e].
      * cbn [fst snd simulation]. rewrite H6. reflexivity.
      * reflexivity.
    + reflexivity.
  - unfold ret, read_output. cbn [fst snd simulation].
    rewrite H6. reflexivity.
Qed.

(** A call with both inputs in range computes the crisp value of the
    inference and leaves a well-formed session, with or without the plot;
    only the plotting branch can still raise. *)
Lemma call_valid (st : world) (incoming waiting : Q) :
  session_ok (simulation (fst st)) ->
  0 <= incoming <= 100 -> 0 <= waiting <= 100 ->
  exists v sim',
    crisp incoming waiting = Ok v /\
    session_ok sim' /\
    forall (plot_output : bool) (prefix : string),
      compute_wait_time incoming waiting plot_output prefix st
      = call_result v sim' plot_output prefix (snd st).
Proof.
  intros Hok Hi Hw.
  destruct (inference_valid incoming waiting Hw) as [v [Hinf Hcrisp]].
  destruct Hok as [Hctrl [Hclip [Hinp Hcache]]].
  remember (simulation (fst st)) as sim0 eqn:E0.
  remember (with_input sim0 (set String.eqb "waiting_cars" waiting (input sim0)))
    as sim1 eqn:E1.
  remember (with_input sim1 (set String.eqb "incoming_cars" incoming (input sim1)))
    as sim2 eqn:E2.
  assert (Hc1 : ctrl sim1 = system) by (rewrite E1; exact Hctrl).
  assert (Hin2 : input sim2 = [("waiting_cars", waiting); ("incoming_cars", incoming)]).
  { rewrite E2, E1. unfold with_input. cbn [input]. apply set_both_inputs. exact Hinp. }
  assert (Hok2 : session_ok sim2).
  { unfold session_ok. rewrite Hin2. rewrite E2, E1. unfold with_input.
    cbn [ctrl clip_to_bounds calculated consequent_output].
    split; [exact Hctrl|split; [exact Hclip|split; [right; eauto|exact Hcache]]]. }
  assert (Hinf2 : infer system (input sim2) = Ok [("wait_time", v)])
    by (rewrite Hin2; exact Hinf).
  destruct (compute_spec sim2 incoming waiting v Hok2 Hin2 Hinf2)
    as [sim3 [Hc [Hok3 Hget]]].
  assert (S1 : input_setitem sim0 "waiting_cars" waiting = Ok sim1).
  { rewrite E1. apply (input_setitem_valid sim0 waiting_cars).
    - rewrite Hctrl. exact filter_waiting.
    - exact waiting_universe.
    - exact Hw. }
  assert (S2 : input_setitem sim1 "incoming_cars" incoming = Ok sim2).
  { rewrite E2. apply (input_setitem_valid sim1 incoming_cars).
    - rewrite Hc1. exact filter_incoming.
    - exact incoming_universe.
    - exact Hi. }
  rewrite E0 in S1.
  exists v, sim3. split; [exact Hcrisp|]. split; [exact Hok3|].
  intros plot_output prefix.
  exact (compute_wait_time_steps st incoming waiting v plot_output prefix
           sim1 sim2 sim3
           (validate_input_range_ok incoming "Incoming Cars" Hi)
           (validate_input_range_ok waiting "Waiting Cars" Hw)
           S1 S2 Hc Hget).
Qed.

Lemma call_result_session (v : Q) (sim : ControlSystemSimulation)
      (plot_output : bool) (prefix : string) (fs : FileSystem) :
  simulation (fst (snd (call_result v sim plot_output prefix fs))) = sim.
Proof. unfold call_result, after_plot. destruct plot_output; reflexivity. Qed.

(** Without the plot, the call returns and leaves the file system alone. *)
Lemma call_valid_plain (st : world) (incoming waiting : Q) (prefix : string) :
  session_ok (simulation (fst st)) ->
  0 <= incoming <= 100 -> 0 <= waiting <= 100 ->
  exists v st',
    compute_wait_time incoming waiting false prefix st = (Ok v, st') /\
    crisp incoming waiting = Ok v /\
    session_ok (simulation (fst st')) /\
    snd st' = snd st.
Proof.
  intros Hok Hi Hw.
  destruct (call_valid st incoming waiting Hok Hi Hw) as [v [sim' [Hc [Hok' E]]]].
  exists v, (mkControl sim', snd st). rewrite (E false prefix).
  split; [reflexivity|]. split; [exact Hc|]. split; [exact Hok'|reflexivity].
Qed.

(** Every call, valid or not, returning or not, keeps the session
    well-formed. *)
Lemma call_preserves (st : world) (incoming waiting : Q)
      (plot_output : bool) (prefix : string) :
  session_ok (simulation (fst st)) ->
  session_ok (simulation
                (fst (snd (compute_wait_time incoming waiting plot_output prefix st)))).
Proof.
  intro Hok.
  destruct (validate_input_range_cases incoming "Incoming Cars") as [[Hi _]|[Hi _]].
  - destruct (validate_input_range_cases waiting "Waiting Cars") as [[Hw _]|[Hw _]].
    + destruct (call_valid st incoming waiting Hok Hi Hw) as [v [sim' [_ [Hok' E]]]].
      rewrite (E plot_output prefix), call_result_session. exact Hok'.
    + destruct (invalid_call_unchanged st incoming waiting plot_output prefix
                                              (or_intror Hw)) as [msg E].
      rewrite E. exact Hok.
  - destruct (invalid_call_unchanged st incoming waiting plot_output prefix
                                            (or_introl Hi)) as [msg E].
    rewrite E. exact Hok.
Qed.

Lemma controller_session_ok : session_ok (simulation controller).
Proof.
  unfold session_ok, controller, ControlSystemSimulation_init.
  cbn [simulation ctrl clip_to_bounds input calculated consequent_output].
  split; [reflexivity|split; [reflexivity|split; [left; reflexivity|]]].
  intros uid H. discriminate H.
Qed.

(** On valid inputs a fresh controller returns the crisp value of the
    inference. *)
Lemma wait_time_of_crisp (incoming waiting : Q) :
  0 <= incoming <= 100 -> 0 <= waiting <= 100 ->
  exists v, wait_time_of incoming waiting = Ok v /\ crisp incoming waiting = Ok v.
Proof.
  intros Hi Hw.
  destruct (call_valid_plain (controller, accepting_fs) incoming waiting "output"
                             controller_session_ok Hi Hw) as [v [st' [E [Hc _]]]].
  exists v. unfold wait_time_of, compute_wait_time_default. rewrite E.
  split; [reflexivity|exact Hc].
Qed.

(** The value a fresh controller returns on valid inputs, with the stores
    of the run that produces it. *)
Lemma wait_time_of_value (incoming waiting : Q) :
  0 <= incoming <= 100 -> 0 <= waiting <= 100 ->
  exists mv mv',
    fuzz_all (antecedents system)
             [("waiting_cars", waiting); ("incoming_cars", incoming)] [] = Ok mv /\
    fuzzified incoming waiting mv /\
    compute_rules rules mv = Ok mv' /\
    (forall t, accumulates (firing_strength incoming waiting) rules mv mv' t) /\
    wait_time_of incoming waiting = Ok (crisp_value wait_time mv').
Proof.
  intros Hi Hw.
  destruct (infer_valid [("waiting_cars", waiting); ("incoming_cars", incoming)]
                        incoming waiting eq_refl eq_refl Hw)
    as [mv [mv' [Hf [Hfz [Hc [Hacc Hinf]]]]]].
  exists mv, mv'. repeat (split; [assumption|]).
  destruct (wait_time_of_crisp incoming waiting Hi Hw) as [v [Hv Hcrisp]].
  pose proof (crisp_of_infer incoming waiting _ Hinf) as Hcrisp'.
  rewrite Hv. rewrite <- Hcrisp, Hcrisp'. reflexivity.
Qed.

(** ** Reachability of the division-by-zero guard *)






(** ** Determinism across the session's history *)

Lemma reachable_session_ok (st0 st : world) :
  session_ok (simulation (fst st0)) ->
  reachable_from st0 st ->
  session_ok (simulation (fst st)).
Proof.
  intros H0 Hr. induction Hr as [|st i w p f Hr IH]; [exact H0|].
  apply call_preserves. exact IH.
Qed.

(** C9.  On one engine, whatever calls were made before and in between
    (with or without a plot, returning or not), two calls with the same valid
    inputs return the same wait time: without a plot both return it, and with
    a plot a call returns it too unless creating [Results] or saving the
    figure raises. *)
Theorem repeated_call_same_result
        (fs : FileSystem) (st st' : world) (incoming waiting : Q)
        (p : bool) (f : string) :
  0 <= incoming <= 100 -> 0 <= waiting <= 100 ->
  reachable_from (controller, fs) st ->
  reachable_from (snd (compute_wait_time incoming waiting p f st)) st' ->
  exists v,
    (forall g : string, fst (compute_wait_time incoming waiting false g st) = Ok v) /\
    (forall g : string, fst (compute_wait_time incoming waiting false g st') = Ok v) /\
    (forall g : string, fst (compute_wait_time incoming waiting true g st)
               = after_plot v (fst (plot_outcome g (snd st)))) /\
    (forall g : string, fst (compute_wait_time incoming waiting true g st')
               = after_plot v (fst (plot_outcome g (snd st')))).
Proof.
  intros Hi Hw Hr Hr'.
  assert (Hok : session_ok (simulation (fst st))).
  { apply (reachable_session_ok (controller, fs) st); [|exact Hr].
    exact controller_session_ok. }
  assert (Hok' : session_ok (simulation (fst st'))).
  { apply (reachable_session_ok _ st' (call_preserves st incoming waiting p f Hok) Hr'). }
  destruct (call_valid st incoming waiting Hok Hi Hw) as [v [s1 [Hc [_ E]]]].
  destruct (call_valid st' incoming waiting Hok' Hi Hw) as [v' [s2 [Hc' [_ E']]]].
  assert (Hv : v' = v) by congruence. subst v'.
  exists v. repeat split; intro g.
  - rewrite (E false g). reflexivity.
  - rewrite (E' false g). reflexivity.
  - rewrite (E true g). reflexivity.
  - rewrite (E' true g). reflexivity.
Qed.

Lemma repeated_call_same_result_witness :
  exists v,
    (forall g : string, fst (compute_wait_time 30 70 false g (controller, accepting_fs)) = Ok v) /\
    (forall g : string, fst (compute_wait_time 30 70 false g
                      (snd (compute_wait_time 90 5 true "other"
                              (snd (compute_wait_time 30 70 true "first"
                                      (controller, accepting_fs))))))
               = Ok v) /\
    (forall g : string, fst (compute_wait_time 30 70 true g (controller, accepting_fs))
               = after_plot v (fst (plot_outcome g (snd (controller, accepting_fs))))) /\
    (forall g : string, fst (compute_wait_time 30 70 true g
                      (snd (compute_wait_time 90 5 true "other"
                              (snd (compute_wait_time 30 70 true "first"
                                      (controller, accepting_fs))))))
               = after_plot v (fst (plot_outcome g (snd (snd (compute_wait_time 90 5 true "other"
                                           (snd (compute_wait_time 30 70 true "first"
                                                   (controller, accepting_fs))))))))).
Proof.
  apply (repeated_call_same_result accepting_fs (controller, accepting_fs) _ 30 70
                                   true "first").
  - split; unfold Qle; simpl; lia.
  - split; unfold Qle; simpl; lia.
  - apply reach_here.
  - apply reach_call. apply reach_here.
Defined.

(** ** The plotting branch *)

(** C10, as stated, fails: with the prefix 'a/b' on a file system that has
    no directory [Results/a], the call with the plot raises where the call
    without it returns. *)
Lemma plotting_call_can_fail :
  (exists v, fst (compute_wait_time 5 5 false "a/b" (controller, no_directory_fs)) = Ok v) /\
  fst (compute_wait_time 5 5 true "a/b" (controller, no_directory_fs))
  = Raise (OSError "No such file or directory").
Proof.
  assert (H5 : 0 <= 5 <= 100) by (split; unfold Qle; simpl; lia).
  destruct (call_valid (controller, no_directory_fs) 5 5
                       controller_session_ok H5 H5) as [v [sim' [_ [_ E]]]].
  rewrite (E false "a/b"%string), (E true "a/b"%string).
  split; [exists v; reflexivity|reflexivity].
Qed.

(** C10, as amended.  On an engine in any state its calls can lead to and
    for every valid input pair: the call without the plot returns the crisp
    value of the inference and leaves the file system alone; the call with
    the plot leaves the controller in the same state, asks for [Results]
    ([os.makedirs(..., exist_ok=True)]) and then saves the figure at
    [os.path.join('Results', prefix + '_wait_time.png')], and returns the
    same value when both go through; when one of them raises, that exception
    leaves the method (and the figure is not saved when [Results] could not be
    had). *)
Theorem plot_flag_changes_no_value
        (fs : FileSystem) (st : world) (incoming waiting : Q) (p p' : string) :
  reachable_from (controller, fs) st ->
  0 <= incoming <= 100 -> 0 <= waiting <= 100 ->
  exists v ctl',
    crisp incoming waiting = Ok v /\
    compute_wait_time incoming waiting false p' st = (Ok v, (ctl', snd st)) /\
    (forall e,
        respond (snd st) (calls (snd st)) (Makedirs "Results" true) = Raise e ->
        compute_wait_time incoming waiting true p st
        = (Raise e, (ctl', with_call (Makedirs "Results" true) (snd st)))) /\
    (forall e,
        respond (snd st) (calls (snd st)) (Makedirs "Results" true) = Ok tt ->
        respond (snd st) (Makedirs "Results" true :: calls (snd st))
                (Savefig (plot_path p)) = Raise e ->
        compute_wait_time incoming waiting true p st
        = (Raise e, (ctl', with_plot p (snd st)))) /\
    (respond (snd st) (calls (snd st)) (Makedirs "Results" true) = Ok tt ->
     respond (snd st) (Makedirs "Results" true :: calls (snd st))
             (Savefig (plot_path p)) = Ok tt ->
     compute_wait_time incoming waiting true p st
     = (Ok v, (ctl', with_plot p (snd st)))).
Proof.
  intros Hr Hi Hw.
  assert (Hok : session_ok (simulation (fst st))).
  { apply (reachable_session_ok (controller, fs) st); [|exact Hr].
    exact controller_session_ok. }
  destruct (call_valid st incoming waiting Hok Hi Hw) as [v [sim' [Hc [_ E]]]].
  exists v, (mkControl sim'). split; [exact Hc|].
  split; [exact (E false p')|].
  rewrite (E true p). unfold call_result, after_plot, plot_outcome.
  split; [|split].
  - intros e H. rewrite H. reflexivity.
  - intros e H1 H2. rewrite H1. cbn [fst snd]. rewrite H2. reflexivity.
  - intros H1 H2. rewrite H1. cbn [fst snd]. rewrite H2. reflexivity.
Qed.

Lemma plot_flag_changes_no_value_witness :
  exists v ctl',
    crisp 30 70 = Ok v /\
    compute_wait_time 30 70 false "output" (controller, accepting_fs)
    = (Ok v, (ctl', snd (controller, accepting_fs))) /\
    (forall e,
        respond (snd (controller, accepting_fs)) (calls (snd (controller, accepting_fs)))
                (Makedirs "Results" true) = Raise e ->
        compute_wait_time 30 70 true "case_1" (controller, accepting_fs)
        = (Raise e, (ctl', with_call (Makedirs "Results" true)
                                      (snd (controller, accepting_fs))))) /\
    (forall e,
        respond (snd (controller, accepting_fs)) (calls (snd (controller, accepting_fs)))
                (Makedirs "Results" true) = Ok tt ->
        respond (snd (controller, accepting_fs))
                (Makedirs "Results" true :: calls (snd (controller, accepting_fs)))
                (Savefig (plot_path "case_1")) = Raise e ->
        compute_wait_time 30 70 true "case_1" (controller, accepting_fs)
        = (Raise e, (ctl', with_plot "case_1" (snd (controller, accepting_fs))))) /\
    (respond (snd (controller, accepting_fs)) (calls (snd (controller, accepting_fs)))
             (Makedirs "Results" true) = Ok tt ->
     respond (snd (controller, accepting_fs))
             (Makedirs "Results" true :: calls (snd (controller, accepting_fs)))
             (Savefig (plot_path "case_1")) = Ok tt ->
     compute_wait_time 30 70 true "case_1" (controller, accepting_fs)
     = (Ok v, (ctl', with_plot "case_1" (snd (controller, accepting_fs))))).
Proof.
  apply (plot_flag_changes_no_value accepting_fs (controller, accepting_fs) 30 70
                                    "case_1" "output").
  - apply reach_here.
  - split; unfold Qle; simpl; lia.
  - split; unfold Qle; simpl; lia.
Defined.

(** ** The centroid *)

Lemma segment_exact (x1 y1 x2 y2 : Q) :
  0 <= y1 -> 0 <= y2 ->
  match Fuzz.segment x1 y1 x2 y2 with
  | Some (m, a) =>
      m * a == trapezoid_moment x1 y1 x2 y2 /\ a == trapezoid_area x1 y1 x2 y2
  | None =>
      0 == trapezoid_moment x1 y1 x2 y2 /\ 0 == trapezoid_area x1 y1 x2 y2
  end.
Proof.
  intros H1 H2. unfold Fuzz.segment, trapezoid_moment, trapezoid_area.
  destruct (Qeq_bool y1 0) eqn:E1; destruct (Qeq_bool y2 0) eqn:E2;
    destruct (Qeq_bool x1 x2) eqn:Ex; destruct (Qeq_bool y1 y2) eqn:Ey;
    cbn [andb orb negb];
    repeat match goal with
           | H : Qeq_bool _ _ = true |- _ => apply Qeq_bool_iff in H
           | H : Qeq_bool _ _ = false |- _ => apply Qeq_bool_false in H
           end.
  all: try (exfalso; apply Ey; lra).
  all: try (exfalso; apply E2; lra).
  all: try (exfalso; apply E1; lra).
  all: try (rewrite E1 by assumption).
  all: try (rewrite E2 by assumption).
  all: try (rewrite Ex by assumption).
  all: try (rewrite <- Ey by assumption).
  all: try (split; field; fail).
  assert (P1 : 0 < y1).
  { destruct (Qlt_le_dec 0 y1) as [H|H]; [exact H|]. exfalso. apply E1. lra. }
  split; [field; lra|field].
Qed.

Lemma centroid_loop_exact (xs : list Q) :
  forall ys x1 y1 acc,
    0 <= y1 -> Forall (fun y => 0 <= y) ys ->
    fst (Fuzz.centroid_loop x1 y1 xs ys acc)
    == fst acc + total_moment x1 y1 xs ys /\
    snd (Fuzz.centroid_loop x1 y1 xs ys acc)
    == snd acc + total_area x1 y1 xs ys.
Proof.
  induction xs as [|x2 xs IH]; intros ys x1 y1 acc Hy1 Hys.
  - simpl. split; ring.
  - destruct ys as [|y2 ys]; [simpl; split; ring|].
    inversion Hys as [|? ? Hy2 Hys']; subst.
    cbn [Fuzz.centroid_loop total_moment total_area].
    pose proof (segment_exact x1 y1 x2 y2 Hy1 Hy2) as Hseg.
    destruct (Fuzz.segment x1 y1 x2 y2) as [[m a]|].
    + destruct Hseg as [Hm Ha].
      destruct (IH ys x2 y2 (Qred (fst acc + m * a), Qred (snd acc + a)) Hy2 Hys')
        as [I1 I2].
      cbn [fst snd] in I1, I2.
      pose proof (Qred_correct (fst acc + m * a)) as R1.
      pose proof (Qred_correct (snd acc + a)) as R2.
      split; [rewrite I1, R1, Hm; ring|rewrite I2, R2, Ha; ring].
    + destruct Hseg as [Hm Ha].
      destruct (IH ys x2 y2 acc Hy2 Hys') as [I1 I2].
      split; [rewrite I1, <- Hm; ring|rewrite I2, <- Ha; ring].
Qed.

Lemma totals_compat (xs : list Q) :
  forall ys ys' x1 y1 y1',
    y1 == y1' -> Forall2 Qeq ys ys' ->
    total_moment x1 y1 xs ys == total_moment x1 y1' xs ys' /\
    total_area x1 y1 xs ys == total_area x1 y1' xs ys'.
Proof.
  induction xs as [|x2 xs IH]; intros ys ys' x1 y1 y1' Hy Hys.
  - simpl. split; reflexivity.
  - inversion Hys as [|y2 y2' t t' Hy2 Hys']; subst; [simpl; split; reflexivity|].
    cbn [total_moment total_area].
    destruct (IH t t' x2 y2 y2' Hy2 Hys') as [I1 I2].
    unfold trapezoid_moment, trapezoid_area.
    split; [rewrite I1, Hy, Hy2; reflexivity|rewrite I2, Hy, Hy2; reflexivity].
Qed.

Lemma exact_centroid_compat (xs ys ys' : list Q) :
  Forall2 Qeq ys ys' -> exact_centroid xs ys == exact_centroid xs ys'.
Proof.
  intro H. unfold exact_centroid.
  destruct xs as [|x0 xs]; [reflexivity|].
  inversion H as [|y0 y0' t t' Hy0 Ht]; subst; [reflexivity|].
  destruct (totals_compat xs t t' x0 y0 y0' Hy0 Ht) as [I1 I2].
  rewrite I1, I2. reflexivity.
Qed.

(** On at least two sample points and non-negative degrees, the library's
    centroid loop computes the exact centroid. *)
Lemma centroid_exact (x0 x1 : Q) (xs : list Q) (f : Q -> Q) :
  (forall x, 0 <= f x) ->
  Fuzz.centroid (x0 :: x1 :: xs) (map f (x0 :: x1 :: xs))
  == exact_centroid (x0 :: x1 :: xs) (map f (x0 :: x1 :: xs)).
Proof.
  intro Hf. unfold Fuzz.centroid, exact_centroid. cbn [map].
  destruct (centroid_loop_exact (x1 :: xs) (f x1 :: map f xs) x0 (f x0) (0, 0))
    as [I1 I2].
  - apply Hf.
  - constructor; [apply Hf|]. apply Forall_forall. intros y Hy.
    apply in_map_iff in Hy. destruct Hy as [z [<- _]]. apply Hf.
  - cbn [fst snd] in I1, I2.
    destruct (Fuzz.centroid_loop x0 (f x0) (x1 :: xs) (f x1 :: map f xs) (0, 0))
      as [m a].
    cbn [fst snd] in I1, I2. rewrite I1, I2.
    assert (E1 : 0 + total_moment x0 (f x0) (x1 :: xs) (f x1 :: map f xs)
                 == total_moment x0 (f x0) (x1 :: xs) (f x1 :: map f xs)) by ring.
    assert (E2 : 0 + total_area x0 (f x0) (x1 :: xs) (f x1 :: map f xs)
                 == total_area x0 (f x0) (x1 :: xs) (f x1 :: map f xs)) by ring.
    rewrite E1, E2. reflexivity.
Qed.

(** ** The aggregated curve, rule by rule *)

Lemma fold_max_le (l : list Q) :
  forall a b, fold_left Qmax l a <= b <-> a <= b /\ forall y, In y l -> y <= b.
Proof.
  induction l as [|h t IH]; intros a b; simpl.
  - split; [intro H; split; [exact H|intros y []]|tauto].
  - rewrite IH, Q.max_lub_iff. split.
    + intros [[H1 H2] H3]. split; [exact H1|]. intros y [<-|Hy]; auto.
    + intros [H1 H2]. split; [split; [exact H1|apply H2; left; reflexivity]|].
      intros y Hy. apply H2. right. exact Hy.
Qed.

Lemma max_list_le (l : list Q) (b : Q) :
  l <> [] -> (max_list l <= b <-> forall y, In y l -> y <= b).
Proof.
  destruct l as [|h t]; [congruence|]. intros _. unfold max_list.
  rewrite fold_max_le. split.
  - intros [H1 H2] y [<-|Hy]; auto.
  - intro H. split; [apply H; left; reflexivity|].
    intros y Hy. apply H. right. exact Hy.
Qed.

Lemma Qeq_of_le_iff (x y : Q) : (forall b, x <= b <-> y <= b) -> x == y.
Proof.
  intro H. apply Qle_antisym.
  - apply H. apply Qle_refl.
  - apply H. apply Qle_refl.
Qed.

Lemma targets_true (t : Term) (r : Rule) : targets t r = true <-> consequent r = t.
Proof.
  unfold targets. destruct (Term_eqb_spec (consequent r) t); split; congruence.
Qed.

Lemma wait_time_targeted (name : string) :
  In name (map fst (terms wait_time)) ->
  existsb (targets ("wait_time", name)) rules = true.
Proof.
  rewrite wait_time_names. simpl.
  intros [<-|[<-|[<-|[]]]]; vm_compute; reflexivity.
Qed.

(** After the rules have run, every output term is cut at [term_cut]. *)
Lemma cut_is_term_cut (incoming waiting : Q) (mv mv' : store) (name : string) :
  fuzzified incoming waiting mv ->
  (forall t, accumulates (firing_strength incoming waiting) rules mv mv' t) ->
  In name (map fst (terms wait_time)) ->
  exists cut,
    cut_of wait_time mv' name = Some cut /\
    cut == term_cut incoming waiting name /\
    forall b, cut <= b <->
              forall r, In r rules -> consequent r = ("wait_time", name) ->
                        firing_strength incoming waiting r <= b.
Proof.
  intros [_ [_ Hnone]] Hacc Hname.
  specialize (Hacc ("wait_time", name)). unfold accumulates in Hacc.
  pose proof (wait_time_targeted name Hname) as Ex.
  rewrite Ex in Hacc. destruct Hacc as [v [Hget Hv]].
  assert (Hchar : forall b, v <= b <->
                            forall r, In r rules -> consequent r = ("wait_time", name) ->
                                      firing_strength incoming waiting r <= b).
  { intro b. rewrite Hv. split.
    - intros [_ H] r Hr Hc. specialize (H r Hr Hc).
      rewrite (weight_one r Hr) in H. lra.
    - intro H. split.
      + intros old Hold. rewrite Hnone in Hold. discriminate Hold.
      + intros r Hr Hc. rewrite (weight_one r Hr). specialize (H r Hr Hc). lra. }
  exists v. split; [exact Hget|]. split; [|exact Hchar].
  apply Qeq_of_le_iff. intro b. rewrite Hchar. unfold term_cut.
  rewrite max_list_le.
  - split.
    + intros H y Hy. apply in_map_iff in Hy. destruct Hy as [r [<- Hr]].
      apply filter_In in Hr. destruct Hr as [Hr Ht].
      apply H; [exact Hr|]. apply targets_true. exact Ht.
    + intros H r Hr Hc. apply H. apply in_map.
      apply filter_In. split; [exact Hr|]. apply targets_true. exact Hc.
  - apply existsb_exists in Ex. destruct Ex as [r [Hr Ht]].
    intro E. assert (Hin : In r (filter (targets ("wait_time", name)) rules))
      by (apply filter_In; split; assumption).
    apply (in_map (firing_strength incoming waiting)) in Hin.
    rewrite E in Hin. exact Hin.
Qed.

Lemma rule_consequent (r : Rule) :
  In r rules ->
  exists o, consequent r = ("wait_time", o) /\ In o (map fst (terms wait_time)).
Proof.
  intro Hr. destruct (rules_shape r Hr) as [w [i [o [Hin ->]]]].
  exists o. split; [reflexivity|].
  exact (proj2 (proj2 (In_rule_table_names w i o Hin))).
Qed.

Lemma rules_nonempty : rules <> [].
Proof. unfold rules, rule_table. discriminate. Qed.

(** The curve the engine aggregates term by term is the pointwise maximum
    over the rules of the clipped output terms. *)
Lemma aggregated_is_by_rules (incoming waiting : Q) (mv mv' : store) (x : Q) :
  fuzzified incoming waiting mv ->
  (forall t, accumulates (firing_strength incoming waiting) rules mv mv' t) ->
  aggregated wait_time mv' x == aggregated_by_rules incoming waiting x.
Proof.
  intros Hfz Hacc. apply Qeq_of_le_iff. intro b.
  unfold aggregated, aggregated_by_rules.
  rewrite fold_agg_le, max_list_le.
  2:{ intro E. apply map_eq_nil in E. exact (rules_nonempty E). }
  split.
  - intros [H0 H] y Hy. apply in_map_iff in Hy. destruct Hy as [r [<- Hr]].
    unfold rule_clipped.
    destruct (rule_consequent r Hr) as [o [Hc Ho]]. rewrite Hc. cbn [snd].
    destruct (cut_is_term_cut incoming waiting mv mv' o Hfz Hacc Ho)
      as [cut [Hcut [_ Hchar]]].
    apply in_map_iff in Ho. destruct Ho as [[o' mf] [Heq Hin]].
    simpl in Heq. subst o'.
    specialize (H (o, mf) cut Hin Hcut). cbn [fst snd] in H.
    unfold degree. rewrite (In_get _ string_eqb_spec o mf _ wait_time_names_nodup Hin).
    apply Q.min_le_iff in H. apply Q.min_le_iff. destruct H as [H|H].
    + left. apply (proj1 (Hchar b) H r Hr Hc).
    + right. exact H.
  - intro H. split.
    + destruct rules as [|r0 rs] eqn:E; [exfalso; exact (rules_nonempty E)|].
      assert (Hr0 : In r0 rules) by (rewrite E; left; reflexivity).
      rewrite <- E in H.
      apply Qle_trans with (rule_clipped incoming waiting x r0).
      * unfold rule_clipped. apply Q.min_glb.
        -- exact (proj1 (firing_strength_bounds incoming waiting r0 Hr0)).
        -- exact (proj1 (degree_bounds wait_time _ x wait_time_unit_samples)).
      * apply H. apply in_map. exact Hr0.
    + intros [o mf] cut Hin Hcut. cbn [fst snd] in *.
      assert (Ho : In o (map fst (terms wait_time)))
        by (apply (in_map fst) in Hin; exact Hin).
      destruct (cut_is_term_cut incoming waiting mv mv' o Hfz Hacc Ho)
        as [cut' [Hcut' [_ Hchar]]].
      rewrite Hcut in Hcut'. inversion Hcut'; subst cut'.
      apply Q.min_le_iff.
      destruct (Qlt_le_dec b (Fuzz.interp_membership (universe wait_time) mf x))
        as [Hlt|Hle]; [left|right; exact Hle].
      apply Hchar. intros r Hr Hc.
      assert (Hy : rule_clipped incoming waiting x r <= b)
        by (apply H; apply in_map; exact Hr).
      unfold rule_clipped in Hy. rewrite Hc in Hy. cbn [snd] in Hy.
      unfold degree in Hy.
      rewrite (In_get _ string_eqb_spec o mf _ wait_time_names_nodup Hin) in Hy.
      apply Q.min_le_iff in Hy. destruct Hy as [Hy|Hy]; [exact Hy|lra].
Qed.

(** ** The crisp wait time as a centroid *)

Lemma In_0_universe : In 0 (universe wait_time).
Proof.
  rewrite wait_time_universe.
  assert (H : existsb (Q_eqb 0) (Np.arange 0 161) = true) by (vm_compute; reflexivity).
  apply existsb_exists in H. destruct H as [x [Hin Hx]].
  destruct (Q_eqb_spec 0 x); [subst; exact Hin|discriminate Hx].
Qed.

Lemma two_points (l : list Q) (a b : Q) :
  In a l -> In b l -> ~ a == b -> exists x0 x1 t, l = x0 :: x1 :: t.
Proof.
  destruct l as [|x0 [|x1 t]]; simpl.
  - tauto.
  - intros [<-|[]] [<-|[]] H. exfalso. apply H. reflexivity.
  - intros _ _ _. exists x0, x1, t. reflexivity.
Qed.

Lemma new_universe_two_points (mv : store) :
  exists x0 x1 t, new_universe wait_time mv = x0 :: x1 :: t.
Proof.
  destruct (union1d_has (universe wait_time) (new_values wait_time mv) 0 In_0_universe)
    as [a [Ha Ea]].
  destruct (union1d_has (universe wait_time) (new_values wait_time mv) 150 In_150_universe)
    as [b [Hb Eb]].
  apply (two_points _ a b Ha Hb).
  intro E. rewrite Ea, Eb in E. discriminate E.
Qed.


(** ** Values at particular inputs *)

Lemma crisp_at_0_0 : exists v, crisp 0 0 = Ok v /\ v == 2063176 # 24207.
Proof.
  assert (Hc : match crisp 0 0 with
               | Ok v => Qeq_bool v (2063176 # 24207)
               | Raise _ => false
               end = true) by (vm_compute; reflexivity).
  destruct (crisp 0 0) as [v|e]; [|discriminate Hc].
  exists v. split; [reflexivity|]. apply Qeq_bool_iff. exact Hc.
Qed.

Lemma crisp_at_0_5 : exists v, crisp 0 5 = Ok v /\ v == 2355251 # 27890.
Proof.
  assert (Hc : match crisp 0 5 with
               | Ok v => Qeq_bool v (2355251 # 27890)
               | Raise _ => false
               end = true) by (vm_compute; reflexivity).
  destruct (crisp 0 5) as [v|e]; [|discriminate Hc].
  exists v. split; [reflexivity|]. apply Qeq_bool_iff. exact Hc.
Qed.

Lemma crisp_at_5_5 : exists v, crisp 5 5 = Ok v /\ v == 18366077 # 216090.
Proof.
  assert (Hc : match crisp 5 5 with
               | Ok v => Qeq_bool v (18366077 # 216090)
               | Raise _ => false
               end = true) by (vm_compute; reflexivity).
  destruct (crisp 5 5) as [v|e]; [|discriminate Hc].
  exists v. split; [reflexivity|]. apply Qeq_bool_iff. exact Hc.
Qed.

Lemma sample_centroid_at_5_5 :
  sample_centroid (universe wait_time)
                  (map (aggregated_by_rules 5 5) (universe wait_time))
  == 6121591 # 72025.
Proof. apply Qeq_bool_iff. vm_compute. reflexivity. Qed.

Lemma wait_time_of_is_crisp (incoming waiting v : Q) :
  0 <= incoming <= 100 -> 0 <= waiting <= 100 ->
  crisp incoming waiting = Ok v -> wait_time_of incoming waiting = Ok v.
Proof.
  intros Hi Hw Hc.
  destruct (wait_time_of_crisp incoming waiting Hi Hw) as [v' [Hv Hc']].
  rewrite Hv. rewrite <- Hc, <- Hc'. reflexivity.
Qed.

Lemma valid_0 : 0 <= 0 <= 100.
Proof. split; unfold Qle; simpl; lia. Qed.

Lemma valid_5 : 0 <= 5 <= 100.
Proof. split; unfold Qle; simpl; lia. Qed.

(** C5, as stated, fails at incoming = 5, waiting = 5: the returned wait
    time is 18366077/216090, the sample-weighted mean over the 161 points is
    6121591/72025. *)
Lemma sample_centroid_differs :
  exists v,
    wait_time_of 5 5 = Ok v /\
    ~ v == sample_centroid (universe wait_time)
                           (map (aggregated_by_rules 5 5) (universe wait_time)).
Proof.
  destruct crisp_at_5_5 as [v [Hc Hv]].
  exists v. split; [exact (wait_time_of_is_crisp 5 5 v valid_5 valid_5 Hc)|].
  rewrite Hv, sample_centroid_at_5_5. intro E. discriminate E.
Qed.

(** ** The wait time at the origin *)



(** ** Monotonicity *)

(** C1, as stated, fails: with incoming = 0, raising waiting from 0 to 5
    lowers the returned wait time (from 2063176/24207 to 2355251/27890). *)
Lemma more_waiting_shorter_wait :
  exists v v',
    wait_time_of 0 0 = Ok v /\ wait_time_of 0 5 = Ok v' /\ v' < v.
Proof.
  destruct crisp_at_0_0 as [v [Hc Hv]].
  destruct crisp_at_0_5 as [v' [Hc' Hv']].
  exists v, v'.
  split; [exact (wait_time_of_is_crisp 0 0 v valid_0 valid_0 Hc)|].
  split; [exact (wait_time_of_is_crisp 0 5 v' valid_0 valid_5 Hc')|].
  rewrite Hv, Hv'. reflexivity.
Qed.

Lemma grid_values :
  forallb (fun iw : Q * Q =>
             match crisp (fst iw) (snd iw) with
             | Ok v => Qeq_bool v (peak_output iw)
             | Raise _ => false
             end)
          (list_prod grid grid) = true.
Proof. vm_compute. reflexivity. Qed.

Lemma grid_valid (x : Q) : In x grid -> 0 <= x <= 100.
Proof.
  unfold grid. simpl.
  intros [<-|[<-|[<-|[<-|[<-|[]]]]]]; split; unfold Qle; simpl; lia.
Qed.

Lemma grid_value (i w v : Q) :
  In i grid -> In w grid -> crisp i w = Ok v -> v == peak_output (i, w).
Proof.
  intros Hi Hw Hc. pose proof grid_values as H.
  rewrite forallb_forall in H.
  specialize (H (i, w) (in_prod grid grid i w Hi Hw)).
  cbn [fst snd] in H. rewrite Hc in H. apply Qeq_bool_iff. exact H.
Qed.

Lemma peak_output_monotone (i w i' w' : Q) :
  i <= i' -> w <= w' -> peak_output (i, w) <= peak_output (i', w').
Proof.
  intros Hi Hw. unfold peak_output. cbn [fst snd].
  destruct (Qle_bool 50 i) eqn:A; destruct (Qle_bool 75 w) eqn:B;
    destruct (Qle_bool 50 i') eqn:A'; destruct (Qle_bool 75 w') eqn:B';
    cbn [andb];
    try (unfold Qle; simpl; lia);
    repeat match goal with
           | H : Qle_bool _ _ = true |- _ => apply Qle_bool_iff in H
           | H : Qle_bool _ _ = false |- _ => apply Qle_bool_false in H
           end; lra.
Qed.

(** C1, as amended.  On inputs taken at the peaks of the input terms
    (0, 25, 50, 75, 100), the returned wait time is monotone: raising either
    input never lowers it. *)
Theorem monotone_on_peaks (incoming waiting incoming' waiting' : Q) :
  In incoming grid -> In waiting grid ->
  In incoming' grid -> In waiting' grid ->
  incoming <= incoming' -> waiting <= waiting' ->
  exists v v',
    wait_time_of incoming waiting = Ok v /\
    wait_time_of incoming' waiting' = Ok v' /\
    v <= v'.
Proof.
  intros Hi Hw Hi' Hw' Hle1 Hle2.
  destruct (wait_time_of_crisp incoming waiting (grid_valid _ Hi) (grid_valid _ Hw))
    as [v [Hv Hc]].
  destruct (wait_time_of_crisp incoming' waiting' (grid_valid _ Hi') (grid_valid _ Hw'))
    as [v' [Hv' Hc']].
  exists v, v'. split; [exact Hv|]. split; [exact Hv'|].
  rewrite (grid_value incoming waiting v Hi Hw Hc).
  rewrite (grid_value incoming' waiting' v' Hi' Hw' Hc').
  apply peak_output_monotone; assumption.
Qed.

Lemma monotone_on_peaks_witness :
  exists v v',
    wait_time_of 25 50 = Ok v /\
    wait_time_of 75 100 = Ok v' /\
    v <= v'.
Proof.
  apply (monotone_on_peaks 25 50 75 100).
  - unfold grid. simpl. tauto.
  - unfold grid. simpl. tauto.
  - unfold grid. simpl. tauto.
  - unfold grid. simpl. tauto.
  - unfold Qle. simpl. lia.
  - unfold Qle. simpl. lia.
Defined.

(** * Further properties of the controller *)

(** ** When a call returns *)

Lemma fresh_reachable_ok (fs : FileSystem) (st : world) :
  reachable_from (controller, fs) st -> session_ok (simulation (fst st)).
Proof.
  intro Hr. apply (reachable_session_ok (controller, fs) st); [|exact Hr].
  exact controller_session_ok.
Qed.

Lemma valid_or_not (x : Q) : 0 <= x <= 100 \/ ~ (0 <= x <= 100).
Proof.
  destruct (validate_input_range_cases x "x") as [[H _]|[H _]]; [left|right]; exact H.
Qed.

Lemma call_result_raises (v : Q) (sim : ControlSystemSimulation)
      (plot_output : bool) (prefix : string) (fs : FileSystem) (e : exn) :
  fst (call_result v sim plot_output prefix fs) = Raise e ->
  plot_output = true /\ fst (plot_outcome prefix fs) = Raise e.
Proof.
  unfold call_result, after_plot. destruct plot_output; [|intro H; discriminate H].
  cbn [fst]. destruct (fst (plot_outcome prefix fs)) as [[]|e'];
    intro H; [discriminate H|].
  inversion H; subst. split; reflexivity.
Qed.

(** X1.  On an engine in any state its calls can lead to, a call without
    the plot returns a wait time exactly when both inputs lie in [0, 100], and
    raises the validator's [ValueError] exactly when one does not; with the
    plot, an exception that leaves the method is that [ValueError] (an input
    is out of range) or, on valid inputs, the exception that creating
    [Results] or saving the figure raised.  No error of the inference, of the
    defuzzification or of a missing output ever leaves the method. *)
Theorem returns_iff_valid
        (fs : FileSystem) (st : world) (incoming waiting : Q) (prefix : string) :
  reachable_from (controller, fs) st ->
  ((0 <= incoming <= 100 /\ 0 <= waiting <= 100) <->
   exists v, fst (compute_wait_time incoming waiting false prefix st) = Ok v) /\
  (~ (0 <= incoming <= 100 /\ 0 <= waiting <= 100) <->
   exists msg, fst (compute_wait_time incoming waiting false prefix st)
               = Raise (ValueError msg)) /\
  (forall e, fst (compute_wait_time incoming waiting true prefix st) = Raise e ->
             (~ (0 <= incoming <= 100 /\ 0 <= waiting <= 100) /\
              exists msg, e = ValueError msg) \/
             ((0 <= incoming <= 100 /\ 0 <= waiting <= 100) /\
              fst (plot_outcome prefix (snd st)) = Raise e)).
Proof.
  intro Hr.
  pose proof (fresh_reachable_ok fs st Hr) as Hok.
  assert (Hgood : 0 <= incoming <= 100 /\ 0 <= waiting <= 100 ->
                  exists v, fst (compute_wait_time incoming waiting false prefix st)
                            = Ok v).
  { intros [Hi Hw].
    destruct (call_valid_plain st incoming waiting prefix Hok Hi Hw)
      as [v [st' [E _]]].
    exists v. rewrite E. reflexivity. }
  assert (Hor : ~ (0 <= incoming <= 100 /\ 0 <= waiting <= 100) ->
                ~ (0 <= incoming <= 100) \/ ~ (0 <= waiting <= 100)).
  { intro H.
    destruct (valid_or_not incoming) as [Hi|Hi]; [|left; exact Hi].
    destruct (valid_or_not waiting) as [Hw|Hw]; [|right; exact Hw].
    exfalso. apply H. split; assumption. }
  assert (Hbad : forall plot_output,
             ~ (0 <= incoming <= 100 /\ 0 <= waiting <= 100) ->
             exists msg, fst (compute_wait_time incoming waiting plot_output prefix st)
                         = Raise (ValueError msg)).
  { intros plot_output H.
    destruct (invalid_call_unchanged st incoming waiting plot_output prefix (Hor H))
      as [msg E].
    exists msg. rewrite E. reflexivity. }
  assert (Hdec : (0 <= incoming <= 100 /\ 0 <= waiting <= 100)
                 \/ ~ (0 <= incoming <= 100 /\ 0 <= waiting <= 100)).
  { destruct (valid_or_not incoming) as [Hi|Hi]; [|right; tauto].
    destruct (valid_or_not waiting) as [Hw|Hw]; [left; tauto|right; tauto]. }
  split; [split; [exact Hgood|]|split; [split; [exact (Hbad false)|]|]].
  - intros [v Hv]. destruct Hdec as [H|H]; [exact H|].
    destruct (Hbad false H) as [msg E]. rewrite E in Hv. discriminate Hv.
  - intros [msg Hm] H. destruct (Hgood H) as [v E].
    rewrite E in Hm. discriminate Hm.
  - intros e He. destruct Hdec as [[Hi Hw]|H].
    + right. split; [split; assumption|].
      destruct (call_valid st incoming waiting Hok Hi Hw) as [v [sim' [_ [_ E]]]].
      rewrite (E true prefix) in He.
      exact (proj2 (call_result_raises v sim' true prefix (snd st) e He)).
    + left. split; [exact H|].
      destruct (Hbad true H) as [msg E]. rewrite E in He.
      inversion He; subst. exists msg. reflexivity.
Qed.

Lemma returns_iff_valid_witness :
  ((0 <= 101 <= 100 /\ 0 <= 3 <= 100) <->
   exists v, fst (compute_wait_time 101 3 false "x"
                    (snd (compute_wait_time 5 5 true "a/b" (controller, no_directory_fs))))
             = Ok v) /\
  (~ (0 <= 101 <= 100 /\ 0 <= 3 <= 100) <->
   exists msg, fst (compute_wait_time 101 3 false "x"
                      (snd (compute_wait_time 5 5 true "a/b" (controller, no_directory_fs))))
               = Raise (ValueError msg)) /\
  (forall e, fst (compute_wait_time 101 3 true "x"
                    (snd (compute_wait_time 5 5 true "a/b" (controller, no_directory_fs))))
             = Raise e ->
             (~ (0 <= 101 <= 100 /\ 0 <= 3 <= 100) /\
              exists msg, e = ValueError msg) \/
             ((0 <= 101 <= 100 /\ 0 <= 3 <= 100) /\
              fst (plot_outcome "x"
                     (snd (snd (compute_wait_time 5 5 true "a/b"
                                  (controller, no_directory_fs)))))
              = Raise e)).
Proof.
  apply (returns_iff_valid no_directory_fs _ 101 3 "x").
  apply reach_call. apply reach_here.
Defined.

(** ** The wait time lies in the output universe *)

Lemma crossing_between (x0 x1 m0 m1 y : Q) :
  xorb (Fuzz.above y m0) (Fuzz.above y m1) = true ->
  x0 <= x1 ->
  x0 <= x0 + (y - m0) * (x1 - x0) / (m1 - m0) <= x1.
Proof.
  intros Hx Hle.
  assert (Hcases : (m0 <= y /\ y <= m1 /\ m0 < m1) \/ (m1 <= y /\ y <= m0 /\ m1 < m0)).
  { unfold Fuzz.above in Hx.
    destruct (Qeq_bool y 0) eqn:E0.
    - destruct (Qlt_bool y m0) eqn:A0; destruct (Qlt_bool y m1) eqn:A1;
        try discriminate Hx;
        repeat match goal with
               | H : Qlt_bool _ _ = true |- _ => apply Qlt_bool_true in H
               | H : Qlt_bool _ _ = false |- _ => apply Qlt_bool_false in H
               end; [right|left]; repeat split; lra.
    - destruct (Qle_bool y m0) eqn:A0; destruct (Qle_bool y m1) eqn:A1;
        try discriminate Hx;
        repeat match goal with
               | H : Qle_bool _ _ = true |- _ => apply Qle_bool_iff in H
               | H : Qle_bool _ _ = false |- _ => apply Qle_bool_false in H
               end; [right|left]; repeat split; lra. }
  set (t := (y - m0) / (m1 - m0)).
  assert (Ht : 0 <= t <= 1).
  { unfold t. destruct Hcases as [[A [B C]]|[A [B C]]].
    - split; [apply Qle_shift_div_l; lra|apply Qle_shift_div_r; lra].
    - assert (E : (y - m0) / (m1 - m0) == (m0 - y) / (m0 - m1)) by (field; lra).
      rewrite E. split; [apply Qle_shift_div_l; lra|apply Qle_shift_div_r; lra]. }
  assert (E : x0 + (y - m0) * (x1 - x0) / (m1 - m0) == x0 + t * (x1 - x0)).
  { unfold t. destruct Hcases as [[A [B C]]|[A [B C]]]; field; lra. }
  rewrite E. destruct Ht as [T0 T1]. split; nra.
Qed.

Lemma interp_universe_from_bounds (lo hi y : Q) (xs : list Q) :
  forall ms x0 m0 v,
    StronglySorted Qlt (x0 :: xs) ->
    Forall (fun x => lo <= x <= hi) (x0 :: xs) ->
    In v (Fuzz.interp_universe_from x0 m0 xs ms y) ->
    lo <= v <= hi.
Proof.
  induction xs as [|x1 xs IH]; intros ms x0 m0 v Hs Hb Hin; simpl in Hin.
  - contradiction.
  - destruct ms as [|m1 ms]; [contradiction|].
    inversion Hs as [|? ? Hs' Hall]; subst.
    inversion Hb as [|? ? Hb0 Hb']; subst.
    assert (Hrec : In v (Fuzz.interp_universe_from x1 m1 xs ms y) -> lo <= v <= hi).
    { intro H. apply (IH ms x1 m1 v Hs' Hb' H). }
    destruct (xorb (Fuzz.above y m0) (Fuzz.above y m1)) eqn:Ex; [|exact (Hrec Hin)].
    destruct Hin as [<-|Hin]; [|exact (Hrec Hin)].
    inversion Hall as [|? ? H01 _]; subst.
    inversion Hb' as [|? ? Hb1 _]; subst.
    pose proof (crossing_between x0 x1 m0 m1 y Ex (Qlt_le_weak _ _ H01)) as [C0 C1].
    split; lra.
Qed.

Lemma insert_unique_In (v u : Q) (l : list Q) :
  In u (Np.insert_unique v l) -> u = v \/ In u l.
Proof.
  induction l as [|h t IH]; simpl.
  - intros [<-|[]]. left. reflexivity.
  - destruct (v ?= h); simpl.
    + tauto.
    + intros [<-|H]; tauto.
    + intros [<-|H]; [tauto|]. destruct (IH H); tauto.
Qed.

Lemma unique_In (l : list Q) (u : Q) : In u (Np.unique l) -> In u l.
Proof.
  induction l as [|h t IH]; simpl; [tauto|].
  intro H. destruct (insert_unique_In h u _ H) as [->|H']; [left; reflexivity|].
  right. apply IH. exact H'.
Qed.

Lemma insert_unique_sorted (v : Q) (l : list Q) :
  StronglySorted Qlt l -> StronglySorted Qlt (Np.insert_unique v l).
Proof.
  induction 1 as [|h t Hs IH Hall]; simpl.
  - constructor; constructor.
  - destruct (v ?= h) eqn:E.
    + constructor; assumption.
    + apply Qlt_alt in E. constructor; [constructor; assumption|].
      constructor; [exact E|].
      apply Forall_forall. intros z Hz. rewrite Forall_forall in Hall.
      apply Qlt_trans with h; [exact E|apply Hall; exact Hz].
    + apply Qgt_alt in E. constructor; [exact IH|].
      apply Forall_forall. intros z Hz.
      destruct (insert_unique_In v z t Hz) as [->|Hz']; [exact E|].
      rewrite Forall_forall in Hall. apply Hall. exact Hz'.
Qed.

Lemma unique_sorted (l : list Q) : StronglySorted Qlt (Np.unique l).
Proof.
  induction l as [|h t IH]; simpl; [constructor|].
  apply insert_unique_sorted. exact IH.
Qed.

Lemma arange_from_spec (n : nat) :
  forall s x, In x (Np.arange_from s n) ->
              exists k, x = inject_Z k /\ (s <= k < s + Z.of_nat n)%Z.
Proof.
  induction n as [|n IH]; intros s x H; simpl in H; [contradiction|].
  destruct H as [<-|H].
  - exists s. split; [reflexivity|lia].
  - destruct (IH (s + 1)%Z x H) as [k [-> Hk]]. exists k. split; [reflexivity|lia].
Qed.

Lemma arange_from_sorted (n : nat) :
  forall s, StronglySorted Qlt (Np.arange_from s n).
Proof.
  induction n as [|n IH]; intro s; simpl; constructor.
  - apply IH.
  - apply Forall_forall. intros x Hx.
    destruct (arange_from_spec n (s + 1)%Z x Hx) as [k [-> Hk]].
    rewrite <- Zlt_Qlt. lia.
Qed.

Lemma wait_time_universe_bounds :
  Forall (fun x => 0 <= x <= 160) (universe wait_time).
Proof.
  rewrite wait_time_universe. apply Forall_forall. intros x Hx.
  unfold Np.arange in Hx.
  destruct (arange_from_spec _ _ x Hx) as [k [-> Hk]].
  change 0 with (inject_Z 0). change 160 with (inject_Z 160).
  rewrite <- !Zle_Qle. simpl in Hk. lia.
Qed.

Lemma wait_time_universe_sorted : StronglySorted Qlt (universe wait_time).
Proof. rewrite wait_time_universe. apply arange_from_sorted. Qed.

(** Every sample point of the upsampled output universe lies in
    [0, 160]. *)
Lemma new_universe_bounds (mv : store) :
  Forall (fun x => 0 <= x <= 160) (new_universe wait_time mv).
Proof.
  apply Forall_forall. intros x Hx. unfold new_universe, Np.union1d in Hx.
  apply unique_In in Hx. apply in_app_or in Hx.
  pose proof wait_time_universe_bounds as Hb.
  destruct Hx as [Hx|Hx].
  - rewrite Forall_forall in Hb. apply Hb. exact Hx.
  - unfold new_values in Hx. apply in_flat_map in Hx.
    destruct Hx as [[name mf] [_ Hx]]. cbn [fst snd] in Hx.
    destruct (cut_of wait_time mv name) as [cut|]; [|contradiction].
    unfold Fuzz.interp_universe in Hx.
    pose proof wait_time_universe_sorted as Hs.
    destruct (universe wait_time) as [|x0 xs]; [contradiction|].
    destruct mf as [|m0 ms]; [contradiction|].
    apply unique_In in Hx.
    exact (interp_universe_from_bounds 0 160 cut xs ms x0 m0 x Hs Hb Hx).
Qed.

Lemma trapezoid_bounds (x1 y1 x2 y2 : Q) :
  x1 <= x2 -> 0 <= y1 -> 0 <= y2 ->
  0 <= trapezoid_area x1 y1 x2 y2 /\
  x1 * trapezoid_area x1 y1 x2 y2 <= trapezoid_moment x1 y1 x2 y2 /\
  trapezoid_moment x1 y1 x2 y2 <= x2 * trapezoid_area x1 y1 x2 y2.
Proof.
  intros Hx H1 H2. unfold trapezoid_area, trapezoid_moment.
  assert (E1 : (x2 - x1) * (x1 * (2 * y1 + y2) + x2 * (y1 + 2 * y2)) / 6
               - x1 * ((x2 - x1) * (y1 + y2) / 2)
               == (x2 - x1) * (x2 - x1) * (y1 + 2 * y2) / 6) by field.
  assert (E2 : x2 * ((x2 - x1) * (y1 + y2) / 2)
               - (x2 - x1) * (x1 * (2 * y1 + y2) + x2 * (y1 + 2 * y2)) / 6
               == (x2 - x1) * (x2 - x1) * (2 * y1 + y2) / 6) by field.
  assert (P0 : 0 <= (x2 - x1) * (y1 + y2) / 2).
  { apply Qle_shift_div_l; [reflexivity|]. nra. }
  assert (P1 : 0 <= (x2 - x1) * (x2 - x1) * (y1 + 2 * y2) / 6).
  { apply Qle_shift_div_l; [reflexivity|].
    assert (0 <= (x2 - x1) * (x2 - x1)) by nra. nra. }
  assert (P2 : 0 <= (x2 - x1) * (x2 - x1) * (2 * y1 + y2) / 6).
  { apply Qle_shift_div_l; [reflexivity|].
    assert (0 <= (x2 - x1) * (x2 - x1)) by nra. nra. }
  split; [exact P0|]. split; lra.
Qed.

Lemma totals_bounds (lo hi : Q) (xs : list Q) :
  forall ys x1 y1,
    StronglySorted Qlt (x1 :: xs) ->
    Forall (fun x => lo <= x <= hi) (x1 :: xs) ->
    0 <= lo -> 0 <= y1 -> Forall (fun y => 0 <= y) ys ->
    0 <= total_area x1 y1 xs ys /\
    lo * total_area x1 y1 xs ys <= total_moment x1 y1 xs ys /\
    total_moment x1 y1 xs ys <= hi * total_area x1 y1 xs ys.
Proof.
  induction xs as [|x2 xs IH]; intros ys x1 y1 Hs Hb Hlo Hy1 Hys.
  - simpl. repeat split; lra.
  - destruct ys as [|y2 ys]; [simpl; repeat split; lra|].
    inversion Hs as [|? ? Hs' Hall]; subst.
    inversion Hb as [|? ? Hb1 Hb']; subst.
    inversion Hys as [|? ? Hy2 Hys']; subst.
    inversion Hall as [|? ? H12 _]; subst.
    inversion Hb' as [|? ? Hb2 _]; subst.
    destruct (IH ys x2 y2 Hs' Hb' Hlo Hy2 Hys') as [A [B C]].
    destruct (trapezoid_bounds x1 y1 x2 y2 (Qlt_le_weak _ _ H12) Hy1 Hy2) as [A' [B' C']].
    cbn [total_area total_moment].
    set (a := trapezoid_area x1 y1 x2 y2) in *.
    set (m := trapezoid_moment x1 y1 x2 y2) in *.
    set (ta := total_area x2 y2 xs ys) in *.
    set (tm := total_moment x2 y2 xs ys) in *.
    destruct Hb1 as [L1 U1]. destruct Hb2 as [L2 U2].
    split; [lra|]. split; nra.
Qed.

Lemma eps_positive : 0 < Np.eps.
Proof. reflexivity. Qed.

Lemma exact_centroid_bounds (hi : Q) (xs ys : list Q) :
  StronglySorted Qlt xs ->
  Forall (fun x => 0 <= x <= hi) xs ->
  Forall (fun y => 0 <= y) ys ->
  0 <= hi ->
  0 <= exact_centroid xs ys <= hi.
Proof.
  intros Hs Hb Hy Hhi. unfold exact_centroid.
  destruct xs as [|x0 xs]; [split; lra|].
  destruct ys as [|y0 ys]; [split; lra|].
  inversion Hy as [|? ? Hy0 Hys]; subst.
  destruct (totals_bounds 0 hi xs ys x0 y0 Hs Hb (Qle_refl 0) Hy0 Hys) as [A [B C]].
  set (ta := total_area x0 y0 xs ys) in *.
  set (tm := total_moment x0 y0 xs ys) in *.
  pose proof eps_positive as He.
  assert (Hd : 0 < Qmax ta Np.eps).
  { apply Qlt_le_trans with Np.eps; [exact He|apply Q.le_max_r]. }
  assert (Hta : ta <= Qmax ta Np.eps) by apply Q.le_max_l.
  split.
  - apply Qle_shift_div_l; [exact Hd|]. lra.
  - apply Qle_shift_div_r; [exact Hd|]. nra.
Qed.

Lemma crisp_within_universe (incoming waiting v : Q) :
  0 <= incoming <= 100 -> 0 <= waiting <= 100 ->
  crisp incoming waiting = Ok v ->
  0 <= v <= 160.
Proof.
  intros Hi Hw Hc.
  pose proof (wait_time_of_is_crisp incoming waiting v Hi Hw Hc) as Hv.
  destruct (wait_time_of_value incoming waiting Hi Hw)
    as [mv [mv' [_ [_ [_ [_ Hv']]]]]].
  rewrite Hv' in Hv. inversion Hv; subst v. clear Hv.
  unfold crisp_value.
  pose proof (new_universe_bounds mv') as Hb.
  pose proof (unique_sorted (universe wait_time ++ new_values wait_time mv')) as Hs.
  fold (Np.union1d (universe wait_time) (new_values wait_time mv')) in Hs.
  fold (new_universe wait_time mv') in Hs.
  destruct (new_universe_two_points mv') as [x0 [x1 [t E]]].
  rewrite E in *.
  rewrite (centroid_exact x0 x1 t (aggregated wait_time mv')
                          (aggregated_nonneg wait_time mv')).
  apply exact_centroid_bounds; try assumption.
  - apply Forall_forall. intros y Hy. apply in_map_iff in Hy.
    destruct Hy as [z [<- _]]. apply aggregated_nonneg.
  - unfold Qle. simpl. lia.
Qed.

(** A call that returns had both inputs in range, and returns the crisp
    value of the inference on them. *)
Lemma call_returns (st : world) (incoming waiting v : Q)
      (plot_output : bool) (prefix : string) :
  session_ok (simulation (fst st)) ->
  fst (compute_wait_time incoming waiting plot_output prefix st) = Ok v ->
  0 <= incoming <= 100 /\ 0 <= waiting <= 100 /\ crisp incoming waiting = Ok v.
Proof.
  intros Hok Hv.
  assert (Hval : 0 <= incoming <= 100 /\ 0 <= waiting <= 100).
  { destruct (validate_input_range_cases incoming "Incoming Cars") as [[Hi _]|[Hi _]].
    - destruct (validate_input_range_cases waiting "Waiting Cars") as [[Hw _]|[Hw _]].
      + split; assumption.
      + destruct (invalid_call_unchanged st incoming waiting plot_output prefix
                                         (or_intror Hw)) as [msg E].
        rewrite E in Hv. discriminate Hv.
    - destruct (invalid_call_unchanged st incoming waiting plot_output prefix
                                       (or_introl Hi)) as [msg E].
      rewrite E in Hv. discriminate Hv. }
  destruct Hval as [Hi Hw]. split; [exact Hi|]. split; [exact Hw|].
  destruct (call_valid st incoming waiting Hok Hi Hw) as [v' [sim' [Hc [_ E]]]].
  rewrite (E plot_output prefix) in Hv. unfold call_result, after_plot in Hv.
  destruct plot_output; cbn [fst] in Hv.
  - destruct (fst (plot_outcome prefix (snd st))) as [[]|e]; [|discriminate Hv].
    rewrite <- Hv. exact Hc.
  - rewrite <- Hv. exact Hc.
Qed.

(** X2.  Whatever calls came before, a call with both inputs in range and
    without the plot returns a wait time that lies in the output universe
    [0, 160]; with the plot, a call that returns gives that same value. *)
Theorem wait_time_within_universe
        (fs : FileSystem) (st : world) (incoming waiting : Q) (prefix : string) :
  reachable_from (controller, fs) st ->
  0 <= incoming <= 100 -> 0 <= waiting <= 100 ->
  exists v, fst (compute_wait_time incoming waiting false prefix st) = Ok v /\
            0 <= v <= 160 /\
            forall (g : string) (r : Q), fst (compute_wait_time incoming waiting true g st) = Ok r ->
                        r = v.
Proof.
  intros Hr Hi Hw.
  pose proof (fresh_reachable_ok fs st Hr) as Hok.
  destruct (call_valid_plain st incoming waiting prefix Hok Hi Hw)
    as [v [st' [E [Hc _]]]].
  exists v. rewrite E. split; [reflexivity|].
  split; [exact (crisp_within_universe incoming waiting v Hi Hw Hc)|].
  intros g r Hg.
  destruct (call_returns st incoming waiting r true g Hok Hg) as [_ [_ Hc']].
  congruence.
Qed.

Lemma wait_time_within_universe_witness :
  exists v, fst (compute_wait_time 5 5 false "output" (controller, accepting_fs)) = Ok v /\
            0 <= v <= 160 /\
            forall (g : string) (r : Q), fst (compute_wait_time 5 5 true g (controller, accepting_fs)) = Ok r ->
                        r = v.
Proof.
  apply (wait_time_within_universe accepting_fs (controller, accepting_fs) 5 5 "output").
  - apply reach_here.
  - split; unfold Qle; simpl; lia.
  - split; unfold Qle; simpl; lia.
Defined.

(** ** The generated input terms share out one unit of membership *)

Lemma degrees_total_by_name (var : FuzzyVariable) (x : Q) :
  NoDup (map fst (terms var)) ->
  degrees_total var x
  == fold_right (fun n acc => degree var n x + acc) 0 (map fst (terms var)).
Proof.
  intro Hnd. unfold degrees_total.
  assert (H : forall l, (forall t, In t l -> In t (terms var)) ->
                        fold_right (fun (t : string * list Q) acc =>
                                      Fuzz.interp_membership (universe var) (snd t) x + acc)
                                   0 l
                        == fold_right (fun n acc => degree var n x + acc) 0 (map fst l)).
  { induction l as [|[n mf] l IH]; intro Hl; [reflexivity|].
    cbn [fold_right map fst snd].
    rewrite IH by (intros t Ht; apply Hl; right; exact Ht).
    assert (E : degree var n x = Fuzz.interp_membership (universe var) mf x).
    { unfold degree.
      rewrite (In_get _ string_eqb_spec n mf (terms var) Hnd (Hl _ (or_introl eq_refl))).
      reflexivity. }
    rewrite E. reflexivity. }
  apply H. intros t Ht. exact Ht.
Qed.

(** X3.  At every count in [0, 100] the degrees of the five generated
    terms of an input variable add up to exactly 1. *)
Theorem input_degrees_sum_to_one (x : Q) :
  0 <= x <= 100 ->
  degree waiting_cars "minimal" x + (degree waiting_cars "light" x
  + (degree waiting_cars "average" x + (degree waiting_cars "heavy" x
  + degree waiting_cars "standstill" x))) == 1 /\
  degree incoming_cars "minimal" x + (degree incoming_cars "light" x
  + (degree incoming_cars "average" x + (degree incoming_cars "heavy" x
  + degree incoming_cars "excess" x))) == 1.
Proof.
  intro Hx.
  destruct arange_0_101 as [xp [Eu El]].
  split.
  - pose proof (partition_total waiting_cars 0 xp x waiting_partition) as H.
    rewrite waiting_universe in H. specialize (H Eu).
    rewrite El in H. specialize (H Hx).
    rewrite (degrees_total_by_name waiting_cars x waiting_names_nodup) in H.
    rewrite waiting_names in H. cbn [fold_right] in H. lra.
  - pose proof (partition_total incoming_cars 0 xp x incoming_partition) as H.
    rewrite incoming_universe in H. specialize (H Eu).
    rewrite El in H. specialize (H Hx).
    rewrite (degrees_total_by_name incoming_cars x incoming_names_nodup) in H.
    rewrite incoming_names in H. cbn [fold_right] in H. lra.
Qed.

Lemma input_degrees_sum_to_one_witness :
  degree waiting_cars "minimal" 30 + (degree waiting_cars "light" 30
  + (degree waiting_cars "average" 30 + (degree waiting_cars "heavy" 30
  + degree waiting_cars "standstill" 30))) == 1 /\
  degree incoming_cars "minimal" 30 + (degree incoming_cars "light" 30
  + (degree incoming_cars "average" 30 + (degree incoming_cars "heavy" 30
  + degree incoming_cars "excess" 30))) == 1.
Proof.
  apply (input_degrees_sum_to_one 30).
  split; unfold Qle; simpl; lia.
Defined.

(** ** The operating system over a session *)

Lemma call_system_calls (st : world) (incoming waiting : Q)
      (plot_output : bool) (prefix : string) :
  session_ok (simulation (fst st)) ->
  respond (snd (snd (compute_wait_time incoming waiting plot_output prefix st)))
  = respond (snd st) /\
  (calls (snd (snd (compute_wait_time incoming waiting plot_output prefix st)))
   = calls (snd st) \/
   (plot_output = true /\
    (calls (snd (snd (compute_wait_time incoming waiting plot_output prefix st)))
     = Makedirs "Results" true :: calls (snd st) \/
     calls (snd (snd (compute_wait_time incoming waiting plot_output prefix st)))
     = Savefig (plot_path prefix) :: Makedirs "Results" true :: calls (snd st)))).
Proof.
  intro Hok.
  assert (Hbad : ~ (0 <= incoming <= 100) \/ ~ (0 <= waiting <= 100) ->
                 snd (compute_wait_time incoming waiting plot_output prefix st) = st).
  { intro H. destruct (invalid_call_unchanged st incoming waiting plot_output prefix H)
      as [msg E]. rewrite E. reflexivity. }
  destruct (valid_or_not incoming) as [Hi|Hi];
    [|rewrite (Hbad (or_introl Hi)); split; [reflexivity|left; reflexivity]].
  destruct (valid_or_not waiting) as [Hw|Hw];
    [|rewrite (Hbad (or_intror Hw)); split; [reflexivity|left; reflexivity]].
  destruct (call_valid st incoming waiting Hok Hi Hw) as [v [sim' [_ [_ E]]]].
  rewrite (E plot_output prefix). unfold call_result, after_plot.
  destruct plot_output; cbn [fst snd]; [|split; [reflexivity|left; reflexivity]].
  unfold plot_outcome.
  destruct (respond (snd st) (calls (snd st)) (Makedirs "Results" true)) as [[]|e];
    cbn [snd with_plot with_call respond calls];
    (split; [reflexivity|right; split; [reflexivity|]]).
  - right. reflexivity.
  - left. reflexivity.
Qed.

(** X4.  Over any sequence of calls the engine asks the operating system
    for nothing but [os.makedirs('Results', exist_ok=True)] and
    [plt.savefig] of a path [os.path.join('Results',
    prefix + '_wait_time.png')]: it creates no other directory and writes no
    other file, removes nothing, and a figure is saved only right after
    [Results] was asked for. *)
Theorem session_system_calls (fs : FileSystem) (st : world) :
  reachable_from (controller, fs) st ->
  respond (snd st) = respond fs /\
  exists added,
    calls (snd st) = added ++ calls fs /\
    Forall (fun c => c = Makedirs "Results" true \/
                     exists prefix, c = Savefig (plot_path prefix)) added /\
    forall prefix before after,
      added = before ++ Savefig (plot_path prefix) :: after ->
      exists after', after = Makedirs "Results" true :: after'.
Proof.
  intro Hr.
  assert (Hok : forall st', reachable_from (controller, fs) st' ->
                            session_ok (simulation (fst st')))
    by (intros st' H; exact (fresh_reachable_ok fs st' H)).
  induction Hr as [|st i w p f Hr [IHr [added [IHc [IHa IHs]]]]].
  - split; [reflexivity|]. exists []. split; [reflexivity|]. split; [constructor|].
    intros prefix before after H. destruct before; discriminate H.
  - destruct (call_system_calls st i w p f (Hok st Hr)) as [Hresp Hcalls].
    split; [rewrite Hresp; exact IHr|].
    destruct Hcalls as [Hc|[_ [Hc|Hc]]].
    + exists added. rewrite Hc. split; [exact IHc|]. split; [exact IHa|exact IHs].
    + exists (Makedirs "Results" true :: added). rewrite Hc, IHc.
      split; [reflexivity|]. split; [constructor; [left; reflexivity|exact IHa]|].
      intros prefix before after H. destruct before as [|b before].
      * discriminate H.
      * inversion H; subst. eapply IHs. reflexivity.
    + exists (Savefig (plot_path f) :: Makedirs "Results" true :: added).
      rewrite Hc, IHc. split; [reflexivity|].
      split; [constructor; [right; exists f; reflexivity|
                            constructor; [left; reflexivity|exact IHa]]|].
      intros prefix before after H. destruct before as [|b before].
      * inversion H; subst. eexists. reflexivity.
      * destruct before as [|b' before]; [discriminate H|].
        inversion H; subst. eapply IHs. reflexivity.
Qed.

Lemma session_system_calls_witness :
  respond (snd (snd (compute_wait_time 5 5 true "x" (controller, accepting_fs))))
  = respond accepting_fs /\
  exists added,
    calls (snd (snd (compute_wait_time 5 5 true "x" (controller, accepting_fs))))
    = added ++ calls accepting_fs /\
    Forall (fun c => c = Makedirs "Results" true \/
                     exists prefix, c = Savefig (plot_path prefix)) added /\
    forall prefix before after,
      added = before ++ Savefig (plot_path prefix) :: after ->
      exists after', after = Makedirs "Results" true :: after'.
Proof.
  apply (session_system_calls accepting_fs).
  apply reach_call. apply reach_here.
Defined.

(** ** The wait time as a function of the clipping levels *)

Lemma above_compat (y y' m : Q) : y == y' -> Fuzz.above y m = Fuzz.above y' m.
Proof.
  intro H. unfold Fuzz.above.
  rewrite (Qeq_bool_compat y y' 0 0 H (Qeq_refl _)).
  rewrite (Qlt_bool_compat y y' m m H (Qeq_refl _)).
  rewrite (Qle_bool_compat y y' m m H (Qeq_refl _)).
  reflexivity.
Qed.

Lemma interp_universe_from_compat (y y' : Q) (xs : list Q) :
  y == y' ->
  forall ms x0 m0,
    Forall2 Qeq (Fuzz.interp_universe_from x0 m0 xs ms y)
            (Fuzz.interp_universe_from x0 m0 xs ms y').
Proof.
  intro H. induction xs as [|x1 xs IH]; intros ms x0 m0; simpl; [constructor|].
  destruct ms as [|m1 ms]; [constructor|].
  rewrite <- (above_compat y y' m0 H), <- (above_compat y y' m1 H).
  destruct (xorb (Fuzz.above y m0) (Fuzz.above y m1)); [|apply IH].
  constructor; [|apply IH]. rewrite H. reflexivity.
Qed.

Lemma insert_unique_compat (v v' : Q) (l l' : list Q) :
  v == v' -> Forall2 Qeq l l' ->
  Forall2 Qeq (Np.insert_unique v l) (Np.insert_unique v' l').
Proof.
  intros Hv Hl. induction Hl as [|h h' t t' Hh Ht IH]; simpl.
  - constructor; [exact Hv|constructor].
  - rewrite (Qcompare_comp v v' Hv h h' Hh).
    destruct (v' ?= h').
    + constructor; assumption.
    + constructor; [exact Hv|]. constructor; assumption.
    + constructor; assumption.
Qed.

Lemma unique_compat (l l' : list Q) :
  Forall2 Qeq l l' -> Forall2 Qeq (Np.unique l) (Np.unique l').
Proof.
  induction 1 as [|h h' t t' Hh Ht IH]; simpl; [constructor|].
  apply insert_unique_compat; assumption.
Qed.

Lemma interp_universe_compat (xs mf : list Q) (y y' : Q) :
  y == y' ->
  Forall2 Qeq (Fuzz.interp_universe xs mf y) (Fuzz.interp_universe xs mf y').
Proof.
  intro H. unfold Fuzz.interp_universe.
  destruct xs as [|x0 xs]; [constructor|].
  destruct mf as [|m0 ms]; [constructor|].
  apply unique_compat. apply interp_universe_from_compat. exact H.
Qed.

Lemma new_universe_compat (var : FuzzyVariable) (mv1 mv2 : store) :
  same_cuts var mv1 mv2 ->
  Forall2 Qeq (new_universe var mv1) (new_universe var mv2).
Proof.
  intro H. unfold new_universe, Np.union1d. apply unique_compat.
  apply Forall2_app; [apply Forall2_Qeq_refl|].
  unfold new_values, same_cuts in *.
  induction (terms var) as [|[n mf] ts IH]; [constructor|].
  cbn [flat_map fst snd].
  destruct (H n (or_introl eq_refl)) as [c1 [c2 [E1 [E2 Hc]]]].
  rewrite E1, E2. apply Forall2_app.
  - apply interp_universe_compat. exact Hc.
  - apply IH. intros name Hn. apply H. right. exact Hn.
Qed.

Lemma aggregated_compat (var : FuzzyVariable) (mv1 mv2 : store) (x x' : Q) :
  same_cuts var mv1 mv2 -> x == x' ->
  aggregated var mv1 x == aggregated var mv2 x'.
Proof.
  intros H Hx. unfold aggregated, same_cuts in *.
  assert (G : forall ts, (forall t, In t ts -> In (fst t) (map fst (terms var))) ->
                         forall a a', a == a' ->
                                      fold_left (agg_step var mv1 x) ts a
                                      == fold_left (agg_step var mv2 x') ts a').
  { induction ts as [|t ts IH]; intros Hts a a' Ha; [exact Ha|].
    cbn [fold_left]. apply IH.
    - intros t' Ht'. apply Hts. right. exact Ht'.
    - unfold agg_step.
      destruct (H (fst t) (Hts t (or_introl eq_refl))) as [c1 [c2 [E1 [E2 Hc]]]].
      rewrite E1, E2.
      apply Q.max_compat; [exact Ha|].
      apply Q.min_compat; [exact Hc|].
      apply interp_membership_compat; [exact Hx|apply Forall2_Qeq_refl]. }
  apply G; [|reflexivity].
  intros t Ht. apply in_map. exact Ht.
Qed.

Lemma totals_compat_points (xs xs' : list Q) :
  Forall2 Qeq xs xs' ->
  forall ys ys' x1 x1' y1 y1',
    x1 == x1' -> y1 == y1' -> Forall2 Qeq ys ys' ->
    total_moment x1 y1 xs ys == total_moment x1' y1' xs' ys' /\
    total_area x1 y1 xs ys == total_area x1' y1' xs' ys'.
Proof.
  induction 1 as [|x2 x2' t t' Hx2 Ht IH]; intros ys ys' x1 x1' y1 y1' Hx Hy Hys.
  - simpl. split; reflexivity.
  - inversion Hys as [|y2 y2' u u' Hy2 Hu]; subst; [simpl; split; reflexivity|].
    cbn [total_moment total_area].
    destruct (IH u u' x2 x2' y2 y2' Hx2 Hy2 Hu) as [I1 I2].
    unfold trapezoid_moment, trapezoid_area.
    split; [rewrite I1, Hx, Hx2, Hy, Hy2; reflexivity
           |rewrite I2, Hx, Hx2, Hy, Hy2; reflexivity].
Qed.

Lemma exact_centroid_compat_points (xs xs' ys ys' : list Q) :
  Forall2 Qeq xs xs' -> Forall2 Qeq ys ys' ->
  exact_centroid xs ys == exact_centroid xs' ys'.
Proof.
  intros Hx Hy. unfold exact_centroid.
  inversion Hx as [|x0 x0' t t' Hx0 Ht]; subst; [reflexivity|].
  inversion Hy as [|y0 y0' u u' Hy0 Hu]; subst; [reflexivity|].
  destruct (totals_compat_points t t' Ht u u' x0 x0' y0 y0' Hx0 Hy0 Hu) as [I1 I2].
  rewrite I1, I2. reflexivity.
Qed.

Lemma map_aggregated_compat (var : FuzzyVariable) (mv1 mv2 : store) (xs xs' : list Q) :
  same_cuts var mv1 mv2 -> Forall2 Qeq xs xs' ->
  Forall2 Qeq (map (aggregated var mv1) xs) (map (aggregated var mv2) xs').
Proof.
  intros H Hx. induction Hx as [|x x' t t' Hxx Ht IH]; simpl; constructor.
  - apply aggregated_compat; assumption.
  - exact IH.
Qed.

(** The crisp value is a function of the cuts of the output terms. *)
Lemma crisp_value_by_cuts (mv1 mv2 : store) :
  same_cuts wait_time mv1 mv2 ->
  crisp_value wait_time mv1 == crisp_value wait_time mv2.
Proof.
  intro H. unfold crisp_value.
  pose proof (new_universe_compat wait_time mv1 mv2 H) as Hu.
  destruct (new_universe_two_points mv1) as [a0 [a1 [ta Ea]]].
  destruct (new_universe_two_points mv2) as [b0 [b1 [tb Eb]]].
  rewrite Ea, Eb in *.
  rewrite (centroid_exact a0 a1 ta (aggregated wait_time mv1)
                          (aggregated_nonneg wait_time mv1)).
  rewrite (centroid_exact b0 b1 tb (aggregated wait_time mv2)
                          (aggregated_nonneg wait_time mv2)).
  apply exact_centroid_compat_points; [exact Hu|].
  apply map_aggregated_compat; assumption.
Qed.

Lemma crisp_by_cuts (i1 w1 i2 w2 v1 v2 : Q) :
  0 <= i1 <= 100 -> 0 <= w1 <= 100 -> 0 <= i2 <= 100 -> 0 <= w2 <= 100 ->
  (forall name, In name (map fst (terms wait_time)) ->
                term_cut i1 w1 name == term_cut i2 w2 name) ->
  crisp i1 w1 = Ok v1 -> crisp i2 w2 = Ok v2 -> v1 == v2.
Proof.
  intros Hi1 Hw1 Hi2 Hw2 Hcuts Hc1 Hc2.
  apply (wait_time_of_is_crisp i1 w1 v1 Hi1 Hw1) in Hc1.
  apply (wait_time_of_is_crisp i2 w2 v2 Hi2 Hw2) in Hc2.
  destruct (wait_time_of_value i1 w1 Hi1 Hw1) as [mv1 [mv1' [_ [Hf1 [_ [Ha1 Hv1]]]]]].
  destruct (wait_time_of_value i2 w2 Hi2 Hw2) as [mv2 [mv2' [_ [Hf2 [_ [Ha2 Hv2]]]]]].
  rewrite Hv1 in Hc1. rewrite Hv2 in Hc2.
  inversion Hc1; subst v1. inversion Hc2; subst v2.
  apply crisp_value_by_cuts. intros name Hn.
  destruct (cut_is_term_cut i1 w1 mv1 mv1' name Hf1 Ha1 Hn) as [c1 [E1 [Q1 _]]].
  destruct (cut_is_term_cut i2 w2 mv2 mv2' name Hf2 Ha2 Hn) as [c2 [E2 [Q2 _]]].
  exists c1, c2. split; [exact E1|]. split; [exact E2|].
  rewrite Q1, Q2. apply Hcuts. exact Hn.
Qed.

(** X5.  The wait time depends on the two counts only through the three
    levels at which the output terms are clipped: two valid input pairs that
    give 'short', 'medium' and 'long' the same largest firing strengths get
    the same wait time. *)
Theorem wait_time_by_clipping_levels (i1 w1 i2 w2 : Q) :
  0 <= i1 <= 100 -> 0 <= w1 <= 100 -> 0 <= i2 <= 100 -> 0 <= w2 <= 100 ->
  (forall name, In name ["short"; "medium"; "long"]%string ->
                term_cut i1 w1 name == term_cut i2 w2 name) ->
  exists v1 v2,
    wait_time_of i1 w1 = Ok v1 /\ wait_time_of i2 w2 = Ok v2 /\ v1 == v2.
Proof.
  intros Hi1 Hw1 Hi2 Hw2 Hcuts.
  destruct (wait_time_of_crisp i1 w1 Hi1 Hw1) as [v1 [E1 C1]].
  destruct (wait_time_of_crisp i2 w2 Hi2 Hw2) as [v2 [E2 C2]].
  exists v1, v2. split; [exact E1|]. split; [exact E2|].
  apply (crisp_by_cuts i1 w1 i2 w2 v1 v2 Hi1 Hw1 Hi2 Hw2); [|exact C1|exact C2].
  intros name Hn. apply Hcuts. rewrite wait_time_names in Hn. exact Hn.
Qed.

Lemma wait_time_by_clipping_levels_witness :
  exists v1 v2,
    wait_time_of 10 30 = Ok v1 /\ wait_time_of 30 10 = Ok v2 /\ v1 == v2.
Proof.
  apply (wait_time_by_clipping_levels 10 30 30 10).
  - split; unfold Qle; simpl; lia.
  - split; unfold Qle; simpl; lia.
  - split; unfold Qle; simpl; lia.
  - split; unfold Qle; simpl; lia.
  - simpl. intros name [<-|[<-|[<-|[]]]]; vm_compute; reflexivity.
Defined.

(** ** Where the wait time does not move *)

Lemma firing_strength_or (incoming waiting : Q) (w i o : string) :
  firing_strength incoming waiting
    (mk_rule (TermOr (TermRef ("waiting_cars", w)) (TermRef ("incoming_cars", i)))
             ("wait_time", o)%string)
  = Qmax (degree waiting_cars w waiting) (degree incoming_cars i incoming).
Proof. reflexivity. Qed.

(** A rule one of whose terms holds fully lifts the cut of its output term
    to 1. *)
Lemma term_cut_full (incoming waiting : Q) (w i o : string) :
  In (w, i, o) rule_table ->
  degree waiting_cars w waiting == 1 \/ degree incoming_cars i incoming == 1 ->
  term_cut incoming waiting o == 1.
Proof.
  intros Hin Hfull. unfold term_cut.
  set (l := map (firing_strength incoming waiting)
                (filter (targets ("wait_time"%string, o)) rules)).
  pose proof (In_rules_of_table w i o Hin) as Hr.
  set (r := mk_rule (TermOr (TermRef ("waiting_cars", w)) (TermRef ("incoming_cars", i)))
                    ("wait_time", o)%string) in *.
  assert (Hrl : In (firing_strength incoming waiting r) l).
  { unfold l. apply in_map. apply filter_In. split; [exact Hr|].
    apply targets_true. reflexivity. }
  assert (Hne : l <> []) by (intro E; rewrite E in Hrl; exact Hrl).
  apply Qle_antisym.
  - apply (max_list_le l 1 Hne). intros y Hy. unfold l in Hy.
    apply in_map_iff in Hy. destruct Hy as [r' [<- Hr']].
    apply filter_In in Hr'. destruct Hr' as [Hr' _].
    exact (proj2 (firing_strength_bounds incoming waiting r' Hr')).
  - assert (Hge : firing_strength incoming waiting r <= max_list l).
    { apply (proj1 (max_list_le l (max_list l) Hne) (Qle_refl _)). exact Hrl. }
    unfold r in Hge. rewrite firing_strength_or in Hge.
    destruct Hfull as [H|H].
    + pose proof (Q.le_max_l (degree waiting_cars w waiting)
                             (degree incoming_cars i incoming)) as Hm.
      lra.
    + pose proof (Q.le_max_r (degree waiting_cars w waiting)
                             (degree incoming_cars i incoming)) as Hm.
      lra.
Qed.

Lemma in_table (wio : string * string * string) :
  existsb (fun r => let '(w, i, o) := r in
                    let '(w', i', o') := wio in
                    String.eqb w w' && String.eqb i i' && String.eqb o o')
          rule_table = true ->
  In wio rule_table.
Proof.
  intro H. apply existsb_exists in H. destruct H as [[[w i] o] [Hin H]].
  destruct wio as [[w' i'] o'].
  apply andb_true_iff in H. destruct H as [H Ho].
  apply andb_true_iff in H. destruct H as [Hw Hi].
  apply String.eqb_eq in Hw, Hi, Ho. subst. exact Hin.
Qed.

(** With a full 'minimal', 'light' or 'average' degree of waiting cars, or
    a full 'light' degree of incoming cars, all three output terms are cut
    at 1. *)
Lemma cuts_full (incoming waiting : Q) (name : string) :
  degree waiting_cars "minimal" waiting == 1 \/
  degree waiting_cars "light" waiting == 1 \/
  degree waiting_cars "average" waiting == 1 \/
  degree incoming_cars "light" incoming == 1 ->
  In name (map fst (terms wait_time)) ->
  term_cut incoming waiting name == 1.
Proof.
  intros H Hn. rewrite wait_time_names in Hn. simpl in Hn.
  destruct H as [H|[H|[H|H]]].
  - destruct Hn as [<-|[<-|[<-|[]]]].
    + apply (term_cut_full incoming waiting "minimal" "minimal" "short");
        [apply in_table; reflexivity|left; exact H].
    + apply (term_cut_full incoming waiting "minimal" "average" "medium");
        [apply in_table; reflexivity|left; exact H].
    + apply (term_cut_full incoming waiting "minimal" "heavy" "long");
        [apply in_table; reflexivity|left; exact H].
  - destruct Hn as [<-|[<-|[<-|[]]]].
    + apply (term_cut_full incoming waiting "light" "minimal" "short");
        [apply in_table; reflexivity|left; exact H].
    + apply (term_cut_full incoming waiting "light" "average" "medium");
        [apply in_table; reflexivity|left; exact H].
    + apply (term_cut_full incoming waiting "light" "excess" "long");
        [apply in_table; reflexivity|left; exact H].
  - destruct Hn as [<-|[<-|[<-|[]]]].
    + apply (term_cut_full incoming waiting "average" "minimal" "short");
        [apply in_table; reflexivity|left; exact H].
    + apply (term_cut_full incoming waiting "average" "light" "medium");
        [apply in_table; reflexivity|left; exact H].
    + apply (term_cut_full incoming waiting "average" "heavy" "long");
        [apply in_table; reflexivity|left; exact H].
  - destruct Hn as [<-|[<-|[<-|[]]]].
    + apply (term_cut_full incoming waiting "minimal" "light" "short");
        [apply in_table; reflexivity|right; exact H].
    + apply (term_cut_full incoming waiting "average" "light" "medium");
        [apply in_table; reflexivity|right; exact H].
    + apply (term_cut_full incoming waiting "standstill" "light" "long");
        [apply in_table; reflexivity|right; exact H].
Qed.

Lemma degree_at (var : FuzzyVariable) (name : string) (x p : Q) :
  x == p -> Qeq_bool (degree var name p) 1 = true -> degree var name x == 1.
Proof.
  intros Hx Hp. rewrite (degree_compat var name x p Hx).
  apply Qeq_bool_iff. exact Hp.
Qed.

(** X6.  With 0, 25 or 50 waiting cars the wait time is 2063176/24207
    (about 85.23 s) whatever the valid number of incoming cars, and with 25
    incoming cars it is that value whatever the valid number of waiting cars:
    the OR-ed term that holds fully cuts all three output terms at 1. *)
Theorem wait_time_flat (incoming waiting : Q) :
  0 <= incoming <= 100 -> 0 <= waiting <= 100 ->
  waiting == 0 \/ waiting == 25 \/ waiting == 50 \/ incoming == 25 ->
  exists v, wait_time_of incoming waiting = Ok v /\ v == 2063176 # 24207.
Proof.
  intros Hi Hw Hat.
  destruct (wait_time_of_crisp incoming waiting Hi Hw) as [v [E C]].
  exists v. split; [exact E|].
  destruct crisp_at_0_0 as [v0 [C0 V0]].
  rewrite <- V0.
  apply (crisp_by_cuts incoming waiting 0 0 v v0 Hi Hw valid_0 valid_0); [|exact C|exact C0].
  intros name Hn.
  rewrite (cuts_full incoming waiting name); [|
    destruct Hat as [H|[H|[H|H]]];
    [left|right; left|right; right; left|right; right; right];
    apply (degree_at _ _ _ _ H); vm_compute; reflexivity | exact Hn].
  symmetry. apply cuts_full; [|exact Hn].
  left. apply (degree_at _ _ 0 0 (Qeq_refl 0)). vm_compute. reflexivity.
Qed.

Lemma wait_time_flat_witness :
  exists v, wait_time_of 64 25 = Ok v /\ v == 2063176 # 24207.
Proof.
  apply (wait_time_flat 64 25).
  - split; unfold Qle; simpl; lia.
  - split; unfold Qle; simpl; lia.
  - right. left. reflexivity.
Defined.

(** ** The console program *)

Lemma run_Print {A : Type} (l : line) (k : console A) (answers : list string) :
  run (Print l k) answers = (Out l :: fst (run k answers), snd (run k answers)).
Proof. cbn [run]. destruct (run k answers). reflexivity. Qed.

Lemma run_Input {A : Type} (p : string) (k : string -> console A)
      (a : string) (answers : list string) :
  run (Input p k) (a :: answers)
  = (Prompt p :: Read a :: fst (run (k a) answers), snd (run (k a) answers)).
Proof. cbn [run]. destruct (run (k a) answers). reflexivity. Qed.

Lemma plot_outcome_ok (prefix : string) (fs : FileSystem) (u : unit) :
  fst (plot_outcome prefix fs) = Ok u ->
  snd (plot_outcome prefix fs) = with_plot prefix fs.
Proof.
  unfold plot_outcome.
  destruct (respond fs (calls fs) (Makedirs "Results" true)) as [[]|e];
    [reflexivity|intro H; discriminate H].
Qed.


Lemma plot_outcome_accepted (prefix : string) (fs : FileSystem) :
  accepts_all fs -> plot_outcome prefix fs = (Ok tt, with_plot prefix fs).
Proof.
  intro H. unfold plot_outcome. rewrite !H. reflexivity.
Qed.

Lemma with_plot_accepts (prefix : string) (fs : FileSystem) :
  accepts_all fs -> accepts_all (with_plot prefix fs).
Proof. intros H h c. exact (H h c). Qed.

Lemma in_range_true (x : Q) : in_range x = true <-> 0 <= x <= 100.
Proof.
  unfold in_range. rewrite andb_true_iff, !Qle_bool_iff. tauto.
Qed.

(** The loop over a data set, on a file system that accepts every call:
    the entries up to the first one out of range are computed, printed and
    plotted in order, each with the crisp value of the inference on its own
    pair; the first entry out of range, if there is one, ends the loop with the
    validator's error. *)
Lemma test_cases_run (data : list (Q * Q)) :
  forall (i : nat) (w : world) (answers : list string),
    session_ok (simulation (fst w)) ->
    accepts_all (snd w) ->
    exists (vs : list Q) (msg : list piece),
      Forall2 (fun iw v => crisp (fst iw) (snd iw) = Ok v) (valid_prefix data) vs /\
      run (test_cases i data w) answers
      = (test_case_lines i (valid_prefix data) vs,
         Some (if Nat.eqb (List.length (valid_prefix data)) (List.length data)
               then Ok tt else Raise (ValueError msg),
               with_case_plots i (List.length (valid_prefix data)) (snd w))).
Proof.
  induction data as [|[incoming waiting] data IH]; intros i w answers Hok Hacc.
  - exists [], []. split; [constructor|reflexivity].
  - cbn [valid_prefix test_cases].
    destruct (in_range incoming && in_range waiting) eqn:Ev.
    + apply andb_true_iff in Ev. destruct Ev as [Hi Hw].
      apply in_range_true in Hi. apply in_range_true in Hw.
      destruct (call_valid w incoming waiting Hok Hi Hw) as [v [sim' [Hc [Hok' E]]]].
      specialize (E true ("case_" ++ str (S i))%string).
      unfold call_result, after_plot in E.
      rewrite (plot_outcome_accepted _ (snd w) Hacc) in E. cbn [fst snd] in E.
      destruct (IH (S i) (mkControl sim', with_plot ("case_" ++ str (S i)) (snd w))
                   answers Hok' (with_plot_accepts _ _ Hacc))
        as [vs [msg [Hvs Hrun]]].
      exists (v :: vs), msg. split; [constructor; [exact Hc|exact Hvs]|].
      unfold call. rewrite E. rewrite run_Print. rewrite Hrun.
      reflexivity.
    + assert (Hbad : ~ (0 <= incoming <= 100) \/ ~ (0 <= waiting <= 100)).
      { apply andb_false_iff in Ev. destruct Ev as [Ev|Ev]; [left|right];
          intro H; apply in_range_true in H; congruence. }
      destruct (invalid_call_unchanged w incoming waiting true
                                       ("case_" ++ str (S i))%string Hbad) as [msg E].
      exists [], msg. split; [constructor|].
      unfold call. rewrite E. reflexivity.
Qed.

(** X7.  Choosing '2' on a file system that lets every plot be saved runs
    the predefined data set in order: every entry up to the first one with a
    count outside [0, 100] gets its line, with the wait time the inference
    gives for that pair alone (whatever was computed before it), and its plot
    [case_<k>_wait_time.png] in [Results]; an entry out of range ends the
    program with the [ValueError], uncaught, after the lines and plots of the
    entries before it. *)
Theorem main_predefined
        (float : string -> result pyfloat) (data : list (Q * Q))
        (fs : FileSystem) (answers : list string) :
  accepts_all fs ->
  exists (vs : list Q) (msg : list piece),
    Forall2 (fun iw v => crisp (fst iw) (snd iw) = Ok v) (valid_prefix data) vs /\
    run (main float data fs) ("2"%string :: answers)
    = (banner
         ++ [Read "2"; Out (Text (nl ++ "Running predefined test cases:" ++ nl))]
         ++ test_case_lines 0 (valid_prefix data) vs,
       Some (if Nat.eqb (List.length (valid_prefix data)) (List.length data)
             then Ok tt else Raise (ValueError msg),
             with_case_plots 0 (List.length (valid_prefix data)) fs)).
Proof.
  intro Hacc.
  destruct (test_cases_run data 0 (controller, fs) answers controller_session_ok Hacc)
    as [vs [msg [Hvs Hrun]]].
  exists vs, msg. split; [exact Hvs|].
  unfold main. rewrite setup_fuzzy_system_ok.
  rewrite !run_Print, run_Input.
  change (String.eqb "2" "1") with false. change (String.eqb "2" "2") with true.
  cbv iota. rewrite run_Print, Hrun. reflexivity.
Qed.

Lemma main_predefined_witness :
  exists (vs : list Q) (msg : list piece),
    Forall2 (fun iw v => crisp (fst iw) (snd iw) = Ok v)
            (valid_prefix [(10, 20); (35, 80); (200, 5); (1, 1)]) vs /\
    run (main (fun _ => Ok Nan) [(10, 20); (35, 80); (200, 5); (1, 1)] accepting_fs)
        ["2"%string]
    = (banner
         ++ [Read "2"; Out (Text (nl ++ "Running predefined test cases:" ++ nl))]
         ++ test_case_lines 0 (valid_prefix [(10, 20); (35, 80); (200, 5); (1, 1)]) vs,
       Some (if Nat.eqb (List.length (valid_prefix [(10, 20); (35, 80); (200, 5); (1, 1)]))
                        (List.length [(10, 20); (35, 80); (200, 5); (1, 1)])
             then Ok tt else Raise (ValueError msg),
             with_case_plots
               0 (List.length (valid_prefix [(10, 20); (35, 80); (200, 5); (1, 1)]))
               accepting_fs)).
Proof.
  apply (main_predefined (fun _ => Ok Nan) [(10, 20); (35, 80); (200, 5); (1, 1)]
                         accepting_fs []).
  intros h c. reflexivity.
Defined.

Lemma compute_wait_time_float_rejects (x y : pyfloat) (prefix : string) (w : world) :
  accepted x && accepted y = false ->
  exists msg, compute_wait_time_float x y true prefix w = (Raise (ValueError msg), w).
Proof.
  intro H. unfold compute_wait_time_float.
  destruct x as [i| | |]; try (eexists; reflexivity).
  assert (Hy : forall m, exists msg,
               mbind (pure_check (Helpers.validate_input_range i "Incoming Cars"))
                     (fun _ => raise (ValueError m)) w
               = (Raise (ValueError msg), w) :> (result Q * world)).
  { intro m. unfold mbind, pure_check, raise.
    destruct (validate_input_range_cases i "Incoming Cars") as [[_ E]|[_ E]];
      rewrite E; eexists; reflexivity. }
  destruct y as [wt| | |]; try apply Hy.
  apply invalid_call_unchanged.
  cbn [accepted] in H. apply andb_false_iff in H.
  destruct H as [H|H]; [left|right]; intro Hv; apply in_range_true in Hv; congruence.
Qed.

(** X8.  Choosing '1' with two counts in [0, 100]: the inference gives a
    wait time in [0, 160]; if [Results] can be had and the figure saved there
    as [custom_input_wait_time.png], the program prints that wait time and
    ends normally; if one of the two raises, the program ends with that
    exception, uncaught, and prints no wait time. *)
Theorem main_custom_valid
        (float : string -> result pyfloat) (data : list (Q * Q))
        (fs : FileSystem) (a b : string) (answers : list string)
        (incoming waiting : Q) :
  float a = Ok (Finite incoming) -> float b = Ok (Finite waiting) ->
  0 <= incoming <= 100 -> 0 <= waiting <= 100 ->
  exists v,
    crisp incoming waiting = Ok v /\ 0 <= v <= 160 /\
    (fst (plot_outcome "custom_input" fs) = Ok tt ->
     run (main float data fs) ("1"%string :: a :: b :: answers)
     = (banner
          ++ [Read "1";
              Prompt "Enter number of incoming cars (0-100): "; Read a;
              Prompt "Enter number of waiting cars (0-100): "; Read b;
              Out (ComputedWaitTime v)],
        Some (Ok tt, with_plot "custom_input" fs))) /\
    (forall e,
        fst (plot_outcome "custom_input" fs) = Raise e ->
        run (main float data fs) ("1"%string :: a :: b :: answers)
        = (banner
             ++ [Read "1";
                 Prompt "Enter number of incoming cars (0-100): "; Read a;
                 Prompt "Enter number of waiting cars (0-100): "; Read b],
           Some (Raise e, snd (plot_outcome "custom_input" fs)))).
Proof.
  intros Ha Hb Hi Hw.
  destruct (call_valid (controller, fs) incoming waiting
                       controller_session_ok Hi Hw) as [v [sim' [Hc [_ E]]]].
  specialize (E true "custom_input"%string).
  unfold call_result, after_plot in E. cbn [snd] in E.
  exists v. split; [exact Hc|].
  split; [exact (crisp_within_universe incoming waiting v Hi Hw Hc)|].
  assert (Hrun : run (main float data fs) ("1"%string :: a :: b :: answers)
                 = (banner
                      ++ [Read "1";
                          Prompt "Enter number of incoming cars (0-100): "; Read a;
                          Prompt "Enter number of waiting cars (0-100): "; Read b]
                      ++ fst (run (call (compute_wait_time incoming waiting true "custom_input")
                                        (controller, fs)
                                        (fun result w' =>
                                           Print (ComputedWaitTime result)
                                                 (Return (Ok tt, snd w'))))
                                  answers),
                    snd (run (call (compute_wait_time incoming waiting true "custom_input")
                                   (controller, fs)
                                   (fun result w' =>
                                      Print (ComputedWaitTime result)
                                            (Return (Ok tt, snd w'))))
                             answers))).
  { unfold main. rewrite setup_fuzzy_system_ok.
    rewrite !run_Print, run_Input.
    change (String.eqb "1" "1") with true. cbv iota.
    rewrite run_Input, Ha, run_Input, Hb. reflexivity. }
  rewrite Hrun. unfold call. rewrite E. split.
  - intro Hp. rewrite Hp, (plot_outcome_ok _ _ _ Hp). rewrite run_Print. reflexivity.
  - intros e Hp. rewrite Hp. reflexivity.
Qed.

Lemma main_custom_valid_witness :
  exists v,
    crisp 30 70 = Ok v /\ 0 <= v <= 160 /\
    (fst (plot_outcome "custom_input" accepting_fs) = Ok tt ->
     run (main (fun s => if String.eqb s "30" then Ok (Finite 30)
                         else if String.eqb s "70.0" then Ok (Finite 70)
                              else Raise (ValueError [Lit "could not convert string to float"]))
               [] accepting_fs)
         ["1"; "30"; "70.0"]%string
     = (banner
          ++ [Read "1";
              Prompt "Enter number of incoming cars (0-100): "; Read "30";
              Prompt "Enter number of waiting cars (0-100): "; Read "70.0";
              Out (ComputedWaitTime v)],
        Some (Ok tt, with_plot "custom_input" accepting_fs))) /\
    (forall e,
        fst (plot_outcome "custom_input" accepting_fs) = Raise e ->
        run (main (fun s => if String.eqb s "30" then Ok (Finite 30)
                            else if String.eqb s "70.0" then Ok (Finite 70)
                                 else Raise (ValueError [Lit "could not convert string to float"]))
                  [] accepting_fs)
            ["1"; "30"; "70.0"]%string
        = (banner
             ++ [Read "1";
                 Prompt "Enter number of incoming cars (0-100): "; Read "30";
                 Prompt "Enter number of waiting cars (0-100): "; Read "70.0"],
           Some (Raise e, snd (plot_outcome "custom_input" accepting_fs)))).
Proof.
  apply (main_custom_valid _ [] accepting_fs "30" "70.0" [] 30 70).
  - reflexivity.
  - reflexivity.
  - split; unfold Qle; simpl; lia.
  - split; unfold Qle; simpl; lia.
Defined.

(** X9.  Choosing '1' with a count that is out of range or not finite:
    the program ends with the validator's [ValueError], uncaught, after the
    two prompts; it prints no wait time and leaves the file system as it
    found it. *)
Theorem main_custom_rejected
        (float : string -> result pyfloat) (data : list (Q * Q))
        (fs : FileSystem) (a b : string) (answers : list string)
        (x y : pyfloat) :
  float a = Ok x -> float b = Ok y ->
  accepted x && accepted y = false ->
  exists msg,
    run (main float data fs) ("1"%string :: a :: b :: answers)
    = (banner
         ++ [Read "1";
             Prompt "Enter number of incoming cars (0-100): "; Read a;
             Prompt "Enter number of waiting cars (0-100): "; Read b],
       Some (Raise (ValueError msg), fs)).
Proof.
  intros Ha Hb Hrej.
  destruct (compute_wait_time_float_rejects x y "custom_input" (controller, fs) Hrej)
    as [msg E].
  exists msg.
  unfold main. rewrite setup_fuzzy_system_ok.
  rewrite !run_Print, run_Input.
  change (String.eqb "1" "1") with true. cbv iota.
  rewrite run_Input, Ha, run_Input, Hb.
  unfold call. rewrite E. reflexivity.
Qed.

Lemma main_custom_rejected_witness :
  exists msg,
    run (main (fun s => if String.eqb s "nan" then Ok Nan
                        else if String.eqb s "120" then Ok (Finite 120)
                             else Raise (ValueError [Lit "could not convert string to float"]))
              [] accepting_fs)
        ["1"; "120"; "nan"]%string
    = (banner
         ++ [Read "1";
             Prompt "Enter number of incoming cars (0-100): "; Read "120";
             Prompt "Enter number of waiting cars (0-100): "; Read "nan"],
       Some (Raise (ValueError msg), accepting_fs)).
Proof.
  apply (main_custom_rejected _ [] accepting_fs "120" "nan" [] (Finite 120) Nan).
  - reflexivity.
  - reflexivity.
  - reflexivity.
Defined.




(** * The engine against the formulas *)

(** ** Triangles *)

Lemma triangle_rising (a b c x : Q) :
  a < b -> b < c -> a <= x <= b -> triangle a b c x == (x - a) / (b - a).
Proof.
  intros Hab Hbc [H1 H2]. unfold triangle.
  assert (U0 : 0 <= (x - a) / (b - a)) by (apply Qle_shift_div_l; lra).
  assert (U1 : (x - a) / (b - a) <= 1) by (apply Qle_shift_div_r; lra).
  assert (V1 : 1 <= (c - x) / (c - b)) by (apply Qle_shift_div_l; lra).
  rewrite (Q.min_l ((x - a) / (b - a)) ((c - x) / (c - b))) by lra.
  apply Q.max_r. exact U0.
Qed.

Lemma triangle_falling (a b c x : Q) :
  a < b -> b < c -> b <= x <= c -> triangle a b c x == (c - x) / (c - b).
Proof.
  intros Hab Hbc [H1 H2]. unfold triangle.
  assert (V0 : 0 <= (c - x) / (c - b)) by (apply Qle_shift_div_l; lra).
  assert (V1 : (c - x) / (c - b) <= 1) by (apply Qle_shift_div_r; lra).
  assert (U1 : 1 <= (x - a) / (b - a)) by (apply Qle_shift_div_l; lra).
  rewrite (Q.min_r ((x - a) / (b - a)) ((c - x) / (c - b))) by lra.
  apply Q.max_r. exact V0.
Qed.

Lemma triangle_zero (a b c x : Q) :
  a < b -> b < c -> x <= a \/ c <= x -> triangle a b c x == 0.
Proof.
  intros Hab Hbc H. unfold triangle. apply Q.max_l.
  destruct H as [H|H].
  - apply Qle_trans with ((x - a) / (b - a)); [apply Q.le_min_l|].
    apply Qle_shift_div_r; lra.
  - apply Qle_trans with ((c - x) / (c - b)); [apply Q.le_min_r|].
    apply Qle_shift_div_r; lra.
Qed.

Lemma triangle_compat (a b c x x' : Q) :
  x == x' -> triangle a b c x == triangle a b c x'.
Proof.
  intro H. unfold triangle.
  apply Q.max_compat; [reflexivity|].
  apply Q.min_compat; rewrite H; reflexivity.
Qed.

Lemma triangle_bounds (a b c x : Q) :
  a < b -> b < c -> 0 <= triangle a b c x <= 1.
Proof.
  intros Hab Hbc.
  destruct (Qlt_le_dec x a) as [H1|H1].
  { rewrite (triangle_zero a b c x Hab Hbc) by (left; lra). lra. }
  destruct (Qlt_le_dec x b) as [H2|H2].
  { rewrite (triangle_rising a b c x Hab Hbc) by lra.
    split; [apply Qle_shift_div_l; lra|apply Qle_shift_div_r; lra]. }
  destruct (Qlt_le_dec x c) as [H3|H3].
  { rewrite (triangle_falling a b c x Hab Hbc) by lra.
    split; [apply Qle_shift_div_l; lra|apply Qle_shift_div_r; lra]. }
  rewrite (triangle_zero a b c x Hab Hbc) by (right; lra). lra.
Qed.

(** Where a segment lies that has none of the three points inside. *)
Lemma segment_place (a b c x0 x1 : Q) :
  a < b -> b < c -> x0 < x1 ->
  ~ (x0 < a /\ a < x1) -> ~ (x0 < b /\ b < x1) -> ~ (x0 < c /\ c < x1) ->
  x1 <= a \/ (a <= x0 /\ x1 <= b) \/ (b <= x0 /\ x1 <= c) \/ c <= x0.
Proof.
  intros Hab Hbc H01 Na Nb Nc.
  destruct (Qlt_le_dec a x1) as [A1|A1]; [|left; exact A1].
  assert (A0 : a <= x0).
  { destruct (Qlt_le_dec x0 a) as [H|H]; [exfalso; apply Na; split; assumption|exact H]. }
  destruct (Qlt_le_dec b x1) as [B1|B1]; [|right; left; split; assumption].
  assert (B0 : b <= x0).
  { destruct (Qlt_le_dec x0 b) as [H|H]; [exfalso; apply Nb; split; assumption|exact H]. }
  destruct (Qlt_le_dec c x1) as [C1|C1]; [|right; right; left; split; assumption].
  right. right. right.
  destruct (Qlt_le_dec x0 c) as [H|H]; [exfalso; apply Nc; split; assumption|exact H].
Qed.

Lemma triangle_affine (a b c x0 x1 x : Q) :
  a < b -> b < c -> x0 < x1 ->
  ~ (x0 < a /\ a < x1) -> ~ (x0 < b /\ b < x1) -> ~ (x0 < c /\ c < x1) ->
  x0 <= x <= x1 ->
  triangle a b c x
  == (triangle a b c x1 - triangle a b c x0) / (x1 - x0) * (x - x0) + triangle a b c x0.
Proof.
  intros Hab Hbc H01 Na Nb Nc [Hx0 Hx1].
  destruct (segment_place a b c x0 x1 Hab Hbc H01 Na Nb Nc) as [H|[[H H']|[[H H']|H]]].
  - rewrite !(triangle_zero a b c) by (assumption || (left; lra)). field. lra.
  - rewrite !(triangle_rising a b c) by (assumption || lra). field. lra.
  - rewrite !(triangle_falling a b c) by (assumption || lra). field. lra.
  - rewrite !(triangle_zero a b c) by (assumption || (right; lra)). field. lra.
Qed.

Lemma no_straddle_head (p x0 x1 : Q) (xs : list Q) :
  no_straddle p x0 (x1 :: xs) = true ->
  ~ (x0 < p /\ p < x1) /\ no_straddle p x1 xs = true.
Proof.
  cbn [no_straddle]. intro H. apply andb_true_iff in H. destruct H as [H Hrest].
  split; [|exact Hrest].
  intros [A B]. apply negb_true_iff in H. apply andb_false_iff in H.
  destruct H as [H|H]; apply Qlt_bool_false in H; lra.
Qed.

Lemma triangle_affine_on_grid (a b c : Q) (xs : list Q) :
  a < b -> b < c ->
  forall x0,
    StronglySorted Qlt (x0 :: xs) ->
    no_straddle a x0 xs = true -> no_straddle b x0 xs = true ->
    no_straddle c x0 xs = true ->
    affine_on_grid (triangle a b c) x0 xs.
Proof.
  intros Hab Hbc. induction xs as [|x1 xs IH]; intros x0 Hs Ha Hb Hc; [exact I|].
  apply no_straddle_head in Ha, Hb, Hc.
  destruct Ha as [Na Ha]. destruct Hb as [Nb Hb]. destruct Hc as [Nc Hc].
  inversion Hs as [|? ? Hs' Hall]; subst.
  inversion Hall as [|? ? H01 _]; subst.
  cbn [affine_on_grid]. split; [exact H01|]. split.
  - intros x Hx. apply triangle_affine; assumption.
  - apply IH; assumption.
Qed.

(** ** Interpolation of a function that is affine between the samples *)

Lemma last_cons (a : Q) (l : list Q) (d : Q) :
  List.last (a :: l) d = List.last l a.
Proof.
  revert a d. induction l as [|b l IH]; intros a d; [reflexivity|].
  change (List.last (b :: l) d = List.last (b :: l) a).
  rewrite !IH. reflexivity.
Qed.

Lemma interp_from_exact (f : Q -> Q) (xs : list Q) :
  (forall x x', x == x' -> f x == f x') ->
  forall x0 right x,
    affine_on_grid f x0 xs ->
    x0 <= x <= List.last xs x0 ->
    Np.interp_from x0 (f x0) xs (map f xs) right x == f x.
Proof.
  intro Hf. induction xs as [|x1 xs IH]; intros x0 right x Hg [Hlo Hhi].
  - cbn [List.last] in Hhi. cbn [map Np.interp_from].
    assert (E : x == x0) by lra.
    destruct (Qeq_bool x x0) eqn:Eb.
    + symmetry. apply Hf. exact E.
    + apply Qeq_bool_false in Eb. contradiction.
  - cbn [affine_on_grid] in Hg. destruct Hg as [H01 [Haff Hg]].
    cbn [map Np.interp_from].
    destruct (Qlt_bool x x1) eqn:Ex.
    + apply Qlt_bool_true in Ex. symmetry. apply Haff. lra.
    + apply Qlt_bool_false in Ex. apply IH; [exact Hg|].
      split; [exact Ex|].
      rewrite <- (last_cons x1 xs x0). exact Hhi.
Qed.

Lemma samples_match_spec (l l' : list Q) :
  samples_match l l' = true -> Forall2 Qeq l l'.
Proof.
  revert l'. induction l as [|y t IH]; intros [|y' t'] H; try discriminate H.
  - constructor.
  - cbn [samples_match] in H. apply andb_true_iff in H. destruct H as [Hy Ht].
    constructor; [apply Qeq_bool_iff; exact Hy|apply IH; exact Ht].
Qed.

(** A term sampled from a triangle has, at every point of the range of
    its universe, the degree the triangle has there. *)
Lemma degree_of_triangle_term (var : FuzzyVariable) (name : string) (a b c : Q)
      (x0 : Q) (xs : list Q) (x : Q) :
  triangle_term var name (a, b, c) = true ->
  In name (map fst (terms var)) ->
  universe var = x0 :: xs ->
  StronglySorted Qlt (x0 :: xs) ->
  x0 <= x <= List.last xs x0 ->
  a < b /\ b < c /\ degree var name x == triangle a b c x.
Proof.
  intros Ht Hn Hu Hs Hx. unfold triangle_term in Ht. rewrite Hu in Ht.
  apply andb_true_iff in Ht. destruct Ht as [Ht Hm].
  apply andb_true_iff in Ht. destruct Ht as [Ht Hstr].
  apply andb_true_iff in Ht. destruct Ht as [Hab Hbc].
  apply andb_true_iff in Hstr. destruct Hstr as [Hstr Hc].
  apply andb_true_iff in Hstr. destruct Hstr as [Ha Hb].
  apply Qlt_bool_true in Hab. apply Qlt_bool_true in Hbc.
  split; [exact Hab|]. split; [exact Hbc|].
  rewrite (degree_mf_of var name x Hn). rewrite Hu.
  apply samples_match_spec in Hm.
  rewrite (interp_membership_compat (x0 :: xs) _ _ x x (Qeq_refl x) Hm).
  unfold Fuzz.interp_membership, Np.interp. cbn [map].
  destruct (Qlt_bool x x0) eqn:E0.
  - apply Qlt_bool_true in E0. lra.
  - apply interp_from_exact.
    + intros y y' Hy. apply triangle_compat. exact Hy.
    + apply triangle_affine_on_grid; assumption.
    + exact Hx.
Qed.

Lemma triangles_checked : triangles_ok = true.
Proof. vm_compute. reflexivity. Qed.

(** ** The degrees of the engine are those of the triangles *)

Lemma arange_0_161 :
  exists xp, Np.arange 0 161 = 0 :: xp /\ List.last xp 0 = 160.
Proof. eexists. split; [reflexivity|]. vm_compute. reflexivity. Qed.

Lemma term_triangle (var : FuzzyVariable) (name : string) :
  In var variables -> In name (map fst (terms var)) ->
  exists abc, triangle_of (label var, name) = Some abc /\
              triangle_term var name abc = true.
Proof.
  intros Hv Hn. pose proof triangles_checked as H.
  unfold triangles_ok in H. rewrite forallb_forall in H.
  specialize (H var Hv). rewrite forallb_forall in H.
  apply in_map_iff in Hn. destruct Hn as [[n mf] [E Hin]]. cbn [fst] in E. subst n.
  specialize (H (name, mf) Hin). cbn [fst] in H.
  destruct (triangle_of (label var, name)) as [abc|]; [|discriminate H].
  exists abc. split; [reflexivity|exact H].
Qed.

Lemma degree_is_membership_on (var : FuzzyVariable) (name : string) (x : Q)
      (xp : list Q) :
  In var variables -> In name (map fst (terms var)) ->
  universe var = 0 :: xp ->
  0 <= x <= List.last xp 0 ->
  degree var name x == membership (label var, name) x /\
  0 <= membership (label var, name) x <= 1.
Proof.
  intros Hv Hn Hu Hx.
  destruct (term_triangle var name Hv Hn) as [[[a b] c] [Ht Hc]].
  assert (Hs : StronglySorted Qlt (0 :: xp)).
  { rewrite <- Hu.
    destruct Hv as [<-|[<-|[<-|[]]]];
      [rewrite waiting_universe|rewrite incoming_universe|rewrite wait_time_universe];
      apply arange_from_sorted. }
  destruct (degree_of_triangle_term var name a b c 0 xp x Hc Hn Hu Hs Hx)
    as [Hab [Hbc Hd]].
  unfold membership. rewrite Ht. split; [exact Hd|].
  apply triangle_bounds; assumption.
Qed.

(** On the range of its universe, the degree of a term that the engine
    interpolates from the samples is the degree its triangle gives. *)
Lemma degree_is_membership (var : FuzzyVariable) (name : string) (x : Q) :
  In var variables -> In name (map fst (terms var)) ->
  0 <= x <= (if String.eqb (label var) "wait_time" then 160 else 100) ->
  degree var name x == membership (label var, name) x /\
  0 <= membership (label var, name) x <= 1.
Proof.
  intros Hv Hn Hx.
  assert (Hr : exists xp, universe var = 0 :: xp /\ 0 <= x <= List.last xp 0).
  { destruct Hv as [<-|[<-|[<-|[]]]].
    - destruct arange_0_101 as [xp [E L]]. exists xp.
      rewrite waiting_universe, L. split; [exact E|exact Hx].
    - destruct arange_0_101 as [xp [E L]]. exists xp.
      rewrite incoming_universe, L. split; [exact E|exact Hx].
    - destruct arange_0_161 as [xp [E L]]. exists xp.
      rewrite wait_time_universe, L. split; [exact E|exact Hx]. }
  destruct Hr as [xp [Hu Hx']].
  exact (degree_is_membership_on var name x xp Hv Hn Hu Hx').
Qed.

Lemma In_waiting : In waiting_cars variables.
Proof. left. reflexivity. Qed.

Lemma In_incoming : In incoming_cars variables.
Proof. right. left. reflexivity. Qed.

Lemma In_wait_time : In wait_time variables.
Proof. right. right. left. reflexivity. Qed.

Lemma firing_strength_or_rule (incoming waiting : Q) (w i o : string) :
  firing_strength incoming waiting (or_rule w i o)
  = Qmax (degree waiting_cars w waiting) (degree incoming_cars i incoming).
Proof. reflexivity. Qed.

Lemma or_strength_or_rule (incoming waiting : Q) (w i o : string) :
  or_strength incoming waiting (or_rule w i o)
  = Qmax (membership ("waiting_cars", w) waiting) (membership ("incoming_cars", i) incoming).
Proof. reflexivity. Qed.

(** The firing strength of a rule is the strength its formula gives. *)
Lemma firing_is_or_strength (incoming waiting : Q) (r : Rule) :
  0 <= incoming <= 100 -> 0 <= waiting <= 100 -> In r rules ->
  firing_strength incoming waiting r == or_strength incoming waiting r.
Proof.
  intros Hi Hw Hr. destruct (rules_shape r Hr) as [w [i [o [Hin ->]]]].
  fold (or_rule w i o). rewrite firing_strength_or_rule, or_strength_or_rule.
  destruct (In_rule_table_names w i o Hin) as [Hwn [Hin' _]].
  apply Q.max_compat.
  - exact (proj1 (degree_is_membership waiting_cars w waiting In_waiting Hwn Hw)).
  - exact (proj1 (degree_is_membership incoming_cars i incoming In_incoming Hin' Hi)).
Qed.

(** C4.  For every rule of the rule base and every valid pair of crisp
    inputs, the firing strength the engine computes from the fuzzified inputs
    is the maximum of the membership degrees of the (variable, term) pairs the
    rule's antecedent names, the degree of a term being that of its triangle
    at the crisp input of its variable; it lies in [0, 1]. *)
Theorem firing_strength_is_max (incoming waiting : Q) (r : Rule) :
  0 <= incoming <= 100 -> 0 <= waiting <= 100 ->
  In r rules ->
  exists mv v,
    fuzz_all (antecedents system)
             [("waiting_cars", waiting); ("incoming_cars", incoming)] [] = Ok mv /\
    aggregate_firing mv r = Ok v /\
    v == max_list (map (fun t => membership t (crisp_input incoming waiting t))
                       (term_refs (antecedent r))) /\
    0 <= v <= 1.
Proof.
  intros Hi Hw Hr.
  destruct (fuzz_all_ok [("waiting_cars", waiting); ("incoming_cars", incoming)]
                        incoming waiting eq_refl eq_refl) as [mv [Hf Hfz]].
  exists mv, (firing_strength incoming waiting r).
  split; [exact Hf|]. split; [exact (rule_firing incoming waiting mv r Hfz Hr)|].
  split; [exact (firing_is_or_strength incoming waiting r Hi Hw Hr)|].
  exact (firing_strength_bounds incoming waiting r Hr).
Qed.

Lemma firing_strength_is_max_witness :
  exists mv v,
    fuzz_all (antecedents system)
             [("waiting_cars", 30); ("incoming_cars", 70)] [] = Ok mv /\
    aggregate_firing mv (or_rule "light" "heavy" "medium") = Ok v /\
    v == max_list (map (fun t => membership t (crisp_input 70 30 t))
                       (term_refs (antecedent (or_rule "light" "heavy" "medium")))) /\
    0 <= v <= 1.
Proof.
  apply (firing_strength_is_max 70 30 (or_rule "light" "heavy" "medium")).
  - split; unfold Qle; simpl; lia.
  - split; unfold Qle; simpl; lia.
  - unfold rules, rule_table. simpl. tauto.
Defined.

(** At waiting = 30 and incoming = 70 the rule 'light' | 'heavy' fires at
    4/5: both terms have degree 1 - 5/25. *)
Example firing_strength_at_30_70 :
  max_list (map (fun t => membership t (crisp_input 70 30 t))
                (term_refs (antecedent (or_rule "light" "heavy" "medium"))))
  == 4 # 5.
Proof. vm_compute. reflexivity. Qed.

(** ** Where a sampled triangle crosses a level *)

Lemma above_compat_sample (y m m' : Q) : m == m' -> Fuzz.above y m = Fuzz.above y m'.
Proof.
  intro H. unfold Fuzz.above.
  rewrite (Qlt_bool_compat y y m m' (Qeq_refl _) H).
  rewrite (Qle_bool_compat y y m m' (Qeq_refl _) H).
  reflexivity.
Qed.

Lemma interp_universe_from_samples (h : Q) (xs : list Q) :
  forall ms ms' x0 m0 m0',
    m0 == m0' -> Forall2 Qeq ms ms' ->
    Forall2 Qeq (Fuzz.interp_universe_from x0 m0 xs ms h)
            (Fuzz.interp_universe_from x0 m0' xs ms' h).
Proof.
  induction xs as [|x1 xs IH]; intros ms ms' x0 m0 m0' H0 Hm; simpl; [constructor|].
  inversion Hm as [|m1 m1' t t' H1 Ht]; subst; [constructor|].
  rewrite (above_compat_sample h m0 m0' H0), (above_compat_sample h m1 m1' H1).
  destruct (xorb (Fuzz.above h m0') (Fuzz.above h m1')); [|apply IH; assumption].
  constructor; [|apply IH; assumption].
  rewrite H0, H1. reflexivity.
Qed.

Lemma interp_universe_from_split (f : Q -> Q) (h p : Q) (l2 : list Q) (l : list Q) :
  forall x0 m0,
    Fuzz.interp_universe_from x0 m0 (l ++ p :: l2) (map f (l ++ p :: l2)) h
    = Fuzz.interp_universe_from x0 m0 (l ++ [p]) (map f (l ++ [p])) h
      ++ Fuzz.interp_universe_from p (f p) l2 (map f l2) h.
Proof.
  induction l as [|x1 l IH]; intros x0 m0.
  - cbn [app map Fuzz.interp_universe_from].
    destruct (xorb (Fuzz.above h m0) (Fuzz.above h (f p))); reflexivity.
  - cbn [app map Fuzz.interp_universe_from]. rewrite IH.
    destruct (xorb (Fuzz.above h m0) (Fuzz.above h (f x1))); reflexivity.
Qed.

Lemma crossings_split (f : Q -> Q) (h p : Q) (l1 l2 : list Q) :
  crossings_on f h (l1 ++ p :: l2)
  = crossings_on f h (l1 ++ [p]) ++ crossings_on f h (p :: l2).
Proof.
  destruct l1 as [|x0 l1]; [reflexivity|].
  cbn [app crossings_on]. apply interp_universe_from_split.
Qed.

Lemma crossings_zero (f : Q -> Q) (h : Q) (l : list Q) :
  Forall (fun x => f x == 0) l -> crossings_on f h l = [].
Proof.
  destruct l as [|x0 xs]; [reflexivity|]. cbn [crossings_on].
  revert x0. induction xs as [|x1 xs IH]; intros x0 H; [reflexivity|].
  inversion H as [|? ? H0 H']; subst. inversion H' as [|? ? H1 _]; subst.
  cbn [map Fuzz.interp_universe_from].
  rewrite (above_compat_sample h (f x0) 0 H0), (above_compat_sample h (f x1) 0 H1).
  rewrite xorb_nilpotent. apply IH. exact H'.
Qed.

(** On a stretch where the samples follow a line of slope [s] through
    [(p, q)], every crossing of level [h] is at [p + (h - q) / s]. *)
Lemma crossings_on_line (f : Q -> Q) (h p q s : Q) (l : list Q) :
  ~ s == 0 ->
  Forall (fun x => f x == q + s * (x - p)) l ->
  increasing l = true ->
  Forall (fun v => v == p + (h - q) / s) (crossings_on f h l).
Proof.
  intros Hs. destruct l as [|x0 xs]; [constructor|]. cbn [crossings_on].
  revert x0. induction xs as [|x1 xs IH]; intros x0 Hf Hinc; [constructor|].
  inversion Hf as [|? ? H0 Hf']; subst. inversion Hf' as [|? ? H1 _]; subst.
  cbn [increasing] in Hinc. apply andb_true_iff in Hinc. destruct Hinc as [H01 Hinc].
  apply Qlt_bool_true in H01.
  cbn [map Fuzz.interp_universe_from].
  assert (Hrest := IH x1 Hf' Hinc).
  destruct (xorb (Fuzz.above h (f x0)) (Fuzz.above h (f x1))); [|exact Hrest].
  constructor; [|exact Hrest].
  rewrite H0, H1. field. split; [exact Hs|].
  intro E. assert (E' : s * (x1 - x0) == 0) by lra.
  apply Qmult_integral in E'. destruct E' as [E'|E']; [contradiction|lra].
Qed.

Lemma increasing_tail (a : Q) (l : list Q) :
  increasing (a :: l) = true -> increasing l = true.
Proof.
  destruct l as [|b l]; [reflexivity|]. cbn [increasing].
  intro H. apply andb_true_iff in H. exact (proj2 H).
Qed.

(** A stretch of samples that starts on one side of the level and ends on
    the other has a crossing. *)
Lemma crossing_exists (f : Q -> Q) (h : Q) (xs : list Q) :
  forall x0,
    Fuzz.above h (f x0) <> Fuzz.above h (f (List.last xs x0)) ->
    Fuzz.interp_universe_from x0 (f x0) xs (map f xs) h <> [].
Proof.
  induction xs as [|x1 xs IH]; intros x0 H.
  - exfalso. apply H. reflexivity.
  - cbn [map Fuzz.interp_universe_from].
    destruct (xorb (Fuzz.above h (f x0)) (Fuzz.above h (f x1))) eqn:E;
      [intro C; discriminate C|].
    apply IH. apply xorb_eq in E. rewrite <- E.
    rewrite <- (last_cons x1 xs x0). exact H.
Qed.

Lemma above_zero (h : Q) : 0 <= h -> Fuzz.above h 0 = false.
Proof.
  intro H. unfold Fuzz.above. destruct (Qeq_bool h 0) eqn:E.
  - apply Qeq_bool_iff in E. unfold Qlt_bool.
    assert (Hle : Qle_bool 0 h = true) by (apply Qle_bool_iff; lra).
    rewrite Hle. reflexivity.
  - apply Qeq_bool_false in E.
    destruct (Qle_bool h 0) eqn:E'; [|reflexivity].
    apply Qle_bool_iff in E'. exfalso. apply E. lra.
Qed.

Lemma above_one (h : Q) : h <= 1 -> Fuzz.above h 1 = true.
Proof.
  intro H. unfold Fuzz.above. destruct (Qeq_bool h 0) eqn:E.
  - apply Qeq_bool_iff in E. unfold Qlt_bool.
    destruct (Qle_bool 1 h) eqn:E'; [|reflexivity].
    apply Qle_bool_iff in E'. lra.
  - apply Qle_bool_iff. exact H.
Qed.

Lemma forallb_between (lo hi : Q) (l : list Q) :
  forallb (fun x => Qle_bool lo x && Qle_bool x hi) l = true ->
  Forall (fun x => lo <= x <= hi) l.
Proof.
  intro H. rewrite forallb_forall in H. apply Forall_forall. intros x Hx.
  specialize (H x Hx). apply andb_true_iff in H. destruct H as [A B].
  split; apply Qle_bool_iff; assumption.
Qed.

(** The crossings of level [h], 0 <= h <= 1, that the samples of a triangle
    give on a grid that has the three points of the triangle: up to
    representation, one on the rising side and one on the falling side,
    where the triangle is at height [h]. *)
Lemma crossings_of_triangle (a b c h : Q) (l1 l2 l3 l4 : list Q) (v : Q) :
  a < b -> b < c -> pieces_ok a b c l1 l2 l3 l4 = true -> 0 <= h <= 1 ->
  (exists y, In y (crossings_on (triangle a b c) h
                                (l1 ++ a :: l2 ++ b :: l3 ++ c :: l4)) /\ y == v)
  <-> v == a + h * (b - a) \/ v == c - h * (c - b).
Proof.
  intros Hab Hbc Hp [Hh0 Hh1]. unfold pieces_ok in Hp.
  apply andb_true_iff in Hp. destruct Hp as [Hp H4].
  apply andb_true_iff in Hp. destruct Hp as [Hp H3].
  apply andb_true_iff in Hp. destruct Hp as [Hp I3].
  apply andb_true_iff in Hp. destruct Hp as [Hp H2].
  apply andb_true_iff in Hp. destruct Hp as [H1 I2].
  set (f := triangle a b c).
  assert (Fa : f a == 0) by (apply triangle_zero; [assumption|assumption|left; lra]).
  assert (Fb : f b == 1).
  { unfold f. rewrite (triangle_rising a b c b Hab Hbc) by lra. field. lra. }
  assert (Fc : f c == 0) by (apply triangle_zero; [assumption|assumption|right; lra]).
  (* the four stretches *)
  rewrite (crossings_split f h a l1 (l2 ++ b :: l3 ++ c :: l4)).
  change (a :: l2 ++ b :: l3 ++ c :: l4) with ((a :: l2) ++ b :: l3 ++ c :: l4).
  rewrite (crossings_split f h b (a :: l2) (l3 ++ c :: l4)).
  change (b :: l3 ++ c :: l4) with ((b :: l3) ++ c :: l4).
  rewrite (crossings_split f h c (b :: l3) l4).
  assert (Z1 : crossings_on f h (l1 ++ [a]) = []).
  { apply crossings_zero. apply Forall_app. split.
    - rewrite forallb_forall in H1. apply Forall_forall. intros x Hx.
      apply triangle_zero; [assumption|assumption|left].
      apply Qle_bool_iff. exact (H1 x Hx).
    - constructor; [exact Fa|constructor]. }
  assert (Z4 : crossings_on f h (c :: l4) = []).
  { apply crossings_zero. constructor; [exact Fc|].
    rewrite forallb_forall in H4. apply Forall_forall. intros x Hx.
    apply triangle_zero; [assumption|assumption|right].
    apply Qle_bool_iff. exact (H4 x Hx). }
  rewrite Z1, Z4, app_nil_r, app_nil_l.
  assert (R : Forall (fun y => y == a + h * (b - a)) (crossings_on f h ((a :: l2) ++ [b]))).
  { assert (L : Forall (fun y => y == a + (h - 0) / (1 / (b - a)))
                       (crossings_on f h ((a :: l2) ++ [b]))).
    { apply (crossings_on_line f h a 0 (1 / (b - a))).
      - intro E. assert (E' : 1 == 0).
        { rewrite <- (Qmult_div_r 1 (b - a)) by lra. rewrite E. ring. }
        discriminate E'.
      - assert (Hin : Forall (fun x => a <= x <= b) ((a :: l2) ++ [b])).
        { apply Forall_app. split.
          - constructor; [lra|apply forallb_between; exact H2].
          - constructor; [lra|constructor]. }
        apply Forall_forall. intros x Hx. rewrite Forall_forall in Hin.
        unfold f. rewrite (triangle_rising a b c x Hab Hbc (Hin x Hx)). field. lra.
      - exact I2. }
    apply Forall_forall. intros y Hy. rewrite Forall_forall in L.
    rewrite (L y Hy). field. lra. }
  assert (F : Forall (fun y => y == c - h * (c - b)) (crossings_on f h ((b :: l3) ++ [c]))).
  { assert (L : Forall (fun y => y == b + (h - 1) / (- (1 / (c - b))))
                       (crossings_on f h ((b :: l3) ++ [c]))).
    { apply (crossings_on_line f h b 1 (- (1 / (c - b)))).
      - intro E. assert (E' : 1 == 0).
        { rewrite <- (Qmult_div_r 1 (c - b)) by lra.
          assert (E2 : 1 / (c - b) == 0) by lra. rewrite E2. ring. }
        discriminate E'.
      - assert (Hin : Forall (fun x => b <= x <= c) ((b :: l3) ++ [c])).
        { apply Forall_app. split.
          - constructor; [lra|apply forallb_between; exact H3].
          - constructor; [lra|constructor]. }
        apply Forall_forall. intros x Hx. rewrite Forall_forall in Hin.
        unfold f. rewrite (triangle_falling a b c x Hab Hbc (Hin x Hx)). field. lra.
      - exact I3. }
    apply Forall_forall. intros y Hy. rewrite Forall_forall in L.
    rewrite (L y Hy). field. lra. }
  assert (NR : crossings_on f h ((a :: l2) ++ [b]) <> []).
  { cbn [app crossings_on]. apply crossing_exists.
    rewrite last_last.
    rewrite (above_compat_sample h (f a) 0 Fa), (above_compat_sample h (f b) 1 Fb).
    rewrite (above_zero h Hh0), (above_one h Hh1). discriminate. }
  assert (NF : crossings_on f h ((b :: l3) ++ [c]) <> []).
  { cbn [app crossings_on]. apply crossing_exists.
    rewrite last_last.
    rewrite (above_compat_sample h (f b) 1 Fb), (above_compat_sample h (f c) 0 Fc).
    rewrite (above_zero h Hh0), (above_one h Hh1). discriminate. }
  rewrite Forall_forall in R, F.
  split.
  - intros [y [Hy E]]. apply in_app_or in Hy. destruct Hy as [Hy|Hy].
    + left. rewrite <- E. exact (R y Hy).
    + right. rewrite <- E. exact (F y Hy).
  - intros [E|E].
    + destruct (crossings_on f h ((a :: l2) ++ [b])) as [|y t] eqn:Ey;
        [exfalso; apply NR; reflexivity|].
      exists y. split; [apply in_or_app; left; left; reflexivity|].
      rewrite E. apply R. left. reflexivity.
    + destruct (crossings_on f h ((b :: l3) ++ [c])) as [|y t] eqn:Ey;
        [exfalso; apply NF; reflexivity|].
      exists y. split; [apply in_or_app; right; left; reflexivity|].
      rewrite E. apply F. left. reflexivity.
Qed.

(** ** The sample points of the defuzzification *)

Lemma mem_Forall2 (l l' : list Q) (v : Q) :
  Forall2 Qeq l l' ->
  (exists y, In y l /\ y == v) -> exists y, In y l' /\ y == v.
Proof.
  intro HF. induction HF as [|a a' t t' Ha Ht IH]; intros [y [Hy E]]; [contradiction|].
  destruct Hy as [<-|Hy].
  - exists a'. split; [left; reflexivity|]. rewrite <- Ha. exact E.
  - destruct (IH (ex_intro _ y (conj Hy E))) as [y' [Hy' E']].
    exists y'. split; [right; exact Hy'|exact E'].
Qed.

Lemma Forall2_Qeq_sym (l l' : list Q) : Forall2 Qeq l l' -> Forall2 Qeq l' l.
Proof.
  intro HF. induction HF; constructor; [symmetry; assumption|assumption].
Qed.

Lemma mem_unique (l : list Q) (v : Q) :
  (exists y, In y (Np.unique l) /\ y == v) <-> (exists y, In y l /\ y == v).
Proof.
  split.
  - intros [y [Hy E]]. exists y. split; [apply unique_In; exact Hy|exact E].
  - intros [y [Hy E]]. destruct (unique_has l y Hy) as [y' [Hy' E']].
    exists y'. split; [exact Hy'|]. rewrite E'. exact E.
Qed.

Lemma arange_from_has (n : nat) :
  forall s z, (s <= z < s + Z.of_nat n)%Z -> In (inject_Z z) (Np.arange_from s n).
Proof.
  induction n as [|n IH]; intros s z H; [lia|].
  cbn [Np.arange_from]. destruct (Z.eq_dec s z) as [->|Hne].
  - left. reflexivity.
  - right. apply IH. lia.
Qed.

(** The output universe is the 161 integers from 0 to 160. *)
Lemma output_universe_points (x : Q) :
  (exists k, In k (universe wait_time) /\ k == x)
  <-> exists z : Z, (0 <= z <= 160)%Z /\ x == inject_Z z.
Proof.
  rewrite wait_time_universe. unfold Np.arange. split.
  - intros [k [Hk E]]. destruct (arange_from_spec _ _ k Hk) as [z [-> Hz]].
    exists z. split; [simpl in Hz; lia|symmetry; exact E].
  - intros [z [Hz E]]. exists (inject_Z z). split; [|symmetry; exact E].
    apply arange_from_has. simpl. lia.
Qed.

Lemma output_grid (name : string) :
  In name (map fst (terms wait_time)) ->
  exists a b c l1 l2 l3 l4,
    output_pieces name = Some ((a, b, c), (l1, l2, l3, l4)) /\
    triangle_of ("wait_time", name) = Some (a, b, c) /\
    universe wait_time = l1 ++ a :: l2 ++ b :: l3 ++ c :: l4 /\
    pieces_ok a b c l1 l2 l3 l4 = true /\
    a < b /\ b < c.
Proof.
  rewrite wait_time_names. simpl.
  intros [<-|[<-|[<-|[]]]]; do 7 eexists;
    (split; [reflexivity|]); (split; [reflexivity|]);
    (split; [vm_compute; reflexivity|]); (split; [vm_compute; reflexivity|]);
    split; reflexivity.
Qed.

(** The abscissas [interp_universe] adds for an output term cut at
    [cut]: where its triangle is at height [cut], on either side. *)
Lemma output_term_crossings (name : string) (mf : list Q) (cut v : Q) :
  In (name, mf) (terms wait_time) -> 0 <= cut <= 1 ->
  exists abc,
    triangle_of ("wait_time", name) = Some abc /\
    ((exists y, In y (Fuzz.interp_universe (universe wait_time) mf cut) /\ y == v)
     <-> v == rising_at abc cut \/ v == falling_at abc cut).
Proof.
  intros Hin Hcut.
  assert (Hn : In name (map fst (terms wait_time)))
    by (apply (in_map fst) in Hin; exact Hin).
  destruct (output_grid name Hn) as [a [b [c [l1 [l2 [l3 [l4 [_ [Ht [Hu [Hp [Hab Hbc]]]]]]]]]]]].
  exists (a, b, c). split; [exact Ht|].
  destruct (term_triangle wait_time name In_wait_time Hn) as [abc [Ht' Hc]].
  change (label wait_time) with "wait_time" in Ht'. rewrite Ht in Ht'.
  inversion Ht'; subst abc. clear Ht'.
  unfold triangle_term in Hc. apply andb_true_iff in Hc. destruct Hc as [_ Hm].
  apply samples_match_spec in Hm.
  assert (Emf : mf_of wait_time name = mf).
  { unfold mf_of.
    rewrite (In_get _ string_eqb_spec name mf _ wait_time_names_nodup Hin). reflexivity. }
  rewrite Emf in Hm.
  rewrite <- (crossings_of_triangle a b c cut l1 l2 l3 l4 v Hab Hbc Hp Hcut).
  rewrite <- Hu. unfold rising_at, falling_at.
  destruct (universe wait_time) as [|x0 xs] eqn:EU.
  - destruct l1; discriminate Hu.
  - cbn [map] in Hm. inversion Hm as [|m0 fx0 ms fxs H0 Hms]; subst.
    cbn [Fuzz.interp_universe crossings_on].
    rewrite mem_unique.
    pose proof (interp_universe_from_samples cut xs ms (map (triangle a b c) xs)
                                             x0 m0 (triangle a b c x0) H0 Hms) as HF.
    split; intro Hmem.
    + exact (mem_Forall2 _ _ v HF Hmem).
    + exact (mem_Forall2 _ _ v (Forall2_Qeq_sym _ _ HF) Hmem).
Qed.

Lemma max_list_pointwise {A : Type} (F G : A -> Q) (l : list A) :
  (forall a, In a l -> F a == G a) ->
  max_list (map F l) == max_list (map G l).
Proof.
  intro H. destruct l as [|a0 l]; [reflexivity|].
  apply Qeq_of_le_iff. intro b.
  rewrite !max_list_le by (intro E; discriminate E).
  split; intros Hb y Hy; apply in_map_iff in Hy; destruct Hy as [a [<- Ha]].
  - rewrite <- (H a Ha). apply Hb. apply in_map. exact Ha.
  - rewrite (H a Ha). apply Hb. apply in_map. exact Ha.
Qed.

(** The level of the formulas is the level the engine clips at. *)
Lemma level_is_term_cut (incoming waiting : Q) (name : string) :
  0 <= incoming <= 100 -> 0 <= waiting <= 100 ->
  term_cut incoming waiting name == level incoming waiting name.
Proof.
  intros Hi Hw. unfold term_cut, level. apply max_list_pointwise.
  intros r Hr. apply filter_In in Hr.
  exact (firing_is_or_strength incoming waiting r Hi Hw (proj1 Hr)).
Qed.

Lemma term_cut_bounds (incoming waiting : Q) (name : string) :
  In name (map fst (terms wait_time)) ->
  0 <= term_cut incoming waiting name <= 1.
Proof.
  intro Hn. unfold term_cut.
  set (l := map (firing_strength incoming waiting)
                (filter (targets ("wait_time"%string, name)) rules)).
  pose proof (wait_time_targeted name Hn) as Hex.
  apply existsb_exists in Hex. destruct Hex as [r [Hr Ht]].
  assert (Hrl : In (firing_strength incoming waiting r) l).
  { unfold l. apply in_map. apply filter_In. split; assumption. }
  assert (Hne : l <> []) by (intro E; rewrite E in Hrl; exact Hrl).
  split.
  - apply Qle_trans with (firing_strength incoming waiting r).
    + exact (proj1 (firing_strength_bounds incoming waiting r Hr)).
    + exact (proj1 (max_list_le l (max_list l) Hne) (Qle_refl _) _ Hrl).
  - apply (max_list_le l 1 Hne). intros y Hy. unfold l in Hy.
    apply in_map_iff in Hy. destruct Hy as [r' [<- Hr']].
    apply filter_In in Hr'.
    exact (proj2 (firing_strength_bounds incoming waiting r' (proj1 Hr'))).
Qed.

(** The aggregated curve of the formulas is the one the engine clips and
    joins, on the range of the output universe. *)
Lemma clipped_curve_is_by_rules (incoming waiting x : Q) :
  0 <= incoming <= 100 -> 0 <= waiting <= 100 -> 0 <= x <= 160 ->
  aggregated_by_rules incoming waiting x == clipped_curve incoming waiting x.
Proof.
  intros Hi Hw Hx. unfold aggregated_by_rules, clipped_curve.
  apply max_list_pointwise. intros r Hr. unfold rule_clipped.
  destruct (rule_consequent r Hr) as [o [Hc Ho]]. rewrite Hc. cbn [snd].
  apply Q.min_compat.
  - exact (firing_is_or_strength incoming waiting r Hi Hw Hr).
  - exact (proj1 (degree_is_membership wait_time o x In_wait_time Ho Hx)).
Qed.

Lemma rising_at_compat (abc : Q * Q * Q) (h h' : Q) :
  h == h' -> rising_at abc h == rising_at abc h' /\ falling_at abc h == falling_at abc h'.
Proof.
  intro H. destruct abc as [[a b] c]. unfold rising_at, falling_at.
  split; rewrite H; reflexivity.
Qed.

(** The sample points the engine defuzzifies on: the points of the output
    universe and, for each output term, the two abscissas where its triangle
    is at the level the term is clipped at. *)
Lemma new_universe_points (incoming waiting : Q) (mv mv' : store) (x : Q) :
  0 <= incoming <= 100 -> 0 <= waiting <= 100 ->
  fuzzified incoming waiting mv ->
  (forall t, accumulates (firing_strength incoming waiting) rules mv mv' t) ->
  (exists y, In y (new_universe wait_time mv') /\ y == x)
  <-> (exists z : Z, (0 <= z <= 160)%Z /\ x == inject_Z z) \/
      (exists name abc,
          In name ["short"; "medium"; "long"]%string /\
          triangle_of ("wait_time", name)%string = Some abc /\
          (x == rising_at abc (level incoming waiting name) \/
           x == falling_at abc (level incoming waiting name))).
Proof.
  intros Hi Hw Hfz Hacc.
  assert (Hterm : forall name mf,
             In (name, mf) (terms wait_time) ->
             exists cut abc,
               cut_of wait_time mv' name = Some cut /\
               triangle_of ("wait_time", name)%string = Some abc /\
               ((exists y, In y (Fuzz.interp_universe (universe wait_time) mf cut) /\ y == x)
                <-> x == rising_at abc (level incoming waiting name) \/
                    x == falling_at abc (level incoming waiting name))).
  { intros name mf Hin.
    assert (Hn : In name (map fst (terms wait_time)))
      by (apply (in_map fst) in Hin; exact Hin).
    destruct (cut_is_term_cut incoming waiting mv mv' name Hfz Hacc Hn)
      as [cut [Hcut [Hq _]]].
    assert (Hb : 0 <= cut <= 1).
    { pose proof (term_cut_bounds incoming waiting name Hn) as [B0 B1].
      rewrite Hq. split; assumption. }
    destruct (output_term_crossings name mf cut x Hin Hb) as [abc [Ht Hiff]].
    exists cut, abc. split; [exact Hcut|]. split; [exact Ht|].
    assert (Hl : cut == level incoming waiting name).
    { rewrite Hq. apply level_is_term_cut; assumption. }
    destruct (rising_at_compat abc _ _ Hl) as [Er Ef].
    rewrite Hiff, Er, Ef. reflexivity. }
  unfold new_universe, Np.union1d. rewrite mem_unique.
  rewrite <- output_universe_points. split.
  - intros [y [Hy E]]. apply in_app_or in Hy. destruct Hy as [Hy|Hy].
    + left. exists y. split; assumption.
    + right. unfold new_values in Hy. apply in_flat_map in Hy.
      destruct Hy as [[name mf] [Hin Hy]]. cbn [fst snd] in Hy.
      destruct (Hterm name mf Hin) as [cut [abc [Hcut [Ht Hiff]]]].
      rewrite Hcut in Hy.
      exists name, abc. split.
      * apply (in_map fst) in Hin. rewrite wait_time_names in Hin. exact Hin.
      * split; [exact Ht|]. apply Hiff. exists y. split; assumption.
  - intros [[k [Hk E]]|[name [abc [Hn [Ht Hx]]]]].
    + exists k. split; [apply in_or_app; left; exact Hk|exact E].
    + rewrite <- wait_time_names in Hn. apply in_map_iff in Hn.
      destruct Hn as [[n mf] [En Hin]]. cbn [fst] in En. subst n.
      destruct (Hterm name mf Hin) as [cut [abc' [Hcut [Ht' Hiff]]]].
      rewrite Ht in Ht'. inversion Ht'; subst abc'.
      destruct (proj2 Hiff Hx) as [y [Hy E]].
      exists y. split; [|exact E]. apply in_or_app. right.
      unfold new_values. apply in_flat_map. exists (name, mf).
      split; [exact Hin|]. cbn [fst snd]. rewrite Hcut. exact Hy.
Qed.

(** C5, as amended.  For every valid input pair the returned wait time is
    the centroid, first moment over area (the area guarded from below by
    2^-52), of the piecewise-linear curve through the aggregated degrees at
    the sample points.  The sample points are, in increasing order and
    without repetition, the integers 0, 1, ..., 160 of the output universe
    together with, for each of 'short', 'medium' and 'long', the two
    abscissas where its triangle is at the level the term is clipped at (the
    largest strength among the rules that conclude on it); the aggregated
    degree at a point is the maximum over the rules of the output triangle
    clipped at the rule's strength, the strength of a rule being the maximum
    of the degrees of the two input triangles it names. *)
Theorem crisp_is_exact_centroid (incoming waiting : Q) :
  0 <= incoming <= 100 -> 0 <= waiting <= 100 ->
  exists (xs : list Q) (v : Q),
    wait_time_of incoming waiting = Ok v /\
    StronglySorted Qlt xs /\
    (forall x,
        (exists y, In y xs /\ y == x)
        <-> (exists z : Z, (0 <= z <= 160)%Z /\ x == inject_Z z) \/
            (exists name abc,
                In name ["short"; "medium"; "long"]%string /\
                triangle_of ("wait_time", name)%string = Some abc /\
                (x == rising_at abc (level incoming waiting name) \/
                 x == falling_at abc (level incoming waiting name)))) /\
    v == exact_centroid xs (map (clipped_curve incoming waiting) xs).
Proof.
  intros Hi Hw.
  destruct (wait_time_of_value incoming waiting Hi Hw)
    as [mv [mv' [Hf [Hfz [Hc [Hacc Hv]]]]]].
  exists (new_universe wait_time mv'), (crisp_value wait_time mv').
  split; [exact Hv|]. split.
  { unfold new_universe, Np.union1d. apply unique_sorted. }
  split.
  { intro x. exact (new_universe_points incoming waiting mv mv' x Hi Hw Hfz Hacc). }
  unfold crisp_value.
  pose proof (new_universe_bounds mv') as Hb.
  destruct (new_universe_two_points mv') as [x0 [x1 [t E]]]. rewrite E in *.
  rewrite (centroid_exact x0 x1 t (aggregated wait_time mv')
                          (aggregated_nonneg wait_time mv')).
  apply exact_centroid_compat. clear E.
  revert Hb. generalize (x0 :: x1 :: t). intro l.
  induction l as [|x xs IH]; intro Hb; simpl; constructor.
  - inversion Hb as [|? ? Hx _]; subst.
    rewrite (aggregated_is_by_rules incoming waiting mv mv' x Hfz Hacc).
    apply clipped_curve_is_by_rules; assumption.
  - apply IH. inversion Hb; assumption.
Qed.

Lemma crisp_is_exact_centroid_witness :
  exists (xs : list Q) (v : Q),
    wait_time_of 5 5 = Ok v /\
    StronglySorted Qlt xs /\
    (forall x,
        (exists y, In y xs /\ y == x)
        <-> (exists z : Z, (0 <= z <= 160)%Z /\ x == inject_Z z) \/
            (exists name abc,
                In name ["short"; "medium"; "long"]%string /\
                triangle_of ("wait_time", name)%string = Some abc /\
                (x == rising_at abc (level 5 5 name) \/
                 x == falling_at abc (level 5 5 name)))) /\
    v == exact_centroid xs (map (clipped_curve 5 5) xs).
Proof.
  apply (crisp_is_exact_centroid 5 5).
  - split; unfold Qle; simpl; lia.
  - split; unfold Qle; simpl; lia.
Defined.

(** At incoming = 5 and waiting = 5 the three levels are 4/5: 'short' is
    crossed at 40 and 55 and 'long' at 140 and 152, which are points of the
    universe, and 'medium' at 398/5 and 473/5, so that two sample points are
    added to the 161. *)
Example levels_at_5_5 :
  level 5 5 "short" == 4 # 5 /\ level 5 5 "medium" == 4 # 5 /\ level 5 5 "long" == 4 # 5 /\
  rising_at (50, 87, 125) (level 5 5 "medium") == 398 # 5 /\
  falling_at (50, 87, 125) (level 5 5 "medium") == 473 # 5.
Proof. repeat split; vm_compute; reflexivity. Qed.
